(** * extract_cudry: a verification development

    A shallow embedding of [extract_cudry.py] and the properties of its
    field extractors, schema rewriter, sort stage and weighted averages.

    Conventions of the embedding:
    - a cell text (Python [str]) is a list of characters, each character a
      code point below 256 ([ascii]); the character classes below are the
      ones Python's [str.strip], [\s], [\d] and [re.IGNORECASE] have on
      that range;
    - an absent cell (Python [None]) is [None : option text];
    - column names are [string]s, a row is a finite map from column names
      to cells;
    - a Python [float] is a binary64 value of [SpecFloat]. *)

From Stdlib Require Import ZArith Ascii String List Lia Bool.
From Stdlib Require Import Permutation Sorted SpecFloat DecimalString.
From Stdlib Require DecimalPos DecimalN.
From stdpp Require Import gmap strings list.
Import ListNotations.

Local Open Scope Z_scope.
Local Open Scope list_scope.

(** ** Texts and character classes *)

Abbreviation text := (list ascii).

Definition txt (s : string) : text := list_ascii_of_string s.

Definition code (c : ascii) : N := N_of_ascii c.

(** [str.isspace] on code points below 256: TAB..CR, FS..US, space, NEL
    and NBSP. *)
Definition is_space (c : ascii) : bool :=
  let n := code c in
  ((9 <=? n) && (n <=? 13) || (28 <=? n) && (n <=? 32)
   || (n =? 133) || (n =? 160))%N.

(** [\d] on code points below 256: the ten ASCII digits. *)
Definition is_digit (c : ascii) : bool :=
  let n := code c in ((48 <=? n) && (n <=? 57))%N.

Definition digit_val (c : ascii) : Z := Z.of_N (code c) - 48.

Definition is_char (a : ascii) : ascii -> bool := fun c => Ascii.eqb c a.

Definition not_char (a : ascii) : ascii -> bool := fun c => negb (Ascii.eqb c a).

Definition lower (c : ascii) : ascii :=
  let n := code c in
  if ((65 <=? n) && (n <=? 90))%N then ascii_of_N (n + 32) else c.

(** A literal character under [re.IGNORECASE]. *)
Definition is_char_ci (a : ascii) : ascii -> bool :=
  fun c => Ascii.eqb (lower c) (lower a).

Definition any_char : ascii -> bool := fun _ => true.

(** ** String methods *)

Fixpoint drop_while {A} (p : A -> bool) (l : list A) : list A :=
  match l with
  | [] => []
  | x :: l' => if p x then drop_while p l' else l
  end.

Fixpoint take_while {A} (p : A -> bool) (l : list A) : list A :=
  match l with
  | [] => []
  | x :: l' => if p x then x :: take_while p l' else []
  end.

Definition lstrip (s : text) : text := drop_while is_space s.
Definition rstrip (s : text) : text := rev (drop_while is_space (rev s)).

(** [s.strip()] *)
Definition strip (s : text) : text := rstrip (lstrip s).

(** The whitespace that [int] and [float] skip around a number, on code
    points below 256: TAB..CR, space, NEL and NBSP. The separators FS..US
    are whitespace for [str.strip] but not here. *)
Definition is_num_space (c : ascii) : bool :=
  let n := code c in
  ((9 <=? n) && (n <=? 13) || (n =? 32) || (n =? 133) || (n =? 160))%N.

(** A numeric literal without the whitespace around it. *)
Definition num_strip (s : text) : text :=
  rev (drop_while is_num_space (rev (drop_while is_num_space s))).

(** ["c" in s] *)
Definition contains (c : ascii) (s : text) : bool := existsb (Ascii.eqb c) s.

(** [s.rsplit(c, 1)]: the pair around the last [c], or the text alone. *)
Fixpoint rsplit1 (c : ascii) (s : text) : text * option text :=
  match s with
  | [] => ([], None)
  | x :: s' =>
      match rsplit1 c s' with
      | (h, Some t) => (x :: h, Some t)
      | (_, None) => if Ascii.eqb x c then ([], Some s') else (s, None)
      end
  end.

(** [s.split(c, 1)[0]] *)
Definition split1_head (c : ascii) (s : text) : text := take_while (not_char c) s.

(** ** Regular expressions

    The patterns of the program use literals, character classes, bounded
    and unbounded repetition of a class (greedy or lazy), groups and [$].
    A match is computed as Python's backtracking matcher finds it: [matches]
    lists every way to match at the start of the text in the order the
    matcher tries them, and the first one is the result. *)

Inductive regex : Type :=
| Eps
| Chr (p : ascii -> bool)
| Seq (r1 r2 : regex)
| Rep (greedy : bool) (lo : nat) (hi : option nat) (p : ascii -> bool)
| Grp (g : nat) (r : regex)
| Eos.

Definition groups := list (nat * text).

(** Length of the longest prefix of [s] in the class [p]. *)
Fixpoint run (p : ascii -> bool) (s : text) : nat :=
  match s with
  | c :: s' => if p c then S (run p s') else O
  | [] => O
  end.

(** The numbers [lo .. hi], ascending. *)
Definition upto (lo hi : nat) : list nat := seq lo (S hi - lo).

(** The repetition counts tried, in order. *)
Definition counts (greedy : bool) (lo : nat) (hi : option nat) (avail : nat) : list nat :=
  let top := match hi with Some h => Nat.min h avail | None => avail end in
  if greedy then rev (upto lo top) else upto lo top.

Fixpoint matches (r : regex) (s : text) : list (groups * text) :=
  match r with
  | Eps => [([], s)]
  | Chr p =>
      match s with
      | c :: s' => if p c then [([], s')] else []
      | [] => []
      end
  | Seq r1 r2 =>
      flat_map (fun '(g1, s1) => map (fun '(g2, s2) => (g1 ++ g2, s2)) (matches r2 s1))
               (matches r1 s)
  | Rep greedy lo hi p =>
      map (fun n => ([], skipn n s)) (counts greedy lo hi (run p s))
  | Grp g r1 =>
      map (fun '(g1, s1) => ((g, firstn (length s - length s1) s) :: g1, s1))
          (matches r1 s)
  | Eos =>
      match s with
      | [] => [([], s)]
      | [c] => if Ascii.eqb c "010" then [([], s)] else []
      | _ => []
      end
  end.

(** [re.match]: the first way to match at the start of [s]. *)
Definition match_here (r : regex) (s : text) : option (groups * text) :=
  hd_error (matches r s).

(** [re.search]: the first match at the leftmost position that has one.
    The result is the groups and the text after the match. *)
Fixpoint search (r : regex) (s : text) : option (groups * text) :=
  match match_here r s with
  | Some m => Some m
  | None =>
      match s with
      | [] => None
      | _ :: s' => search r s'
      end
  end.

(** [m.group(g)] *)
Fixpoint group (g : nat) (gs : groups) : text :=
  match gs with
  | [] => []
  | (g', t) :: gs' => if Nat.eqb g g' then t else group g gs'
  end.

(** [re.sub(r, "", s)] for a pattern that matches no empty text: at each
    position, a match is cut out and the scan goes on after it. [skip]
    counts the characters of the current match still to be dropped. *)
Fixpoint sub_empty_from (r : regex) (skip : nat) (s : text) : text :=
  match s with
  | [] => []
  | c :: s' =>
      match skip with
      | S k => sub_empty_from r k s'
      | O =>
          match match_here r s with
          | Some (_, rest) => sub_empty_from r (length s' - length rest) s'
          | None => c :: sub_empty_from r O s'
          end
      end
  end.

Definition sub_empty (r : regex) (s : text) : text := sub_empty_from r O s.

(** A literal text, and a literal text under [re.IGNORECASE]. *)
Fixpoint lit (s : text) : regex :=
  match s with
  | [] => Eps
  | c :: s' => Seq (Chr (is_char c)) (lit s')
  end.

Fixpoint lit_ci (s : text) : regex :=
  match s with
  | [] => Eps
  | c :: s' => Seq (Chr (is_char_ci c)) (lit_ci s')
  end.

Definition star (p : ascii -> bool) : regex := Rep true 0 None p.
Definition plus (p : ascii -> bool) : regex := Rep true 1 None p.
Definition lazy_star (p : ascii -> bool) : regex := Rep false 0 None p.
Definition between (lo hi : nat) (p : ascii -> bool) : regex := Rep true lo (Some hi) p.

Fixpoint seqs (rs : list regex) : regex :=
  match rs with
  | [] => Eps
  | [r] => r
  | r :: rs' => Seq r (seqs rs')
  end.

(** ** Pollster and sponsor extractors *)

(** [<a[^>]*>(.*?)</a>] with [IGNORECASE | DOTALL] *)
Definition anchor_re : regex :=
  seqs [ Chr (is_char "<"); Chr (is_char_ci "a"); star (not_char ">"); Chr (is_char ">");
         Grp 1 (lazy_star any_char);
         lit_ci (txt "</a>") ].

(** [<[^>]+>] *)
Definition tag_re : regex :=
  seqs [ Chr (is_char "<"); plus (not_char ">"); Chr (is_char ">") ].

(** [\^\s*Sponsor:\s*([^\^]+)\^] with [IGNORECASE] *)
Definition sponsor_re : regex :=
  seqs [ Chr (is_char "^"); star is_space; lit_ci (txt "Sponsor:"); star is_space;
         Grp 1 (plus (not_char "^"));
         Chr (is_char "^") ].

Definition extract_pollster (value : option text) : text :=
  match value with
  | None => []
  | Some s =>
      match search anchor_re s with
      | Some (m, _) => strip (group 1 m)
      | None =>
          if contains "^" s then strip (split1_head "^" s)
          else strip (sub_empty tag_re s)
      end
  end.

Definition extract_sponsor (value : option text) : text :=
  match value with
  | None => []
  | Some s =>
      match search sponsor_re s with
      | Some (m, _) => strip (group 1 m)
      | None => []
      end
  end.

(** ** Integers from text *)

Definition int_max_str_digits : nat := 4300.

(** Value of a run of decimal digits, most significant first. *)
Definition decimal (ds : text) : Z :=
  fold_left (fun a c => 10 * a + digit_val c) ds 0.

(** The digits of an integer literal without its sign: underscores are
    allowed between digits only. *)
Fixpoint int_body (s : text) (after_digit : bool) : option text :=
  match s with
  | [] => if after_digit then Some [] else None
  | c :: s' =>
      if is_digit c then option_map (cons c) (int_body s' true)
      else if Ascii.eqb c "_" then
             if after_digit then int_body s' false else None
           else None
  end.

(** [int(s)]; [None] stands for [ValueError]. *)
Definition py_int (s : text) : option Z :=
  let t := num_strip s in
  let '(neg, body) :=
    match t with
    | "+"%char :: r => (false, r)
    | "-"%char :: r => (true, r)
    | _ => (false, t)
    end in
  match int_body body false with
  | Some ds =>
      if (length ds <=? int_max_str_digits)%nat
      then Some (if neg then - decimal ds else decimal ds)
      else None
  | None => None
  end.

(** ** Calendar dates ([datetime.date]) *)

Record date : Type := Date { year : Z; month : Z; day : Z }.

Definition is_leap (y : Z) : bool :=
  (y mod 4 =? 0) && (negb (y mod 100 =? 0) || (y mod 400 =? 0)).

Definition DAYS_IN_MONTH : list Z := [0; 31; 28; 31; 30; 31; 30; 31; 31; 30; 31; 30; 31].

Definition DAYS_BEFORE_MONTH : list Z :=
  [0; 0; 31; 59; 90; 120; 151; 181; 212; 243; 273; 304; 334].

Definition days_in_month (y m : Z) : Z :=
  if (m =? 2) && is_leap y then 29 else nth (Z.to_nat m) DAYS_IN_MONTH 0.

Definition days_before_year (y : Z) : Z :=
  let y' := y - 1 in y' * 365 + y' / 4 - y' / 100 + y' / 400.

Definition days_before_month (y m : Z) : Z :=
  nth (Z.to_nat m) DAYS_BEFORE_MONTH 0 + (if (2 <? m) && is_leap y then 1 else 0).

Definition ymd2ord (y m d : Z) : Z :=
  days_before_year y + days_before_month y m + d.

Definition MINYEAR : Z := 1.
Definition MAXYEAR : Z := 9999.
Definition MAXORDINAL : Z := 3652059.

(** [date(y, m, d)]; [None] stands for [ValueError]. *)
Definition make_date (y m d : Z) : option date :=
  if (MINYEAR <=? y) && (y <=? MAXYEAR) && (1 <=? m) && (m <=? 12)
     && (1 <=? d) && (d <=? days_in_month y m)
  then Some (Date y m d) else None.

Definition date_min : date := Date 1 1 1.

Definition toordinal (d : date) : Z := ymd2ord (year d) (month d) (day d).

Definition DI400Y : Z := 146097.
Definition DI100Y : Z := 36524.
Definition DI4Y : Z := 1461.

(** [date.fromordinal] *)
Definition ord2ymd (n : Z) : date :=
  let n := n - 1 in
  let n400 := n / DI400Y in
  let n := n mod DI400Y in
  let y := n400 * 400 + 1 in
  let n100 := n / DI100Y in
  let n := n mod DI100Y in
  let n4 := n / DI4Y in
  let n := n mod DI4Y in
  let n1 := n / 365 in
  let n := n mod 365 in
  let y := y + n100 * 100 + n4 * 4 + n1 in
  if (n1 =? 4) || (n100 =? 4) then Date (y - 1) 12 31
  else
    let leapyear := (n1 =? 3) && (negb (n4 =? 24) || (n100 =? 3)) in
    let m := Z.shiftr (n + 50) 5 in
    let preceding :=
      nth (Z.to_nat m) DAYS_BEFORE_MONTH 0 + (if (2 <? m) && leapyear then 1 else 0) in
    if n <? preceding then
      let m := m - 1 in
      let preceding :=
        preceding - (nth (Z.to_nat m) DAYS_IN_MONTH 0
                     + (if (m =? 2) && leapyear then 1 else 0)) in
      Date y m (n - preceding + 1)
    else Date y m (n - preceding + 1).

Definition MAX_DELTA_DAYS : Z := 999999999.

(** [d + timedelta(days=n)]; [None] stands for [OverflowError]. *)
Definition add_days (d : date) (n : Z) : option date :=
  if Z.abs n <=? MAX_DELTA_DAYS then
    let o := toordinal d + n in
    if (0 <? o) && (o <=? MAXORDINAL) then Some (ord2ymd o) else None
  else None.

Definition digit_char (n : Z) : ascii := ascii_of_N (Z.to_N (48 + n mod 10)).

(** Decimal digits of a natural number. *)
Definition digits_of (n : Z) : text :=
  list_ascii_of_string (NilZero.string_of_uint (N.to_uint (Z.to_N n))).

(** [d.strftime("%Y-%m-%d")], as the C library under it writes it: the
    year as a decimal number without padding (a year below 1000 has fewer
    than four digits), the month and the day as two digits each. *)
Definition strftime_ymd (d : date) : text :=
  let m := month d in let dd := day d in
  digits_of (year d)
  ++ ["-"%char; digit_char (m / 10); digit_char m;
      "-"%char; digit_char (dd / 10); digit_char dd].

Definition date_leb (a b : date) : bool :=
  match year a ?= year b with
  | Lt => true
  | Gt => false
  | Eq =>
      match month a ?= month b with
      | Lt => true
      | Gt => false
      | Eq => day a <=? day b
      end
  end.

(** ** Date extractor *)

Definition ORIGIN : date := Date 1960 1 1.

(** [(\d+)$] *)
Definition id_re : regex := Seq (Grp 1 (plus is_digit)) Eos.

(** [(\d{1,2})/(\d{1,2})\s*-\s*(\d{1,2})/(\d{1,2}),\s*(\d{4})] *)
Definition range_re : regex :=
  seqs [ Grp 1 (between 1 2 is_digit); Chr (is_char "/"); Grp 2 (between 1 2 is_digit);
         star is_space; Chr (is_char "-"); star is_space;
         Grp 3 (between 1 2 is_digit); Chr (is_char "/"); Grp 4 (between 1 2 is_digit);
         Chr (is_char ","); star is_space; Grp 5 (between 4 4 is_digit) ].

(** [(\d{1,2})/(\d{1,2})/(\d{4})] *)
Definition single_re : regex :=
  seqs [ Grp 1 (between 1 2 is_digit); Chr (is_char "/"); Grp 2 (between 1 2 is_digit);
         Chr (is_char "/"); Grp 3 (between 4 4 is_digit) ].

(** [x if x is not None else y], for the fall-through of a [try] block. *)
Definition or_else {A} (x : option A) (y : option A) : option A :=
  match x with Some _ => x | None => y end.

Definition bind {A B} (x : option A) (f : A -> option B) : option B :=
  match x with Some a => f a | None => None end.

(** The id after the last ["@"]. *)
Definition id_branch (s : text) : option text :=
  if contains "@" s then
    match rsplit1 "@" s with
    | (_, Some tail) =>
        match search id_re (strip tail) with
        | Some (m, _) =>
            bind (py_int (group 1 m)) (fun n =>
            bind (add_days ORIGIN n) (fun d =>
            Some (strftime_ymd d)))
        | None => None
        end
    | (_, None) => None
    end
  else None.

(** The end date of a range. *)
Definition range_branch (s : text) : option text :=
  match search range_re s with
  | Some (m, _) =>
      bind (py_int (group 3 m)) (fun mm2 =>
      bind (py_int (group 4 m)) (fun dd2 =>
      bind (py_int (group 5 m)) (fun yyyy =>
      bind (make_date yyyy mm2 dd2) (fun d =>
      Some (strftime_ymd d)))))
  | None => None
  end.

(** A single date. *)
Definition single_branch (s : text) : option text :=
  match search single_re s with
  | Some (m, _) =>
      bind (py_int (group 3 m)) (fun y =>
      bind (py_int (group 1 m)) (fun mo =>
      bind (py_int (group 2 m)) (fun d =>
      bind (make_date y mo d) (fun dt =>
      Some (strftime_ymd dt)))))
  | None => None
  end.

Definition extract_date (value : option text) : option text :=
  match value with
  | None => None
  | Some s =>
      match or_else (id_branch s) (or_else (range_branch s) (single_branch s)) with
      | Some r => Some r
      | None => Some s
      end
  end.

(** ** Schema rewriter *)

(** [l.remove(x)] for an [x] that occurs in [l]. *)
Fixpoint remove_first (x : string) (l : list string) : list string :=
  match l with
  | [] => []
  | y :: l' => if decide (x = y) then l' else y :: remove_first x l'
  end.

(** [l.index(x)] for an [x] that occurs in [l]. *)
Fixpoint index (x : string) (l : list string) : nat :=
  match l with
  | [] => O
  | y :: l' => if decide (x = y) then O else S (index x l')
  end.

(** [l.insert(i, x)] *)
Definition insert_at (i : nat) (x : string) (l : list string) : list string :=
  firstn i l ++ x :: skipn i l.

Definition drop_column (fields : list string) (col : string) : list string :=
  if decide (col ∈ fields) then remove_first col fields else fields.

Definition add_after (anchor new : string) (fields : list string) : list string :=
  if decide (anchor ∈ fields ∧ new ∉ fields) then
    insert_at (index anchor fields + 1) new fields
  else if decide (new ∉ fields) then fields ++ [new]
  else fields.

Definition compute_fieldnames (orig_fields : list string) : list string :=
  let fields := orig_fields in
  let fields := fold_left drop_column ["Disapprove"; "Net"]%string fields in
  let fields := add_after "Pollster" "Sponsor" fields in
  let fields := add_after "Approve" "RollingWeightedApprove" fields in
  fields.

(** ** Floating-point numbers ([float]) *)

Abbreviation float := spec_float.

Definition prec : Z := 53.
Definition emax : Z := 1024.

Definition fadd : float -> float -> float := SFadd prec emax.
Definition fmul : float -> float -> float := SFmul prec emax.
Definition fdiv : float -> float -> float := SFdiv prec emax.
Definition fltb : float -> float -> bool := SFltb.
Definition fzero : float := S754_zero false.

(** [math.isfinite] *)
Definition isfinite (x : float) : bool :=
  match x with
  | S754_zero _ | S754_finite _ _ _ => true
  | _ => false
  end.

(** The binary64 value nearest to [(-1)^neg * m * 10^e] (ties to even). *)
Definition float_of_decimal (neg : bool) (m e : Z) : float :=
  match m with
  | Zpos p =>
      if 0 <=? e
      then binary_normalize prec emax (cond_Zopp neg (m * 10 ^ e)) 0 false
      else SFdiv prec emax (S754_finite neg p 0)
                           (S754_finite false (Z.to_pos (10 ^ (- e))) 0)
  | _ => S754_zero neg
  end.

(** Underscores of a numeric literal: each stands between two digits; the
    result is the literal without them. *)
Fixpoint drop_underscores (prev : option ascii) (s : text) : option text :=
  match s with
  | [] =>
      match prev with
      | Some "_"%char => None
      | _ => Some []
      end
  | c :: s' =>
      if Ascii.eqb c "_" then
        match prev with
        | Some p => if is_digit p then drop_underscores (Some c) s' else None
        | None => None
        end
      else
        match prev with
        | Some "_"%char =>
            if is_digit c then option_map (cons c) (drop_underscores (Some c) s')
            else None
        | _ => option_map (cons c) (drop_underscores (Some c) s')
        end
  end.

Definition split_sign (s : text) : bool * text :=
  match s with
  | "+"%char :: r => (false, r)
  | "-"%char :: r => (true, r)
  | _ => (false, s)
  end.

Definition eq_ci (a b : text) : bool :=
  if decide (map lower a = map lower b) then true else false.

(** The exponent part of a literal: [e] or [E], a sign, digits. *)
Definition exponent (s : text) : option Z :=
  match s with
  | [] => Some 0
  | c :: r =>
      if is_char_ci "e" c then
        let '(neg, ds) := split_sign r in
        if forallb is_digit ds && negb (Nat.eqb (length ds) 0)
        then Some (if neg then - decimal ds else decimal ds)
        else None
      else None
  end.

(** [float(s)] for a text; [None] stands for [ValueError]. *)
Definition float_of_text (s : text) : option float :=
  match drop_underscores None (num_strip s) with
  | None => None
  | Some u =>
      let '(neg, body) := split_sign u in
      if eq_ci body (txt "inf") || eq_ci body (txt "infinity") then Some (S754_infinity neg)
      else if eq_ci body (txt "nan") then Some S754_nan
      else
        let int_part := take_while is_digit body in
        let r := drop_while is_digit body in
        let '(frac_part, r) :=
          match r with
          | "."%char :: r' => (take_while is_digit r', drop_while is_digit r')
          | _ => ([], r)
          end in
        match int_part ++ frac_part with
        | [] => None
        | ds =>
            match exponent r with
            | Some e => Some (float_of_decimal neg (decimal ds) (e - Z.of_nat (length frac_part)))
            | None => None
            end
        end
  end.

(** [float(v)] for a cell; an absent cell raises [TypeError]. *)
Definition py_float (v : option text) : option float := bind v float_of_text.

(** The integer nearest to [m * 2^e * 10^k] (ties to even). *)
Definition scaled_round (m : positive) (e : Z) (k : Z) : Z :=
  if 0 <=? e then Zpos m * 2 ^ e * 10 ^ k
  else
    let num := Zpos m * 10 ^ k in
    let den := 2 ^ (- e) in
    let q := num / den in
    let r := num mod den in
    match 2 * r ?= den with
    | Lt => q
    | Gt => q + 1
    | Eq => if Z.even q then q else q + 1
    end.

(** The five fraction digits of [n / 10^5]. *)
Definition frac5 (n : Z) : text :=
  [digit_char (n / 10000); digit_char (n / 1000); digit_char (n / 100);
   digit_char (n / 10); digit_char n].

Definition fixed5 (neg : bool) (n : Z) : text :=
  (if neg then ["-"%char] else []) ++ digits_of (n / 100000) ++ "."%char :: frac5 (n mod 100000).

(** [f"{x:.5f}"] *)
Definition format_5f (x : float) : text :=
  match x with
  | S754_nan => txt "nan"
  | S754_infinity neg => if neg then txt "-inf" else txt "inf"
  | S754_zero neg => fixed5 neg 0
  | S754_finite neg m e => fixed5 neg (scaled_round m e 5)
  end.

(** ** Rows *)

Abbreviation row := (gmap string (option text)).

(** [r.get(k)] *)
Definition get (r : row) (k : string) : option text := default None (r !! k).

(** [r.get(k, "")] *)
Definition get_or_empty (r : row) (k : string) : option text := default (Some []) (r !! k).

(** [k in r] *)
Definition has_key (r : row) (k : string) : bool := bool_decide (is_Some (r !! k)).

(** [r.setdefault(k, "")] *)
Definition setdefault (r : row) (k : string) : row :=
  match r !! k with
  | Some _ => r
  | None => <[k := Some []]> r
  end.

(** The body of the reading loop of [main]. *)
Definition process_row (fieldnames : list string) (r : row) : row :=
  let out_row := r in
  let out_row :=
    if has_key r "Dates" then <["Dates"%string := extract_date (get r "Dates")]> out_row
    else out_row in
  let sponsor_val := extract_sponsor (get r "Pollster") in
  let out_row := <["Sponsor"%string := Some sponsor_val]> out_row in
  let out_row :=
    if has_key r "Pollster"
    then <["Pollster"%string := Some (extract_pollster (get r "Pollster"))]> out_row
    else out_row in
  fold_left setdefault fieldnames out_row.

(** ** Sort stage *)

(** [s.split(c)] *)
Fixpoint split_on (c : ascii) (s : text) : list text :=
  match s with
  | [] => [[]]
  | x :: s' =>
      if Ascii.eqb x c then [] :: split_on c s'
      else
        match split_on c s' with
        | h :: t => (x :: h) :: t
        | [] => [[x]]
        end
  end.

(** [str(v)] *)
Definition py_str (v : option text) : text :=
  match v with
  | Some s => s
  | None => txt "None"
  end.

(** The [try] block of [to_date_or_min]; [None] stands for an exception. *)
Definition parse_ymd (s : option text) : option date :=
  match split_on "-" (py_str s) with
  | [a; b; c] =>
      bind (py_int a) (fun y =>
      bind (py_int b) (fun m =>
      bind (py_int c) (fun d =>
      make_date y m d)))
  | _ => None
  end.

Definition to_date_or_min (s : option text) : date :=
  match parse_ymd s with
  | Some d => d
  | None => date_min
  end.

(** [l.sort(key=key, reverse=True)]: the stable sort by descending key. An
    element is put before the first one whose key is not greater. *)
Section Sort.
Context {A : Type} (key : A -> date).

Fixpoint insert_desc (x : A) (l : list A) : list A :=
  match l with
  | [] => [x]
  | y :: l' =>
      if date_leb (key y) (key x) then x :: l else y :: insert_desc x l'
  end.

Definition sort_desc (l : list A) : list A := fold_right insert_desc [] l.
End Sort.

Definition date_key (r : row) : date := to_date_or_min (get r "Dates").

(** ** Exceptions

    The arithmetic of the two passes can raise: a [float] division by zero
    raises [ZeroDivisionError]. *)

Inductive exn : Type := ZeroDivisionError.

Inductive result (A : Type) : Type :=
| Ok (a : A)
| Raise (e : exn).

Arguments Ok {A} a.
Arguments Raise {A} e.

Definition rbind {A B} (c : result A) (k : A -> result B) : result B :=
  match c with
  | Ok a => k a
  | Raise e => Raise e
  end.

Notation "x <- c ;;; k" := (rbind c (fun x => k))
  (at level 100, c at next level, right associativity).

(** [x / y] *)
Definition truediv (x y : float) : result float :=
  match y with
  | S754_zero _ => Raise ZeroDivisionError
  | _ => Ok (fdiv x y)
  end.

(** ** Aggregator *)

(** The two [float(...)] calls of a pass; [None] stands for an exception. *)
Definition weight_value (r : row) : option (float * float) :=
  bind (py_float (get_or_empty r "Influence")) (fun w =>
  bind (py_float (get_or_empty r "Approve")) (fun v =>
  Some (w, v))).

(** [math.isfinite(w) and w > 0 and math.isfinite(v)] *)
Definition included (w v : float) : bool :=
  isfinite w && fltb fzero w && isfinite v.

(** The pair of running sums: weights, and weights times values. *)
Definition accum : Type := float * float.

Definition add_row (acc : accum) (w v : float) : accum :=
  (fadd (fst acc) w, fadd (snd acc) (fmul w v)).

(** One round of the loop of the global average. *)
Definition global_step (acc : accum) (r : row) : accum :=
  match weight_value r with
  | None => acc
  | Some (w, v) => if included w v then add_row acc w v else acc
  end.

(** [(sum_wv / sum_w) if sum_w > 0 else None] *)
Definition ratio (acc : accum) : result (option float) :=
  if fltb fzero (fst acc)
  then x <- truediv (snd acc) (fst acc) ;;; Ok (Some x)
  else Ok None.

Definition weighted_approve (rows : list row) : result (option float) :=
  ratio (fold_left global_step rows (fzero, fzero)).

(** The accumulator after one round of the loop of the rolling average. *)
Definition rolling_acc (acc : accum) (r : row) : accum :=
  let '(w, v) :=
    match weight_value r with
    | Some wv => wv
    | None => (S754_nan, S754_nan)
    end in
  if included w v then add_row acc w v else acc.

(** [f"{(cum_wv / cum_w):.5f}" if cum_w > 0 else ""] *)
Definition rolling_text (acc : accum) : result text :=
  x <- ratio acc ;;;
  Ok (match x with Some q => format_5f q | None => [] end).

(** One round of the loop of the rolling average: the accumulator after
    the row, and the row with its rolling value. *)
Definition rolling_step (acc : accum) (r : row) : result (accum * row) :=
  let acc := rolling_acc acc r in
  t <- rolling_text acc ;;;
  Ok (acc, <["RollingWeightedApprove"%string := Some t]> r).

Fixpoint rolling (acc : accum) (rows : list row) : result (list row) :=
  match rows with
  | [] => Ok []
  | r :: rows' =>
      ar <- rolling_step acc r ;;;
      rs <- rolling (fst ar) rows' ;;;
      Ok (snd ar :: rs)
  end.

(** ** Writer and main *)

(** A cell as [csv.DictWriter] writes it: an absent key and [None] are
    written as the empty text. *)
Definition cell_text (c : option (option text)) : text :=
  match c with
  | Some (Some t) => t
  | _ => []
  end.

Definition write_row (fieldnames : list string) (r : row) : list text :=
  map (fun k => cell_text (r !! k)) fieldnames.

Record output : Type := Output {
  csv_header : list string;
  csv_rows : list (list text);
  stdout : list text
}.

Definition report_prefix : text := txt "Weighted Approve (by Influence): ".
Definition report_na : text := txt "Weighted Approve (by Influence): N/A (no valid rows)".

(** The line that [main] prints. *)
Definition report (weighted : option float) : text :=
  match weighted with
  | Some x => report_prefix ++ format_5f x
  | None => report_na
  end.

(** The rows of [main] after the sort, before the two passes. *)
Definition sorted_rows (header : list string) (rows : list row) : list row :=
  sort_desc date_key (map (process_row (compute_fieldnames header)) rows).

(** [main] on the header and the data rows that [csv.DictReader] yields:
    the CSV file written and the lines printed. *)
Definition main (header : list string) (rows : list row) : result output :=
  let fieldnames := compute_fieldnames header in
  let rows_out := sorted_rows header rows in
  weighted <- weighted_approve rows_out ;;;
  rows_out <- rolling (fzero, fzero) rows_out ;;;
  Ok {| csv_header := fieldnames;
        csv_rows := map (write_row fieldnames) rows_out;
        stdout := [report weighted] |}.

(** * Specifications *)

(** ** Specification of the schema rewriter *)

(** The two columns that are dropped. *)
Definition unwanted (c : string) : Prop := c = "Disapprove"%string \/ c = "Net"%string.

#[global] Instance unwanted_dec (c : string) : Decision (unwanted c).
Proof. unfold unwanted. apply _. Defined.

(** [l] has [new] directly behind an [anchor]. *)
Definition immediately_after (anchor new : string) (l : list string) : Prop :=
  exists pre post, l = pre ++ anchor :: new :: post.

(** [placed anchor new l l']: [l'] is [l] with the column [new] put in
    place. A column that is already there stays where it is; otherwise it
    goes directly behind the first [anchor], or to the end when there is no
    [anchor]. *)
Inductive placed (anchor new : string) (l : list string) : list string -> Prop :=
| placed_kept :
    new ∈ l -> placed anchor new l l
| placed_behind pre post :
    new ∉ l -> l = pre ++ anchor :: post -> anchor ∉ pre ->
    placed anchor new l (pre ++ anchor :: new :: post)
| placed_appended :
    new ∉ l -> anchor ∉ l -> placed anchor new l (l ++ [new]).

(** ** Specification of the sort stage *)

(** [later_or_equal a b]: the date of row [a] is not before the date of
    row [b]. *)
Definition later_or_equal (a b : row) : Prop :=
  date_leb (date_key b) (date_key a) = true.

(** A row whose ["Dates"] cell does not parse as a date. *)
Definition unparseable (r : row) : Prop := parse_ymd (get r "Dates") = None.

#[global] Instance date_eq_dec : EqDecision date.
Proof. solve_decision. Defined.

#[global] Instance unparseable_dec (r : row) : Decision (unparseable r).
Proof. unfold unparseable. apply _. Defined.

(** ** Specification of the aggregator *)

(** The least exponent of a binary64 number. *)
Definition emin64 : Z := SpecFloat.emin prec emax.

(** A positive number or plus infinity. *)
Definition fpos (x : float) : Prop :=
  match x with
  | S754_finite false _ e => emin64 <= e
  | S754_infinity false => True
  | _ => False
  end.

(** The weight and the value of a row that counts for the averages: both
    cells parse as floating-point numbers, the weight is finite and greater
    than zero, and the value is finite. *)
Definition qualifying (r : row) : option (float * float) :=
  match py_float (get_or_empty r "Influence"), py_float (get_or_empty r "Approve") with
  | Some w, Some v =>
      if isfinite w && fltb fzero w && isfinite v then Some (w, v) else None
  | _, _ => None
  end.

(** The running sums over the rows that count, in the order of the rows. *)
Definition fsum (l : list float) : float := fold_left fadd l fzero.

Definition weights (rows : list row) : list float :=
  map fst (omap qualifying rows).

Definition products (rows : list row) : list float :=
  map (fun wv => fmul (fst wv) (snd wv)) (omap qualifying rows).

(** The weighted average of the rows, formatted; the empty text while the
    sum of the weights is zero. *)
Definition average_text (rows : list row) : text :=
  match fsum (weights rows) with
  | S754_zero _ => []
  | sw => format_5f (fdiv (fsum (products rows)) sw)
  end.

(** The rolling value of a row in the output. *)
Definition rolling_value (r : row) : option (option text) :=
  r !! "RollingWeightedApprove"%string.

(** A row with a weight cell and a value cell. *)
Definition weighted_row (w v : string) : row :=
  {[ "Influence"%string := Some (txt w); "Approve"%string := Some (txt v) ]}.

(** ** Specification of matching

    [rmatch r w rest g]: the pattern [r] matches the text [w] when [rest]
    follows it, and captures the groups [g]. *)

Inductive rmatch : regex -> text -> text -> groups -> Prop :=
| rm_eps rest :
    rmatch Eps [] rest []
| rm_chr p c rest :
    p c = true -> rmatch (Chr p) [c] rest []
| rm_seq r1 r2 w1 w2 rest g1 g2 :
    rmatch r1 w1 (w2 ++ rest) g1 -> rmatch r2 w2 rest g2 ->
    rmatch (Seq r1 r2) (w1 ++ w2) rest (g1 ++ g2)
| rm_rep greedy lo hi p w rest :
    forallb p w = true -> (lo <= length w)%nat ->
    (forall h, hi = Some h -> (length w <= h)%nat) ->
    rmatch (Rep greedy lo hi p) w rest []
| rm_grp n r w rest g :
    rmatch r w rest g -> rmatch (Grp n r) w rest ((n, w) :: g)
| rm_eos rest :
    rest = [] \/ rest = ["010"%char] -> rmatch Eos [] rest [].

(** [r] matches at the start of [s]. *)
Definition matches_at (r : regex) (s : text) (g : groups) (rest : text) : Prop :=
  exists w, s = w ++ rest /\ rmatch r w rest g.

(** ** Specification of the sponsor extractor *)

(** The texts are equal up to the case of their letters. *)
Definition same_ci (a b : text) : Prop := map lower a = map lower b.

(** All characters are whitespace. *)
Definition blank (ws : text) : Prop := forallb is_space ws = true.

(** The character [c] does not occur in [s]. *)
Definition free_of (c : ascii) (s : text) : Prop := forallb (not_char c) s = true.

(** The first character of [x], if any, is not in the class [p]. *)
Definition stops (p : ascii -> bool) (x : text) : Prop :=
  match x with
  | [] => True
  | c :: _ => p c = false
  end.

(** [s] starts with a sponsor segment: a caret, optional whitespace, the
    label with its colon, and the text [body] up to the next caret, which
    is not empty. *)
Definition sponsor_segment (s body : text) : Prop :=
  exists ws label rest,
    s = "^"%char :: ws ++ label ++ body ++ "^"%char :: rest
    /\ blank ws
    /\ same_ci label (txt "Sponsor:")
    /\ body <> []
    /\ free_of "^" body.

(** [body] is the body of the leftmost sponsor segment of [s]. *)
Definition first_sponsor (s body : text) : Prop :=
  exists pre suf,
    s = pre ++ suf
    /\ sponsor_segment suf body
    /\ forall p1 p2 b, pre = p1 ++ p2 -> p2 <> [] -> ~ sponsor_segment (p2 ++ suf) b.

(** [s] has no sponsor segment. *)
Definition no_sponsor (s : text) : Prop :=
  forall pre suf body, s = pre ++ suf -> ~ sponsor_segment suf body.

(** A segment with whitespace on both sides of the colon, as a reading of
    "flexible whitespace around the colon" has it. *)
Definition loose_sponsor_segment (s content : text) : Prop :=
  exists pre label ws1 ws2 rest,
    s = pre ++ "^"%char :: label ++ ws1 ++ ":"%char :: ws2 ++ content ++ "^"%char :: rest
    /\ same_ci label (txt "Sponsor")
    /\ blank ws1 /\ blank ws2
    /\ free_of "^" content.

(** ** Specification of the pollster extractor *)

(** [s] starts with an anchor span with the inner text [inner]: "<", the
    letter a in either case, attributes up to the next ">", the inner
    text, and a closing tag "</a>" in any case. *)
Definition anchor_span (s inner : text) : Prop :=
  exists a attrs close rest,
    s = "<"%char :: a :: attrs ++ ">"%char :: inner ++ close ++ rest
    /\ lower a = "a"%char
    /\ free_of ">" attrs
    /\ same_ci close (txt "</a>").

(** [inner] is the inner text of the first anchor span of [s]: the span
    that starts leftmost and, from there, closes first. *)
Definition first_anchor (s inner : text) : Prop :=
  exists pre suf,
    s = pre ++ suf
    /\ anchor_span suf inner
    /\ (forall p1 p2 i, pre = p1 ++ p2 -> p2 <> [] -> ~ anchor_span (p2 ++ suf) i)
    /\ (forall i, anchor_span suf i -> (length inner <= length i)%nat).

(** [s] has no anchor span. *)
Definition no_anchor (s : text) : Prop :=
  forall pre suf inner, s = pre ++ suf -> ~ anchor_span suf inner.

(** [s] starts with an angle-bracket span, and [rest] follows it: "<", at
    least one character other than ">", and ">". *)
Definition tag_span (s rest : text) : Prop :=
  exists body,
    s = "<"%char :: body ++ ">"%char :: rest /\ body <> [] /\ free_of ">" body.

(** [spans_removed s out]: [out] is [s] without its angle-bracket spans,
    taken from left to right. *)
Inductive spans_removed : text -> text -> Prop :=
| sr_nil :
    spans_removed [] []
| sr_span s rest out :
    tag_span s rest -> spans_removed rest out -> spans_removed s out
| sr_keep c s out :
    (forall rest, ~ tag_span (c :: s) rest) -> spans_removed s out ->
    spans_removed (c :: s) (c :: out).

(** The anchor pattern behind the opening tag. *)
Definition anchor_tail : regex := Seq (Grp 1 (lazy_star any_char)) (lit_ci (txt "</a>")).

(** ** Specification of the calendar *)

(** A date of the proleptic Gregorian calendar in the years 1 to 9999. *)
Definition valid_date (d : date) : Prop :=
  1 <= year d <= 9999
  /\ 1 <= month d <= 12
  /\ 1 <= day d <= days_in_month (year d) (month d).

(** The day after [d]. *)
Definition tomorrow (d : date) : date :=
  if day d <? days_in_month (year d) (month d) then Date (year d) (month d) (day d + 1)
  else if month d <? 12 then Date (year d) (month d + 1) 1
  else Date (year d + 1) 1 1.

(** The date [n] days after [d]. *)
Definition days_after (n : nat) (d : date) : date := Nat.iter n tomorrow d.

(** The month and the day of the [n]-th day of a year, counted from 0, as
    [date.fromordinal] finds them. *)
Definition month_day (leapyear : bool) (n : Z) : Z * Z :=
  let m := Z.shiftr (n + 50) 5 in
  let preceding :=
    nth (Z.to_nat m) DAYS_BEFORE_MONTH 0 + (if (2 <? m) && leapyear then 1 else 0) in
  if n <? preceding then
    let m := m - 1 in
    let preceding :=
      preceding - (nth (Z.to_nat m) DAYS_IN_MONTH 0
                   + (if (m =? 2) && leapyear then 1 else 0)) in
    (m, n - preceding + 1)
  else (m, n - preceding + 1).

(** The check that [month_day] is right for the days [0 .. n - 1]. *)
Fixpoint month_day_ok (leapyear : bool) (n : nat) : bool :=
  match n with
  | O => true
  | S n' =>
      let '(m, d) := month_day leapyear (Z.of_nat n') in
      let len := if (m =? 2) && leapyear then 29 else nth (Z.to_nat m) DAYS_IN_MONTH 0 in
      let before :=
        nth (Z.to_nat m) DAYS_BEFORE_MONTH 0 + (if (2 <? m) && leapyear then 1 else 0) in
      (1 <=? m) && (m <=? 12) && (1 <=? d) && (d <=? len)
      && (before + d =? Z.of_nat n' + 1)
      && month_day_ok leapyear n'
  end.

(** ** Specification of the date extractor *)

(** All characters are decimal digits. *)
Definition digits (ds : text) : Prop := forallb is_digit ds = true.

(** One or two digits. *)
Definition short_number (ds : text) : Prop :=
  digits ds /\ (1 <= length ds <= 2)%nat.

(** Four digits. *)
Definition year_number (ds : text) : Prop :=
  digits ds /\ length ds = 4%nat.

(** The first character of [x], if any, is not the digit zero. *)
Definition no_leading_zero (x : text) : Prop := stops (is_char "0") x.

(** [t] is the date [d] as the program writes it: the year as one to four
    digits without a leading zero, a hyphen, the month as two digits, a
    hyphen, and the day as two digits. For the years from 1000 on this is
    the form YYYY-MM-DD. *)
Definition ymd_text (d : date) (t : text) : Prop :=
  exists yy mm dd,
    t = yy ++ "-"%char :: mm ++ "-"%char :: dd
    /\ digits yy /\ (1 <= length yy <= 4)%nat /\ no_leading_zero yy
    /\ digits mm /\ length mm = 2%nat /\ digits dd /\ length dd = 2%nat
    /\ decimal yy = year d /\ decimal mm = month d /\ decimal dd = day d.

(** [tail] is the text behind the last "@" of [s]. *)
Definition after_last_at (s tail : text) : Prop :=
  exists h, s = h ++ "@"%char :: tail /\ free_of "@" tail.

(** [ds] is the run of digits at the end of [t]. *)
Definition trailing_digits (t ds : text) : Prop :=
  exists body, t = body ++ ds /\ digits ds /\ stops is_digit (rev body).

(** The largest day offset from 1960-01-01 that gives a date up to
    9999-12-31. *)
Definition max_offset : Z := MAXORDINAL - toordinal ORIGIN.

(** [d] is the date that the id of [s] stands for: the trimmed text behind
    the last "@" ends in a run of digits, a number of at most 4300 digits
    and at most [max_offset], and [d] is that many days after 1960-01-01. *)
Definition id_date (s : text) (d : date) : Prop :=
  exists tail ds,
    after_last_at s tail
    /\ trailing_digits (strip tail) ds
    /\ ds <> []
    /\ (length ds <= int_max_str_digits)%nat
    /\ decimal ds <= max_offset
    /\ d = days_after (Z.to_nat (decimal ds)) ORIGIN.

(** [s] starts with a range "MM/DD - MM/DD, YYYY" whose second month, second
    day and year are [m2], [d2] and [y]. *)
Definition range_at (s m2 d2 y : text) : Prop :=
  exists m1 d1 ws1 ws2 ws3 rest,
    s = m1 ++ "/"%char :: d1 ++ ws1 ++ "-"%char :: ws2
        ++ m2 ++ "/"%char :: d2 ++ ","%char :: ws3 ++ y ++ rest
    /\ short_number m1 /\ short_number d1 /\ blank ws1 /\ blank ws2
    /\ short_number m2 /\ short_number d2 /\ blank ws3 /\ year_number y.

(** The leftmost range of [s]. *)
Definition first_range (s m2 d2 y : text) : Prop :=
  exists pre suf,
    s = pre ++ suf
    /\ range_at suf m2 d2 y
    /\ forall p1 p2 a b c, pre = p1 ++ p2 -> p2 <> [] -> ~ range_at (p2 ++ suf) a b c.

(** [d] is the end date of the leftmost range of [s], a date of the
    calendar. *)
Definition range_date (s : text) (d : date) : Prop :=
  exists m2 d2 y,
    first_range s m2 d2 y
    /\ d = Date (decimal y) (decimal m2) (decimal d2)
    /\ valid_date d.

(** [s] starts with a date "MM/DD/YYYY". *)
Definition single_at (s m d y : text) : Prop :=
  exists rest,
    s = m ++ "/"%char :: d ++ "/"%char :: y ++ rest
    /\ short_number m /\ short_number d /\ year_number y.

(** The leftmost single date of [s]. *)
Definition first_single (s m d y : text) : Prop :=
  exists pre suf,
    s = pre ++ suf
    /\ single_at suf m d y
    /\ forall p1 p2 a b c, pre = p1 ++ p2 -> p2 <> [] -> ~ single_at (p2 ++ suf) a b c.

(** [d] is the leftmost single date of [s], a date of the calendar. *)
Definition single_date (s : text) (d : date) : Prop :=
  exists m dd y,
    first_single s m dd y
    /\ d = Date (decimal y) (decimal m) (decimal dd)
    /\ valid_date d.

(** ** Sample rows *)

(** A row with a "Dates" cell only. *)
Definition dated_row (s : string) : row := {[ "Dates"%string := Some (txt s) ]}.

(** ** Cells that hold no number *)

(** The cell of column [k] is missing, absent or blank. *)
Definition empty_cell (r : row) (k : string) : Prop :=
  match r !! k with
  | Some (Some t) => blank t
  | _ => True
  end.

(** ** Numbers in a text *)

(** A run of at least one and at most 4300 decimal digits. *)
Definition number (ds : text) : Prop :=
  digits ds /\ ds <> [] /\ (length ds <= int_max_str_digits)%nat.

(** * Properties *)

(** ** The schema rewriter *)

Section Fieldnames.
Implicit Types (l fields : list string) (x c : string).

Lemma filter_ne_notin x l : x ∉ l -> filter (fun c => c <> x) l = l.
Proof.
  induction l as [|y l IH]; [done|].
  intros Hn. apply not_elem_of_cons in Hn as [Hxy Hl].
  rewrite filter_cons_True by congruence. by rewrite IH.
Qed.

Lemma remove_first_filter x l :
  NoDup l -> remove_first x l = filter (fun c => c <> x) l.
Proof.
  induction 1 as [|y l Hy Hnd IH]; simpl; [done|].
  destruct (decide (x = y)) as [->|Hxy].
  - rewrite filter_cons_False by (intros H; by apply H).
    by rewrite filter_ne_notin.
  - rewrite filter_cons_True by congruence. by rewrite IH.
Qed.

Lemma drop_column_filter x l :
  NoDup l -> drop_column l x = filter (fun c => c <> x) l.
Proof.
  intros Hnd. unfold drop_column. destruct (decide (x ∈ l)).
  - by apply remove_first_filter.
  - by rewrite filter_ne_notin.
Qed.

Lemma drop_column_NoDup x l : NoDup l -> NoDup (drop_column l x).
Proof.
  intros Hnd. rewrite drop_column_filter by done. by apply NoDup_filter.
Qed.

Lemma index_split x l :
  x ∈ l ->
  l = firstn (index x l) l ++ x :: skipn (index x l + 1) l
  /\ x ∉ firstn (index x l) l.
Proof.
  induction l as [|y l IH]; intros Hin.
  - by apply elem_of_nil in Hin.
  - simpl. destruct (decide (x = y)) as [->|Hne]; simpl.
    + split; [done|]. apply not_elem_of_nil.
    + apply elem_of_cons in Hin as [?|Hin]; [done|].
      destruct (IH Hin) as [Heq Hnot]. split.
      * by rewrite <- Heq.
      * apply not_elem_of_cons. done.
Qed.

Lemma index_lt x l : x ∈ l -> (index x l < length l)%nat.
Proof.
  induction l as [|y l IH]; intros Hin.
  - by apply elem_of_nil in Hin.
  - simpl. destruct (decide (x = y)); [lia|].
    apply elem_of_cons in Hin as [?|Hin]; [done|]. specialize (IH Hin). lia.
Qed.

Lemma insert_at_behind x new l :
  x ∈ l ->
  insert_at (index x l + 1) new l
  = firstn (index x l) l ++ x :: new :: skipn (index x l + 1) l.
Proof.
  intros Hin. destruct (index_split x l Hin) as [Heq _].
  pose proof (index_lt x l Hin) as Hlt.
  unfold insert_at.
  set (i := index x l) in *.
  assert (Hlen : length (firstn i l) = i) by (rewrite length_take; lia).
  rewrite Heq at 1.
  rewrite take_app_add' by done. simpl. rewrite take_0.
  rewrite <- app_assoc. done.
Qed.

(** [add_after] puts the new column in place. *)
Lemma add_after_placed anchor new l : placed anchor new l (add_after anchor new l).
Proof.
  unfold add_after.
  destruct (decide (anchor ∈ l /\ new ∉ l)) as [[Ha Hn]|Hno].
  - rewrite insert_at_behind by done.
    destruct (index_split anchor l Ha) as [Heq Hpre].
    by apply placed_behind.
  - destruct (decide (new ∉ l)) as [Hn|Hn].
    + apply placed_appended; [done|]. intros Ha. apply Hno. done.
    + apply placed_kept. by apply dec_stable.
Qed.

Lemma placed_elem_of anchor new l l' c :
  placed anchor new l l' -> c ∈ l' <-> c ∈ l \/ c = new.
Proof.
  destruct 1 as [Hin|pre post Hn -> Hpre|Hn Ha].
  - split; [by left|]. intros [?| ->]; done.
  - rewrite !elem_of_app, !elem_of_cons. tauto.
  - rewrite elem_of_app, list_elem_of_singleton. tauto.
Qed.

Lemma placed_NoDup anchor new l l' :
  placed anchor new l l' -> NoDup l -> NoDup l'.
Proof.
  destruct 1 as [Hin|pre post Hn -> Hpre|Hn Ha]; [done| |].
  - intros Hnd.
    assert (Hp : pre ++ anchor :: new :: post ≡ₚ new :: pre ++ anchor :: post).
    { rewrite (cons_middle anchor pre (new :: post)), app_assoc.
      rewrite <- Permutation_middle. rewrite <- app_assoc. done. }
    rewrite Hp. by apply NoDup_cons.
  - intros Hnd. apply NoDup_app. split_and!; [done| |apply NoDup_singleton].
    intros c Hc ->%list_elem_of_singleton. done.
Qed.

Lemma compute_fieldnames_unfold l :
  compute_fieldnames l
  = add_after "Approve" "RollingWeightedApprove"
      (add_after "Pollster" "Sponsor"
         (drop_column (drop_column l "Disapprove") "Net")).
Proof. reflexivity. Qed.

Lemma dropped_filter l :
  NoDup l ->
  drop_column (drop_column l "Disapprove") "Net" = filter (fun c => ~ unwanted c) l.
Proof.
  intros Hnd.
  rewrite (drop_column_filter "Net") by by apply drop_column_NoDup.
  rewrite drop_column_filter by done.
  rewrite list_filter_filter. apply list_filter_iff.
  intros c. unfold unwanted. tauto.
Qed.
End Fieldnames.

(** C5. For a list of pairwise distinct column names, the
    output schema is the input without "Disapprove" and "Net", with
    "Sponsor" put in place relative to "Pollster" and then
    "RollingWeightedApprove" relative to "Approve": a column that is already
    there stays where it is, otherwise it is inserted directly behind the
    anchor column, or appended when there is no anchor column. The output
    contains neither "Disapprove" nor "Net". *)
Theorem compute_fieldnames_schema (orig_fields : list string) :
  NoDup orig_fields ->
  exists mid,
    placed "Pollster" "Sponsor" (filter (fun c => ~ unwanted c) orig_fields) mid
    /\ placed "Approve" "RollingWeightedApprove" mid (compute_fieldnames orig_fields)
    /\ forall c, c ∈ compute_fieldnames orig_fields -> ~ unwanted c.
Proof.
  intros Hnd. rewrite compute_fieldnames_unfold, dropped_filter by done.
  set (base := filter _ orig_fields).
  exists (add_after "Pollster" "Sponsor" base).
  pose proof (add_after_placed "Pollster" "Sponsor" base) as H1.
  pose proof (add_after_placed "Approve" "RollingWeightedApprove"
                (add_after "Pollster" "Sponsor" base)) as H2.
  split_and!; [done|done|].
  intros c Hc.
  apply (placed_elem_of _ _ _ _ c) in H2. apply H2 in Hc as [Hc| ->].
  - apply (placed_elem_of _ _ _ _ c) in H1. apply H1 in Hc as [Hc| ->].
    + subst base. apply list_elem_of_filter in Hc. tauto.
    + unfold unwanted. intros [?|?]; discriminate.
  - unfold unwanted. intros [?|?]; discriminate.
Qed.

Lemma compute_fieldnames_schema_witness :
  exists mid,
    placed "Pollster" "Sponsor"
      (filter (fun c => ~ unwanted c)
         ["Dates"; "Pollster"; "Approve"; "Disapprove"; "Net"; "Influence"]%string) mid
    /\ placed "Approve" "RollingWeightedApprove" mid
         (compute_fieldnames
            ["Dates"; "Pollster"; "Approve"; "Disapprove"; "Net"; "Influence"]%string)
    /\ forall c,
         c ∈ compute_fieldnames
               ["Dates"; "Pollster"; "Approve"; "Disapprove"; "Net"; "Influence"]%string ->
         ~ unwanted c.
Proof.
  apply (compute_fieldnames_schema
           ["Dates"; "Pollster"; "Approve"; "Disapprove"; "Net"; "Influence"]%string).
  apply (bool_decide_unpack _). vm_compute. exact I.
Defined.

(** C5, counterexample. With a "Sponsor" column that does not follow
    "Pollster" in the input, the output does not have "Sponsor" directly
    behind "Pollster"; and a "Disapprove" column that occurs twice is still
    in the output. *)
Lemma compute_fieldnames_counterexample :
  ~ immediately_after "Pollster" "Sponsor"
      (compute_fieldnames ["Pollster"; "Firm"; "Sponsor"]%string)
  /\ "Disapprove"%string ∈ compute_fieldnames ["Disapprove"; "Disapprove"]%string.
Proof.
  split.
  - change (compute_fieldnames ["Pollster"; "Firm"; "Sponsor"]%string)
      with ["Pollster"; "Firm"; "Sponsor"; "RollingWeightedApprove"]%string.
    intros (pre & post & Heq).
    destruct pre as [|a [|b [|c [|d pre]]]]; simplify_eq/=.
    destruct pre; discriminate.
  - change (compute_fieldnames ["Disapprove"; "Disapprove"]%string)
      with ["Disapprove"; "Sponsor"; "RollingWeightedApprove"]%string.
    apply elem_of_cons. by left.
Qed.

(** C10. Pairwise distinct input column names give pairwise distinct output
    column names. *)
Theorem compute_fieldnames_NoDup (orig_fields : list string) :
  NoDup orig_fields -> NoDup (compute_fieldnames orig_fields).
Proof.
  intros Hnd. rewrite compute_fieldnames_unfold.
  eapply placed_NoDup; [apply add_after_placed|].
  eapply placed_NoDup; [apply add_after_placed|].
  by do 2 apply drop_column_NoDup.
Qed.

Lemma compute_fieldnames_NoDup_witness :
  NoDup (compute_fieldnames ["Dates"; "Pollster"; "Approve"; "Net"]%string).
Proof.
  apply (compute_fieldnames_NoDup ["Dates"; "Pollster"; "Approve"; "Net"]%string).
  apply (bool_decide_unpack _). vm_compute. exact I.
Defined.

(** ** Order of dates *)

Lemma date_leb_spec (a b : date) :
  date_leb a b = true <->
  year a < year b
  \/ (year a = year b /\ (month a < month b \/ (month a = month b /\ day a <= day b))).
Proof.
  unfold date_leb.
  destruct (Z.compare_spec (year a) (year b));
    destruct (Z.compare_spec (month a) (month b));
    rewrite ?Z.leb_le; split; intros; try lia; try discriminate; try done.
Qed.

Lemma date_leb_refl (a : date) : date_leb a a = true.
Proof. apply date_leb_spec. lia. Qed.

Lemma date_leb_trans (a b c : date) :
  date_leb a b = true -> date_leb b c = true -> date_leb a c = true.
Proof. rewrite !date_leb_spec. lia. Qed.

Lemma date_leb_total (a b : date) : date_leb a b = false -> date_leb b a = true.
Proof.
  intros H. apply date_leb_spec.
  assert (Hn : ~ date_leb a b = true) by (rewrite H; discriminate).
  rewrite date_leb_spec in Hn. lia.
Qed.

Lemma date_leb_antisym (a b : date) :
  date_leb a b = true -> date_leb b a = true -> a = b.
Proof.
  rewrite !date_leb_spec. destruct a, b; simpl. intros. f_equal; lia.
Qed.

(** ** The stable descending sort *)

Section SortFacts.
Context {A : Type} (key : A -> date).
Implicit Types (x : A) (l : list A).

Let desc (a b : A) : Prop := date_leb (key b) (key a) = true.

Lemma insert_desc_perm x l : insert_desc key x l ≡ₚ x :: l.
Proof.
  induction l as [|y l IH]; simpl; [done|].
  destruct (date_leb (key y) (key x)); [done|].
  rewrite IH. apply Permutation_swap.
Qed.

Lemma sort_desc_perm l : sort_desc key l ≡ₚ l.
Proof.
  induction l as [|x l IH]; simpl; [done|].
  rewrite insert_desc_perm. by rewrite IH.
Qed.

Lemma insert_desc_sorted x l :
  StronglySorted desc l -> StronglySorted desc (insert_desc key x l).
Proof.
  induction 1 as [|y l Hs IH Hy]; simpl.
  - repeat constructor.
  - destruct (date_leb (key y) (key x)) eqn:E.
    + constructor; [by constructor|].
      constructor; [done|].
      eapply Forall_impl; [exact Hy|]. intros z Hz. unfold desc in *.
      by eapply date_leb_trans.
    + constructor; [done|].
      rewrite insert_desc_perm. constructor; [|done].
      by apply date_leb_total.
Qed.

Lemma sorted_behind (pre : list A) (a : A) (post : list A) :
  StronglySorted desc (pre ++ a :: post) -> Forall (desc a) post.
Proof.
  induction pre as [|y pre IH]; simpl; intros Hs.
  - by apply StronglySorted_inv in Hs as [_ Hall].
  - apply StronglySorted_inv in Hs as [Hs _]. by apply IH.
Qed.

Lemma sort_desc_sorted l : StronglySorted desc (sort_desc key l).
Proof.
  induction l as [|x l IH]; simpl; [constructor|]. by apply insert_desc_sorted.
Qed.

Lemma insert_desc_filter (k : date) x l :
  filter (fun y => key y = k) (insert_desc key x l)
  = filter (fun y => key y = k) (x :: l).
Proof.
  induction l as [|y l IH]; simpl; [done|].
  destruct (date_leb (key y) (key x)) eqn:E; [done|].
  assert (Hne : key y <> key x).
  { intros Heq. rewrite Heq, date_leb_refl in E. discriminate. }
  rewrite (filter_cons _ y), IH, !filter_cons.
  repeat case_decide; congruence.
Qed.

(** Rows with the same key keep their order. *)
Lemma sort_desc_stable (k : date) l :
  filter (fun y => key y = k) (sort_desc key l) = filter (fun y => key y = k) l.
Proof.
  induction l as [|x l IH]; simpl; [done|].
  rewrite insert_desc_filter, !filter_cons, IH. done.
Qed.

Lemma sort_desc_stable_on (P : A -> Prop) `{!forall x, Decision (P x)} (k : date) l :
  (forall x, P x -> key x = k) ->
  filter P (sort_desc key l) = filter P l.
Proof.
  intros HP.
  assert (Hf : forall l', filter P l' = filter P (filter (fun y => key y = k) l')).
  { intros l'. rewrite list_filter_filter. apply list_filter_iff.
    intros x. split; [|tauto]. intros Hx. split; [done|]. by apply HP. }
  rewrite Hf, sort_desc_stable, <- Hf. done.
Qed.
End SortFacts.

Lemma make_date_min (y m d : Z) (dt : date) :
  make_date y m d = Some dt -> date_leb date_min dt = true.
Proof.
  unfold make_date, MINYEAR. intros H.
  destruct (_ && _) eqn:E in H; [|discriminate]. simplify_eq.
  repeat (apply andb_prop in E as [E ?]).
  apply date_leb_spec. simpl. lia.
Qed.

Lemma parse_ymd_min (s : option text) (d : date) :
  parse_ymd s = Some d -> date_leb date_min d = true.
Proof.
  unfold parse_ymd. destruct (split_on _ _) as [|a [|b [|c [|]]]]; try discriminate.
  destruct (py_int a); [simpl|discriminate].
  destruct (py_int b); [simpl|discriminate].
  destruct (py_int c); [simpl|discriminate].
  apply make_date_min.
Qed.

(** The sentinel is the least key. *)
Lemma date_key_min (r : row) : date_leb date_min (date_key r) = true.
Proof.
  unfold date_key, to_date_or_min.
  destruct (parse_ymd _) eqn:E; [by eapply parse_ymd_min|]. apply date_leb_refl.
Qed.

Lemma unparseable_key (r : row) : unparseable r -> date_key r = date_min.
Proof. unfold unparseable, date_key, to_date_or_min. by intros ->. Qed.

(** X25. After the sort stage every row has a date that is not
    before the date of the row behind it, where an unparseable date counts
    as the sentinel 0001-01-01; every row behind a row with an unparseable
    date has the sentinel as its date, so that the rows with an unparseable
    date come after all rows with a later date; rows with equal dates keep
    their input order, and so do the rows with an unparseable date. *)
Theorem sort_stage_order (rows : list row) :
  let out := sort_desc date_key rows in
  Sorted later_or_equal out
  /\ (forall pre a post, out = pre ++ a :: post -> unparseable a ->
      forall b, b ∈ post -> date_key b = date_min)
  /\ (forall k, filter (fun r => date_key r = k) out = filter (fun r => date_key r = k) rows)
  /\ filter unparseable out = filter unparseable rows.
Proof.
  intros out. pose proof (sort_desc_sorted date_key rows) as Hs. fold out in Hs.
  split_and!.
  - by apply StronglySorted_Sorted.
  - intros pre a post Heq Ha b Hb. rewrite Heq in Hs.
    apply sorted_behind in Hs. rewrite Forall_forall in Hs. specialize (Hs b Hb).
    rename Hs into Hall.
    rewrite (unparseable_key a Ha) in Hall.
    apply date_leb_antisym; [done|]. apply date_key_min.
  - intros k. apply sort_desc_stable.
  - apply (sort_desc_stable_on date_key unparseable date_min). apply unparseable_key.
Qed.

(** C4. An unknown date that does not go last. For the input rows with the
    "Dates" cells "n/a" and "0001-01-01", in this order, [main] writes the
    row "n/a" first: its date is unparseable, the date of the other row
    parses to 0001-01-01, both have the key [date.min], and the stable sort
    keeps their input order. So a row with an unparseable date stands
    before a row with a parseable one, against the comment of the sort
    stage, "Unknown dates go last". *)
Theorem sort_stage_unknown_first :
  unparseable (process_row (compute_fieldnames ["Dates"]%string) (dated_row "n/a"))
  /\ parse_ymd (get (process_row (compute_fieldnames ["Dates"]%string)
                       (dated_row "0001-01-01")) "Dates")
     = Some (Date 1 1 1)
  /\ sorted_rows ["Dates"]%string [dated_row "n/a"; dated_row "0001-01-01"]
     = map (process_row (compute_fieldnames ["Dates"]%string))
         [dated_row "n/a"; dated_row "0001-01-01"]
  /\ (out <- main ["Dates"]%string [dated_row "n/a"; dated_row "0001-01-01"] ;;;
      Ok (csv_header out, csv_rows out))
     = Ok (["Dates"; "Sponsor"; "RollingWeightedApprove"]%string,
           [[txt "n/a"; []; []]; [txt "0001-01-01"; []; []]]).
Proof. split_and!; vm_compute; reflexivity. Qed.

(** ** The two passes never raise *)

Lemma ratio_ok (acc : accum) :
  ratio acc
  = Ok (if fltb fzero (fst acc) then Some (fdiv (snd acc) (fst acc)) else None).
Proof.
  unfold ratio. destruct (fltb fzero (fst acc)) eqn:E; [|done].
  destruct (fst acc); done.
Qed.

Lemma rolling_text_ok (acc : accum) :
  rolling_text acc
  = Ok (if fltb fzero (fst acc) then format_5f (fdiv (snd acc) (fst acc)) else []).
Proof. unfold rolling_text. rewrite ratio_ok. simpl. by destruct (fltb _ _). Qed.

Lemma rolling_ok (acc : accum) (rows : list row) :
  exists rs, rolling acc rows = Ok rs /\ length rs = length rows.
Proof.
  revert acc. induction rows as [|r rows IH]; intros acc; simpl.
  - by exists [].
  - unfold rolling_step. rewrite rolling_text_ok. simpl.
    destruct (IH (rolling_acc acc r)) as (rs & -> & Hlen). simpl.
    eexists. split; [done|]. simpl. by rewrite Hlen.
Qed.

Lemma weighted_approve_ok (rows : list row) :
  exists w, weighted_approve rows = Ok w.
Proof. unfold weighted_approve. rewrite ratio_ok. eauto. Qed.

(** The rows after the sort are the processed rows in another order. *)
Lemma sorted_rows_length (header : list string) (rows : list row) :
  length (sorted_rows header rows) = length rows.
Proof.
  unfold sorted_rows. rewrite sort_desc_perm. apply length_map.
Qed.

(** Neither pass of [main] raises: the division is guarded by the test on
    the weight, everything else is caught row by row. *)
Lemma main_ok (header : list string) (rows : list row) :
  exists w rs,
    weighted_approve (sorted_rows header rows) = Ok w
    /\ rolling (fzero, fzero) (sorted_rows header rows) = Ok rs
    /\ length rs = length (sorted_rows header rows)
    /\ main header rows
       = Ok {| csv_header := compute_fieldnames header;
               csv_rows := map (write_row (compute_fieldnames header)) rs;
               stdout := [report w] |}.
Proof.
  unfold main.
  destruct (weighted_approve_ok (sorted_rows header rows)) as [w Hw].
  destruct (rolling_ok (fzero, fzero) (sorted_rows header rows)) as (rs & Hrs & Hlen).
  exists w, rs. rewrite Hw, Hrs. done.
Qed.

(** C8. [main] returns, and the CSV file it writes has as many data rows as
    the input: the rows written are the rolling pass over the sorted rows,
    and these are the processed input rows in another order. *)
Theorem main_row_count (header : list string) (rows : list row) :
  exists out rs,
    main header rows = Ok out
    /\ length (csv_rows out) = length rows
    /\ rolling (fzero, fzero) (sorted_rows header rows) = Ok rs
    /\ csv_rows out = map (write_row (compute_fieldnames header)) rs
    /\ length rs = length rows
    /\ sorted_rows header rows ≡ₚ map (process_row (compute_fieldnames header)) rows.
Proof.
  destruct (main_ok header rows) as (w & rs & _ & Hrs & Hlen & ->).
  pose proof (sorted_rows_length header rows) as Hn.
  eexists _, rs. split_and!; try done.
  - simpl. rewrite length_map. congruence.
  - congruence.
  - apply sort_desc_perm.
Qed.

(** ** Rounding keeps positive numbers positive *)

Lemma digits2_pos_bounds (m : positive) :
  2 ^ (Zpos (digits2_pos m) - 1) <= Zpos m < 2 ^ Zpos (digits2_pos m).
Proof.
  induction m as [m IH|m IH|]; simpl digits2_pos.
  - rewrite Pos2Z.inj_succ. change (Zpos m~1) with (2 * Zpos m + 1).
    replace (Z.succ (Zpos (digits2_pos m)) - 1) with (Z.succ (Zpos (digits2_pos m) - 1)) by lia.
    rewrite !Z.pow_succ_r by lia. lia.
  - rewrite Pos2Z.inj_succ. change (Zpos m~0) with (2 * Zpos m).
    replace (Z.succ (Zpos (digits2_pos m)) - 1) with (Z.succ (Zpos (digits2_pos m) - 1)) by lia.
    rewrite !Z.pow_succ_r by lia. lia.
  - split; by vm_compute.
Qed.

Lemma shr_1_m (mrs : shr_record) :
  0 <= shr_m mrs -> shr_m (shr_1 mrs) = shr_m mrs / 2.
Proof.
  destruct mrs as [m r s]. simpl. intros Hm.
  destruct m as [|[p|p|]|p]; simpl shr_m.
  - done.
  - change (Zpos p~1) with (2 * Zpos p + 1). apply Z.div_unique with 1; lia.
  - change (Zpos p~0) with (2 * Zpos p). apply Z.div_unique with 0; lia.
  - done.
  - lia.
Qed.

Lemma iter_shr_1_m (p : positive) (mrs : shr_record) :
  0 <= shr_m mrs ->
  shr_m (SpecFloat.iter_pos shr_1 p mrs) = shr_m mrs / 2 ^ Zpos p.
Proof.
  revert mrs. induction p as [p IH|p IH|]; intros mrs Hm; simpl SpecFloat.iter_pos.
  - assert (H1 : 0 <= shr_m (shr_1 mrs)) by (rewrite shr_1_m by done; apply Z.div_pos; lia).
    assert (H2 : 0 <= shr_m (SpecFloat.iter_pos shr_1 p (shr_1 mrs)))
      by (rewrite IH by done; apply Z.div_pos; lia).
    rewrite IH, IH, shr_1_m by done.
    rewrite !Z.div_div by lia. f_equal.
    change (Zpos p~1) with (2 * Zpos p + 1).
    replace (2 * Zpos p + 1) with (1 + Zpos p + Zpos p) by lia.
    rewrite !Z.pow_add_r by lia. lia.
  - assert (H2 : 0 <= shr_m (SpecFloat.iter_pos shr_1 p mrs))
      by (rewrite IH by done; apply Z.div_pos; lia).
    rewrite IH, IH by done.
    rewrite !Z.div_div by lia. f_equal.
    change (Zpos p~0) with (2 * Zpos p).
    replace (2 * Zpos p) with (Zpos p + Zpos p) by lia.
    rewrite !Z.pow_add_r by lia. lia.
  - rewrite shr_1_m by done. done.
Qed.

Lemma shr_record_of_loc_m (m : Z) (l : location) : shr_m (shr_record_of_loc m l) = m.
Proof. by destruct l as [|[]]. Qed.

(** The exponent after a shift is never below the least exponent. *)
Lemma shr_fexp_exp (m e : Z) (l : location) :
  emin64 <= snd (shr_fexp prec emax m e l).
Proof.
  unfold shr_fexp, shr, fexp, emin64.
  destruct (_ - e) as [|n|n] eqn:E; simpl; lia.
Qed.

(** A positive mantissa with an exponent in range stays positive. *)
Lemma shr_fexp_pos (m : positive) (e : Z) (l : location) :
  emin64 <= e -> 0 < shr_m (fst (shr_fexp prec emax (Zpos m) e l)).
Proof.
  intros He. unfold shr_fexp, shr.
  pose proof (digits2_pos_bounds m) as [Hlo _].
  simpl Zdigits2. set (d := Zpos (digits2_pos m)) in *.
  destruct (_ - e) as [|n|n] eqn:E; simpl fst; rewrite ?shr_record_of_loc_m; try lia.
  rewrite iter_shr_1_m by (rewrite shr_record_of_loc_m; lia).
  rewrite shr_record_of_loc_m.
  assert (Hn : Zpos n <= d - 1).
  { unfold fexp, emin64, SpecFloat.emin, prec, emax in *. lia. }
  apply Z.div_str_pos. split; [lia|].
  etransitivity; [|exact Hlo]. apply Z.pow_le_mono_r; lia.
Qed.

Lemma round_nearest_even_pos (m : Z) (l : location) :
  0 < m -> 0 < round_nearest_even m l.
Proof. intros Hm. destruct l as [|[]]; simpl; try lia. destruct (Z.even m); lia. Qed.

Lemma binary_round_aux_pos (m : positive) (e : Z) (l : location) :
  emin64 <= e -> fpos (binary_round_aux prec emax false (Zpos m) e l).
Proof.
  intros He. unfold binary_round_aux.
  pose proof (shr_fexp_pos m e l He) as H1.
  pose proof (shr_fexp_exp (Zpos m) e l) as H1e.
  destruct (shr_fexp prec emax (Zpos m) e l) as [mrs1 e1]. simpl in H1, H1e.
  pose proof (round_nearest_even_pos (shr_m mrs1) (loc_of_shr_record mrs1) H1) as H2.
  destruct (round_nearest_even _ _) as [|m2|m2]; try lia.
  pose proof (shr_fexp_pos m2 e1 loc_Exact H1e) as H3.
  pose proof (shr_fexp_exp (Zpos m2) e1 loc_Exact) as H3e.
  destruct (shr_fexp prec emax (Zpos m2) e1 loc_Exact) as [mrs2 e2]. simpl in H3, H3e.
  destruct (shr_m mrs2) as [|m3|m3]; try lia.
  destruct (e2 <=? emax - prec); simpl; done.
Qed.

(** A finite result of a rounding has its exponent in range. *)
Lemma binary_round_aux_exp (s : bool) (m e : Z) (l : location) (s' : bool) (m' : positive) (e' : Z) :
  binary_round_aux prec emax s m e l = S754_finite s' m' e' -> emin64 <= e'.
Proof.
  unfold binary_round_aux.
  destruct (shr_fexp prec emax m e l) as [mrs1 e1].
  pose proof (shr_fexp_exp (round_nearest_even (shr_m mrs1) (loc_of_shr_record mrs1)) e1 loc_Exact) as H.
  destruct (shr_fexp prec emax _ e1 loc_Exact) as [mrs2 e2]. simpl in H.
  destruct (shr_m mrs2); try done.
  destruct (e2 <=? emax - prec); intros; simplify_eq. done.
Qed.

Lemma shl_align_exp (m : positive) (e e' : Z) :
  snd (shl_align m e e') = Z.min e e'.
Proof. unfold shl_align. destruct (e' - e) eqn:E; simpl; lia. Qed.

Lemma binary_round_pos (m : positive) (e : Z) :
  emin64 <= e -> fpos (binary_round prec emax false m e).
Proof.
  intros He. unfold binary_round.
  pose proof (shl_align_exp m e (fexp prec emax (Zpos (digits2_pos m) + e))) as Hs.
  destruct (shl_align m e _) as [mz ez]. simpl in Hs.
  apply binary_round_aux_pos. subst ez.
  unfold fexp, emin64 in *. lia.
Qed.

Lemma binary_round_exp (s : bool) (m : positive) (e : Z) (s' : bool) (m' : positive) (e' : Z) :
  binary_round prec emax s m e = S754_finite s' m' e' -> emin64 <= e'.
Proof.
  unfold binary_round. destruct (shl_align m e _) as [mz ez]. apply binary_round_aux_exp.
Qed.

(** Adding a positive number to zero, a positive number or plus infinity
    gives a positive number or plus infinity. *)
Lemma fadd_pos (x y : float) :
  x = fzero \/ fpos x -> fpos y -> isfinite y = true -> fpos (fadd x y).
Proof.
  intros Hx Hy Hfy.
  destruct y as [| | |[] my ey]; try done.
  destruct Hx as [->|Hx]; [done|].
  destruct x as [|[]| |[] mx ex]; try done.
  simpl in Hx, Hy. unfold fadd, SFadd. simpl cond_Zopp.
  unfold binary_normalize. simpl Z.add.
  apply binary_round_pos. lia.
Qed.

(** ** The aggregator *)

Lemma float_of_decimal_exp (neg : bool) (m e : Z) (s' : bool) (m' : positive) (e' : Z) :
  float_of_decimal neg m e = S754_finite s' m' e' -> emin64 <= e'.
Proof.
  unfold float_of_decimal. destruct m as [|p|p]; try done.
  destruct (0 <=? e).
  - unfold binary_normalize. destruct (cond_Zopp _ _); try done; apply binary_round_exp.
  - unfold SFdiv. destruct (SFdiv_core_binary _ _ _ _ _ _) as [[mz ez] lz].
    apply binary_round_aux_exp.
Qed.

Lemma float_of_text_exp (s : text) (s' : bool) (m' : positive) (e' : Z) :
  float_of_text s = Some (S754_finite s' m' e') -> emin64 <= e'.
Proof.
  unfold float_of_text.
  destruct (drop_underscores _ _) as [u|]; [|done].
  destruct (split_sign u) as [neg body].
  destruct (_ || _); [done|]. destruct (eq_ci _ _); [done|].
  destruct (drop_while is_digit body) as [|c r] eqn:Er.
  - destruct (take_while is_digit body ++ []); [done|].
    destruct (exponent _); [|done]. intros [= H]. by eapply float_of_decimal_exp.
  - set (fr := match c with "."%char => _ | _ => _ end).
    destruct fr as [frac r'].
    destruct (take_while is_digit body ++ frac); [done|].
    destruct (exponent _); [|done]. intros [= H]. by eapply float_of_decimal_exp.
Qed.

(** The weight of a row that counts is a positive finite number. *)
Lemma qualifying_weight (r : row) (w v : float) :
  qualifying r = Some (w, v) -> fpos w /\ isfinite w = true.
Proof.
  unfold qualifying.
  destruct (py_float (get_or_empty r "Influence")) as [w'|] eqn:Ew; [|done].
  destruct (py_float (get_or_empty r "Approve")) as [v'|]; [|done].
  destruct (isfinite w') eqn:Ef; [|done]. simpl.
  destruct (fltb fzero w') eqn:El; [|done]. simpl.
  destruct (isfinite v'); [|done]. intros [= -> ->]. split; [|done].
  destruct w as [| | |[] m e]; try done. simpl.
  unfold py_float, bind in Ew. destruct (get_or_empty r "Influence"); [|done].
  by eapply float_of_text_exp.
Qed.

(** Both passes use the same inclusion rule. *)
Lemma global_step_qualifying (acc : accum) (r : row) :
  global_step acc r
  = match qualifying r with Some (w, v) => add_row acc w v | None => acc end.
Proof.
  unfold global_step, qualifying, weight_value, included, bind.
  destruct (py_float (get_or_empty r "Influence")) as [w|]; [|done].
  destruct (py_float (get_or_empty r "Approve")) as [v|]; [|done].
  by destruct (_ && _).
Qed.

Lemma rolling_acc_global (acc : accum) (r : row) :
  rolling_acc acc r = global_step acc r.
Proof.
  unfold rolling_acc, global_step, weight_value, bind.
  destruct (py_float (get_or_empty r "Influence")) as [w|]; [|done].
  destruct (py_float (get_or_empty r "Approve")) as [v|]; done.
Qed.

Lemma fold_global_step (rows : list row) (acc : accum) :
  fold_left global_step rows acc
  = (fold_left fadd (weights rows) (fst acc), fold_left fadd (products rows) (snd acc)).
Proof.
  revert acc. induction rows as [|r rows IH]; intros acc; simpl.
  - by destruct acc.
  - rewrite IH, global_step_qualifying. unfold weights, products. simpl.
    destruct (qualifying r) as [[w v]|]; done.
Qed.

(** The sums of a pass are the sums over the rows that count. *)
Lemma global_sums (rows : list row) :
  fold_left global_step rows (fzero, fzero) = (fsum (weights rows), fsum (products rows)).
Proof. apply fold_global_step. Qed.

Lemma weights_pos (rows : list row) : Forall (fun w => fpos w /\ isfinite w = true) (weights rows).
Proof.
  unfold weights. induction rows as [|r rows IH]; simpl; [constructor|].
  destruct (qualifying r) as [[w v]|] eqn:E; simpl; [|done].
  constructor; [|done]. by eapply qualifying_weight.
Qed.

Lemma fold_fadd_pos (ws : list float) (x : float) :
  Forall (fun w => fpos w /\ isfinite w = true) ws ->
  fpos x -> fpos (fold_left fadd ws x).
Proof.
  intros Hws. revert x. induction Hws as [|w ws [Hw Hf] _ IH]; intros x Hx; simpl; [done|].
  apply IH. apply fadd_pos; auto.
Qed.

(** The sum of the weights is zero when no row counts, and a positive
    number or plus infinity otherwise. *)
Lemma fsum_weights (rows : list row) :
  (weights rows = [] /\ fsum (weights rows) = fzero)
  \/ (weights rows <> [] /\ fpos (fsum (weights rows))).
Proof.
  pose proof (weights_pos rows) as Hws. unfold fsum.
  destruct (weights rows) as [|w ws]; [by left|right]. split; [done|].
  apply Forall_cons in Hws as [[Hw Hf] Hws]. cbn [fold_left].
  apply fold_fadd_pos; [done|]. apply fadd_pos; auto.
Qed.

Lemma fpos_ltb (x : float) : fpos x -> fltb fzero x = true.
Proof. by destruct x as [|[]| |[] m e]. Qed.

Lemma weights_nil (rows : list row) :
  weights rows = [] <-> Forall (fun r => qualifying r = None) rows.
Proof.
  unfold weights. induction rows as [|r rows IH]; simpl.
  - split; [constructor|done].
  - destruct (qualifying r) as [[w v]|] eqn:E; simpl.
    + split; [done|]. intros H. apply Forall_cons in H as [H _]. congruence.
    + rewrite IH. split; [by constructor|]. intros H. by apply Forall_cons in H as [_ H].
Qed.

Lemma weights_not_nil (rows : list row) :
  weights rows <> [] <-> Exists (fun r => qualifying r <> None) rows.
Proof.
  unfold weights. induction rows as [|r rows IH]; simpl.
  - split; [done|]. intros H. by apply Exists_nil in H.
  - rewrite Exists_cons. destruct (qualifying r) as [[w v]|] eqn:E; simpl.
    + split; [by left|done].
    + rewrite IH. split; [by right|]. intros [?|?]; done.
Qed.

Lemma ratio_sums (rows : list row) :
  ratio (fsum (weights rows), fsum (products rows))
  = Ok (match weights rows with
        | [] => None
        | _ => Some (fdiv (fsum (products rows)) (fsum (weights rows)))
        end).
Proof.
  rewrite ratio_ok. simpl fst. simpl snd.
  destruct (fsum_weights rows) as [[-> ->]|[Hne Hpos]]; [done|].
  rewrite (fpos_ltb _ Hpos). by destruct (weights rows).
Qed.

(** The global average is the quotient of the two sums over the rows that
    count, and undefined when no row counts. *)
Lemma weighted_approve_sums (rows : list row) :
  weighted_approve rows
  = Ok (match weights rows with
        | [] => None
        | _ => Some (fdiv (fsum (products rows)) (fsum (weights rows)))
        end).
Proof. unfold weighted_approve. rewrite global_sums. apply ratio_sums. Qed.

Lemma average_text_sums (rows : list row) :
  average_text rows
  = match weights rows with
    | [] => []
    | _ => format_5f (fdiv (fsum (products rows)) (fsum (weights rows)))
    end.
Proof.
  unfold average_text.
  destruct (fsum_weights rows) as [[-> ->]|[Hne Hpos]]; [done|].
  destruct (weights rows); [done|].
  by destruct (fsum _) as [|[]| |[] m e].
Qed.

Lemma rolling_text_sums (rows : list row) :
  rolling_text (fsum (weights rows), fsum (products rows)) = Ok (average_text rows).
Proof.
  unfold rolling_text. rewrite ratio_sums, average_text_sums. simpl.
  by destruct (weights rows).
Qed.

(** The rolling pass, from the accumulator a prefix [pre] left: every row
    gets the average of the rows up to and including itself. *)
Lemma rolling_from (pre rows : list row) :
  exists rs,
    rolling (fold_left global_step pre (fzero, fzero)) rows = Ok rs
    /\ length rs = length rows
    /\ forall i r, rows !! i = Some r ->
         rs !! i = Some (<["RollingWeightedApprove"%string :=
                            Some (average_text (pre ++ take (S i) rows))]> r).
Proof.
  revert pre. induction rows as [|r rows IH]; intros pre.
  - exists []. split_and!; try done.
  - cbn [rolling]. unfold rolling_step. rewrite rolling_acc_global.
    change (global_step (fold_left global_step pre (fzero, fzero)) r)
      with (fold_left global_step [r] (fold_left global_step pre (fzero, fzero))).
    rewrite <- fold_left_app.
    rewrite (global_sums (pre ++ [r])), rolling_text_sums. cbn [rbind fst snd].
    rewrite <- (global_sums (pre ++ [r])).
    destruct (IH (pre ++ [r])) as (rs & -> & Hlen & Hrs). cbn [rbind].
    eexists. split_and!; [done|by simpl; rewrite Hlen|].
    intros [|i] r' Hr'; simpl in Hr'.
    + simplify_eq. simpl. by rewrite take_0.
    + simpl. rewrite (Hrs i r' Hr'). do 3 f_equal.
      by rewrite <- app_assoc.
Qed.

(** ** The row pipeline keeps the weight and the value of a row *)

Lemma get_or_empty_setdefault (r : row) (k k' : string) :
  get_or_empty (setdefault r k) k' = get_or_empty r k'.
Proof.
  unfold setdefault, get_or_empty. destruct (r !! k) eqn:E; [done|].
  destruct (decide (k = k')) as [<-|Hne].
  - by rewrite lookup_insert_eq, E.
  - by rewrite lookup_insert_ne.
Qed.

Lemma get_or_empty_fold_setdefault (fields : list string) (r : row) (k' : string) :
  get_or_empty (fold_left setdefault fields r) k' = get_or_empty r k'.
Proof.
  revert r. induction fields as [|k fields IH]; intros r; simpl; [done|].
  by rewrite IH, get_or_empty_setdefault.
Qed.

Lemma get_or_empty_process_row (fields : list string) (r : row) (k : string) :
  k <> "Dates"%string -> k <> "Sponsor"%string -> k <> "Pollster"%string ->
  get_or_empty (process_row fields r) k = get_or_empty r k.
Proof.
  intros Hd Hs Hp. unfold process_row. rewrite get_or_empty_fold_setdefault.
  unfold get_or_empty.
  destruct (has_key r "Pollster"); destruct (has_key r "Dates");
    rewrite ?lookup_insert_ne by done; done.
Qed.

Lemma qualifying_process_row (fields : list string) (r : row) :
  qualifying (process_row fields r) = qualifying r.
Proof. unfold qualifying. by rewrite !get_or_empty_process_row. Qed.

Lemma sorted_rows_none (header : list string) (rows : list row) :
  Forall (fun r => qualifying r = None) rows ->
  Forall (fun r => qualifying r = None) (sorted_rows header rows).
Proof.
  intros H. unfold sorted_rows. rewrite sort_desc_perm.
  apply Forall_map. eapply Forall_impl; [exact H|].
  intros r Hr. simpl. by rewrite qualifying_process_row.
Qed.

Lemma sorted_rows_some (header : list string) (rows : list row) :
  Exists (fun r => qualifying r <> None) rows ->
  Exists (fun r => qualifying r <> None) (sorted_rows header rows).
Proof.
  intros H. unfold sorted_rows. rewrite sort_desc_perm.
  apply Exists_map. eapply Exists_impl; [exact H|].
  intros r Hr. simpl. by rewrite qualifying_process_row.
Qed.

(** C2. The rolling pass returns, row by row, each row with its
    "RollingWeightedApprove" cell set to the average over the rows up to and
    including it: the quotient of the running sums of weight times value and
    of weight over the rows whose two cells parse as finite numbers with a
    weight greater than zero, formatted to 5 decimal places, and the empty
    text while the running weight is zero. For the weights and values
    (2, 50), (3, 60), an invalid row, (1, 40) the rolling values are
    50.00000, 56.00000, 56.00000 and 53.33333. *)
Theorem rolling_pass (rows : list row) :
  (exists rs,
     rolling (fzero, fzero) rows = Ok rs
     /\ length rs = length rows
     /\ forall i r, rows !! i = Some r ->
          rs !! i = Some (<["RollingWeightedApprove"%string :=
                             Some (average_text (take (S i) rows))]> r))
  /\ (rs <- rolling (fzero, fzero)
               [weighted_row "2" "50"; weighted_row "3" "60"; weighted_row "n/a" "70";
                weighted_row "1" "40"] ;;;
      Ok (map rolling_value rs))
     = Ok [Some (Some (txt "50.00000")); Some (Some (txt "56.00000"));
           Some (Some (txt "56.00000")); Some (Some (txt "53.33333"))].
Proof.
  split.
  - apply (rolling_from [] rows).
  - vm_compute. reflexivity.
Qed.

(** C3. [main] returns whatever the weights are: the CSV file
    is written with one row for each input row and one line is printed.
    When no row counts for the average the line is the sentinel
    "Weighted Approve (by Influence): N/A (no valid rows)"; when a row
    counts, the line reports the quotient of the sum of weight times value
    and the sum of the weights, both summed in binary64 over the rows in
    sorted order, formatted to 5 decimal places. *)
Theorem global_average_report (header : list string) (rows : list row) :
  exists out,
    main header rows = Ok out
    /\ length (csv_rows out) = length rows
    /\ (Forall (fun r => qualifying r = None) rows -> stdout out = [report_na])
    /\ (Exists (fun r => qualifying r <> None) rows ->
        stdout out
        = [report_prefix
           ++ format_5f (fdiv (fsum (products (sorted_rows header rows)))
                              (fsum (weights (sorted_rows header rows))))]).
Proof.
  destruct (main_ok header rows) as (w & rs & Hw & _ & Hlen & ->).
  rewrite weighted_approve_sums in Hw.
  eexists. split_and!; [done| | |]; simpl.
  - rewrite length_map, Hlen. apply sorted_rows_length.
  - intros Hnone. apply (sorted_rows_none header) in Hnone. apply weights_nil in Hnone.
    rewrite Hnone in Hw. by simplify_eq.
  - intros Hsome. apply (sorted_rows_some header) in Hsome. apply weights_not_nil in Hsome.
    destruct (weights (sorted_rows header rows)) eqn:E; [done|]. by simplify_eq.
Qed.

(** C3, counterexample. The same three rows in two orders: the line
    printed reports 0.00000 for one order and 0.33333 for the other. With
    no row at all the line printed is the sentinel, whose text is
    "N/A (no valid rows)" behind the label. *)
Lemma global_average_counterexample :
  let a := weighted_row "1" "1e16" in
  let b := weighted_row "1" "1" in
  let c := weighted_row "1" "-1e16" in
  [a; b; c] ≡ₚ [a; c; b]
  /\ (out <- main ["Influence"; "Approve"]%string [a; b; c] ;;; Ok (stdout out))
     = Ok [txt "Weighted Approve (by Influence): 0.00000"]
  /\ (out <- main ["Influence"; "Approve"]%string [a; c; b] ;;; Ok (stdout out))
     = Ok [txt "Weighted Approve (by Influence): 0.33333"]
  /\ (out <- main ["Influence"; "Approve"]%string [] ;;; Ok (stdout out))
     = Ok [txt "Weighted Approve (by Influence): N/A (no valid rows)"].
Proof.
  intros a b c. split_and!.
  - apply perm_skip, perm_swap.
  - vm_compute. reflexivity.
  - vm_compute. reflexivity.
  - vm_compute. reflexivity.
Qed.

(** C9. When at least one row counts for the average, the global average
    is defined and the rolling value of the last row in sorted order is the
    global average formatted to 5 decimal places. *)
Theorem last_rolling_is_global (header : list string) (rows : list row) :
  Exists (fun r => qualifying r <> None) rows ->
  exists g rs r_last,
    weighted_approve (sorted_rows header rows) = Ok (Some g)
    /\ rolling (fzero, fzero) (sorted_rows header rows) = Ok rs
    /\ last rs = Some r_last
    /\ rolling_value r_last = Some (Some (format_5f g)).
Proof.
  intros Hsome. apply (sorted_rows_some header) in Hsome.
  set (sorted := sorted_rows header rows) in *.
  pose proof Hsome as Hne. apply weights_not_nil in Hne.
  destruct (rolling_from [] sorted) as (rs & Hrs & Hlen & Hget). simpl in Hrs, Hget.
  assert (Hpos : (0 < length sorted)%nat).
  { destruct sorted; [by apply Exists_nil in Hsome|simpl; lia]. }
  destruct (lookup_lt_is_Some_2 sorted (length sorted - 1)) as [r Hr]; [lia|].
  specialize (Hget _ _ Hr).
  replace (S (length sorted - 1)) with (length sorted) in Hget by lia.
  rewrite firstn_all in Hget.
  exists (fdiv (fsum (products sorted)) (fsum (weights sorted))), rs.
  eexists. split_and!.
  - rewrite weighted_approve_sums. by destruct (weights sorted).
  - done.
  - rewrite last_lookup, Hlen. replace (Nat.pred (length sorted)) with (length sorted - 1)%nat by lia.
    exact Hget.
  - unfold rolling_value. rewrite lookup_insert_eq. do 2 f_equal.
    rewrite average_text_sums. by destruct (weights sorted).
Qed.

Lemma last_rolling_is_global_witness :
  exists g rs r_last,
    weighted_approve
      (sorted_rows ["Influence"; "Approve"]%string
         [weighted_row "2" "50"; weighted_row "x" "60"]) = Ok (Some g)
    /\ rolling (fzero, fzero)
         (sorted_rows ["Influence"; "Approve"]%string
            [weighted_row "2" "50"; weighted_row "x" "60"]) = Ok rs
    /\ last rs = Some r_last
    /\ rolling_value r_last = Some (Some (format_5f g)).
Proof.
  apply (last_rolling_is_global ["Influence"; "Approve"]%string
           [weighted_row "2" "50"; weighted_row "x" "60"]).
  apply Exists_cons_hd. vm_compute. discriminate.
Defined.

(** ** The matcher against the specification of matching *)

Lemma run_forallb (p : ascii -> bool) (w rest : text) :
  forallb p w = true -> (length w <= run p (w ++ rest))%nat.
Proof.
  induction w as [|c w IH]; simpl; [lia|].
  intros [Hc Hw]%andb_prop. rewrite Hc. specialize (IH Hw). lia.
Qed.

Lemma forallb_firstn_run (p : ascii -> bool) (s : text) (n : nat) :
  (n <= run p s)%nat -> forallb p (firstn n s) = true.
Proof.
  revert n. induction s as [|c s IH]; intros [|n] Hn; simpl in *; try done.
  destruct (p c); [|lia]. simpl. apply IH. lia.
Qed.

Lemma run_length (p : ascii -> bool) (s : text) : (run p s <= length s)%nat.
Proof. induction s as [|c s IH]; simpl; [lia|]. destruct (p c); simpl; lia. Qed.

Lemma in_upto (lo hi n : nat) : In n (upto lo hi) <-> (lo <= n <= hi)%nat.
Proof. unfold upto. rewrite in_seq. lia. Qed.

Lemma in_counts (greedy : bool) (lo : nat) (hi : option nat) (avail n : nat) :
  In n (counts greedy lo hi avail)
  <-> (lo <= n <= avail)%nat /\ (forall h, hi = Some h -> (n <= h)%nat).
Proof.
  unfold counts. destruct greedy; rewrite <- ?in_rev, in_upto;
    destruct hi as [h|]; split.
  all: try (intros [? ?]; split; [lia|]; intros h' [= <-]; lia).
  all: try (intros [? Hh]; specialize (Hh h eq_refl); lia).
  all: try (intros ?; split; [lia|]; intros h' [=]).
  all: try (intros [? _]; lia).
Qed.

(** Every match the matcher lists is a match. *)
Lemma matches_sound (r : regex) (s : text) (g : groups) (rest : text) :
  In (g, rest) (matches r s) -> matches_at r s g rest.
Proof.
  revert s g rest. induction r as [|p|r1 IH1 r2 IH2|greedy lo hi p|n r IH|];
    intros s g rest Hin; simpl in Hin.
  - destruct Hin as [[= <- <-]|[]]. exists []. split; [done|constructor].
  - destruct s as [|c s]; [done|]. destruct (p c) eqn:Hc; [|done].
    destruct Hin as [[= <- <-]|[]]. exists [c]. split; [done|by constructor].
  - apply in_flat_map in Hin as ([g1 s1] & H1 & Hin).
    apply in_map_iff in Hin as ([g2 s2] & [= <- <-] & H2).
    destruct (IH1 _ _ _ H1) as (w1 & -> & Hm1).
    destruct (IH2 _ _ _ H2) as (w2 & -> & Hm2).
    exists (w1 ++ w2). split; [by rewrite <- app_assoc|by constructor].
  - apply in_map_iff in Hin as (n & [= <- <-] & Hn).
    apply in_counts in Hn as [[Hlo Hav] Hhi].
    pose proof (run_length p s) as Hlen.
    exists (firstn n s). split; [by rewrite firstn_skipn|].
    constructor.
    + by apply forallb_firstn_run.
    + rewrite length_firstn. lia.
    + intros h Hh. rewrite length_firstn. specialize (Hhi h Hh). lia.
  - apply in_map_iff in Hin as ([g1 s1] & [= <- <-] & H1).
    destruct (IH _ _ _ H1) as (w & -> & Hm).
    exists w. split; [done|].
    rewrite length_app. replace (length w + length s1 - length s1)%nat with (length w) by lia.
    rewrite firstn_app, firstn_all, Nat.sub_diag. simpl. rewrite app_nil_r.
    by constructor.
  - destruct s as [|c [|c' s]]; [| |done].
    + destruct Hin as [[= <- <-]|[]]. exists []. split; [done|]. constructor. by left.
    + destruct (Ascii.eqb c "010") eqn:Hc; [|done]. apply Ascii.eqb_eq in Hc as ->.
      destruct Hin as [[= <- <-]|[]]. exists []. split; [done|]. constructor. by right.
Qed.

(** Every match is among the matches the matcher lists. *)
Lemma matches_complete (r : regex) (w rest : text) (g : groups) :
  rmatch r w rest g -> In (g, rest) (matches r (w ++ rest)).
Proof.
  induction 1 as [rest|p c rest Hc|r1 r2 w1 w2 rest g1 g2 _ IH1 _ IH2
                 |greedy lo hi p w rest Hw Hlo Hhi|n r w rest g _ IH|rest Hrest]; simpl.
  - by left.
  - rewrite Hc. by left.
  - apply in_flat_map. exists (g1, w2 ++ rest). split; [by rewrite <- app_assoc|].
    apply in_map_iff. by exists (g2, rest).
  - apply in_map_iff. exists (length w). split.
    + by rewrite skipn_app, skipn_all, Nat.sub_diag.
    + apply in_counts. split; [|done]. split; [done|]. by apply run_forallb.
  - apply in_map_iff. exists (g, rest). split; [|done].
    rewrite length_app. replace (length w + length rest - length rest)%nat with (length w) by lia.
    by rewrite firstn_app, firstn_all, Nat.sub_diag, app_nil_r.
  - destruct Hrest as [->| ->]; simpl; by left.
Qed.

Lemma match_here_Some (r : regex) (s : text) (g : groups) (rest : text) :
  match_here r s = Some (g, rest) -> matches_at r s g rest.
Proof.
  unfold match_here. intros H. apply matches_sound.
  destruct (matches r s); [done|]. simpl in H. simplify_eq. by left.
Qed.

Lemma match_here_None (r : regex) (s : text) :
  match_here r s = None <-> forall g rest, ~ matches_at r s g rest.
Proof.
  unfold match_here. split.
  - intros H g rest (w & -> & Hm). apply matches_complete in Hm.
    by destruct (matches r (w ++ rest)).
  - intros H. destruct (matches r s) as [|[g rest] l] eqn:E; [done|].
    exfalso. apply (H g rest). apply matches_sound. rewrite E. by left.
Qed.

(** [search] finds the first match at the leftmost position that has one. *)
Lemma search_Some (r : regex) (s : text) (m : groups * text) :
  search r s = Some m <->
  exists pre suf,
    s = pre ++ suf /\ match_here r suf = Some m
    /\ forall p1 p2, pre = p1 ++ p2 -> p2 <> [] -> match_here r (p2 ++ suf) = None.
Proof.
  induction s as [|c s IH]; simpl.
  - destruct (match_here r []) eqn:E; split.
    + intros [= <-]. exists [], []. split_and!; try done.
      intros p1 p2 Hp. by destruct p1, p2.
    + intros (pre & suf & Hs & Hm & _). destruct pre, suf; try done. congruence.
    + done.
    + intros (pre & suf & Hs & Hm & _). destruct pre, suf; try done. congruence.
  - destruct (match_here r (c :: s)) eqn:E.
    + split.
      * intros [= <-]. exists [], (c :: s). split_and!; try done.
        intros p1 p2 Hp. by destruct p1, p2.
      * intros (pre & suf & Hs & Hm & Hearly). destruct pre as [|c' pre].
        -- simpl in Hs. subst suf. congruence.
        -- simpl in Hs. injection Hs as Hc Hs. subst c' s.
           specialize (Hearly [] (c :: pre) eq_refl ltac:(done)). simpl in Hearly.
           congruence.
    + rewrite IH. split.
      * intros (pre & suf & -> & Hm & Hearly). exists (c :: pre), suf. split_and!; try done.
        intros [|c' p1] p2 Hp Hne; simpl in Hp.
        -- subst p2. done.
        -- injection Hp as Hc Hp. subst c' pre. by apply (Hearly p1).
      * intros (pre & suf & Hs & Hm & Hearly). destruct pre as [|c' pre].
        -- simpl in Hs. subst suf. congruence.
        -- simpl in Hs. injection Hs as Hc Hs. subst c' s.
           exists pre, suf. split_and!; try done.
           intros p1 p2 -> Hne. apply (Hearly (c :: p1) p2); done.
Qed.

Lemma search_None (r : regex) (s : text) :
  search r s = None <-> forall pre suf, s = pre ++ suf -> match_here r suf = None.
Proof.
  induction s as [|c s IH]; simpl.
  - destruct (match_here r []) eqn:E; split; try done.
    + intros H. specialize (H [] [] eq_refl). congruence.
    + intros _ pre suf Hs. by destruct pre, suf.
  - destruct (match_here r (c :: s)) eqn:E.
    + split; [done|]. intros H. specialize (H [] (c :: s) eq_refl). congruence.
    + rewrite IH. split.
      * intros H [|c' pre] suf Hs; simpl in Hs; [by subst|].
        injection Hs as Hc Hs. subst c' s. by apply (H pre).
      * intros H pre suf ->. by apply (H (c :: pre)).
Qed.

(** ** Matches of the building blocks *)

Lemma rmatch_chr_inv (p : ascii -> bool) (w rest : text) (g : groups) :
  rmatch (Chr p) w rest g -> exists c, w = [c] /\ g = [] /\ p c = true.
Proof. inversion 1; subst. eauto. Qed.

Lemma rmatch_seq_inv (r1 r2 : regex) (w rest : text) (g : groups) :
  rmatch (Seq r1 r2) w rest g ->
  exists w1 w2 g1 g2,
    w = w1 ++ w2 /\ g = g1 ++ g2 /\ rmatch r1 w1 (w2 ++ rest) g1 /\ rmatch r2 w2 rest g2.
Proof. inversion 1; subst. eauto 10. Qed.

Lemma rmatch_rep_inv (greedy : bool) (lo : nat) (hi : option nat) (p : ascii -> bool)
    (w rest : text) (g : groups) :
  rmatch (Rep greedy lo hi p) w rest g ->
  g = [] /\ forallb p w = true /\ (lo <= length w)%nat
  /\ forall h, hi = Some h -> (length w <= h)%nat.
Proof. inversion 1; subst. eauto. Qed.

Lemma rmatch_grp_inv (n : nat) (r : regex) (w rest : text) (g : groups) :
  rmatch (Grp n r) w rest g -> exists g', g = (n, w) :: g' /\ rmatch r w rest g'.
Proof. inversion 1; subst. eauto. Qed.

Lemma rmatch_eps_inv (w rest : text) (g : groups) :
  rmatch Eps w rest g -> w = [] /\ g = [].
Proof. by inversion 1. Qed.

Lemma rmatch_eos_inv (w rest : text) (g : groups) :
  rmatch Eos w rest g -> w = [] /\ g = [] /\ (rest = [] \/ rest = ["010"%char]).
Proof. by inversion 1. Qed.

Lemma rmatch_star (p : ascii -> bool) (w rest : text) :
  forallb p w = true -> rmatch (star p) w rest [].
Proof. intros H. constructor; [done|lia|done]. Qed.

Lemma rmatch_plus (p : ascii -> bool) (w rest : text) :
  forallb p w = true -> w <> [] -> rmatch (plus p) w rest [].
Proof.
  intros H Hne. constructor; [done| |done]. destruct w; [done|simpl; lia].
Qed.

Lemma is_char_ci_spec (a c : ascii) : is_char_ci a c = true <-> lower c = lower a.
Proof. unfold is_char_ci. apply Ascii.eqb_eq. Qed.

Lemma is_char_spec (a c : ascii) : is_char a c = true <-> c = a.
Proof. unfold is_char. apply Ascii.eqb_eq. Qed.

Lemma not_char_spec (a c : ascii) : not_char a c = true <-> c <> a.
Proof.
  unfold not_char. rewrite negb_true_iff. split.
  - intros H ->. by rewrite Ascii.eqb_refl in H.
  - intros H. by apply Ascii.eqb_neq.
Qed.

(** A literal under [IGNORECASE] matches the texts that are equal to it up
    to case. *)
Lemma rmatch_lit_ci_inv (t w rest : text) (g : groups) :
  rmatch (lit_ci t) w rest g -> g = [] /\ same_ci w t.
Proof.
  revert w g. induction t as [|a t IH]; intros w g H; simpl in H.
  - by apply rmatch_eps_inv in H as [-> ->].
  - apply rmatch_seq_inv in H as (w1 & w2 & g1 & g2 & -> & -> & H1 & H2).
    apply rmatch_chr_inv in H1 as (c & -> & -> & Hc).
    apply IH in H2 as [-> Hw]. split; [done|].
    unfold same_ci in *. simpl. apply is_char_ci_spec in Hc. by rewrite Hc, Hw.
Qed.

Lemma rmatch_lit_ci (t w rest : text) :
  same_ci w t -> rmatch (lit_ci t) w rest [].
Proof.
  revert w. induction t as [|a t IH]; intros w Hw; unfold same_ci in Hw.
  - destruct w; [|done]. constructor.
  - destruct w as [|c w]; [done|]. simpl in Hw. injection Hw as Hc Hw.
    change (c :: w) with ([c] ++ w). change (@nil (nat * text)) with (@nil (nat * text) ++ []).
    simpl lit_ci. constructor.
    + constructor. by apply is_char_ci_spec.
    + by apply IH.
Qed.

Lemma same_ci_length (a b : text) : same_ci a b -> length a = length b.
Proof. unfold same_ci. intros H. by rewrite <- (length_map lower a), H, length_map. Qed.

(** ** Trimming *)

Lemma drop_while_app_all {A} (p : A -> bool) (l1 l2 : list A) :
  forallb p l1 = true -> drop_while p (l1 ++ l2) = drop_while p l2.
Proof.
  induction l1 as [|x l1 IH]; simpl; [done|].
  intros [Hx Hl]%andb_prop. rewrite Hx. by apply IH.
Qed.

Lemma strip_blank_prefix (ws s : text) : blank ws -> strip (ws ++ s) = strip s.
Proof. intros H. unfold strip, lstrip. by rewrite drop_while_app_all. Qed.

(** ** The sponsor pattern *)

Lemma sponsor_re_inv (s : text) (g : groups) (rest : text) :
  matches_at sponsor_re s g rest ->
  exists ws label ws2 content,
    s = "^"%char :: ws ++ label ++ ws2 ++ content ++ "^"%char :: rest
    /\ blank ws /\ same_ci label (txt "Sponsor:") /\ blank ws2
    /\ content <> [] /\ free_of "^" content
    /\ group 1 g = content.
Proof.
  intros (w & -> & H). unfold sponsor_re in H. cbn [seqs] in H.
  apply rmatch_seq_inv in H as (w1 & wa & g1 & ga & -> & -> & H1 & H).
  apply rmatch_chr_inv in H1 as (c & -> & -> & Hc). apply is_char_spec in Hc as ->.
  apply rmatch_seq_inv in H as (ws & wb & g2 & gb & -> & -> & H2 & H).
  apply rmatch_rep_inv in H2 as (-> & Hws & _).
  apply rmatch_seq_inv in H as (label & wc & g3 & gc & -> & -> & H3 & H).
  apply rmatch_lit_ci_inv in H3 as (-> & Hlabel).
  apply rmatch_seq_inv in H as (ws2 & wd & g4 & gd & -> & -> & H4 & H).
  apply rmatch_rep_inv in H4 as (-> & Hws2 & _).
  apply rmatch_seq_inv in H as (content & we & g5 & ge & -> & -> & H5 & H).
  apply rmatch_grp_inv in H5 as (g5' & -> & H5).
  apply rmatch_rep_inv in H5 as (-> & Hcontent & Hlen & _).
  apply rmatch_chr_inv in H as (c & -> & -> & Hc). apply is_char_spec in Hc as ->.
  exists ws, label, ws2, content. split_and!; try done.
  - simpl. by rewrite <- !app_assoc.
  - intros ->. simpl in Hlen. lia.
Qed.

Lemma blank_free_of_caret (ws : text) : blank ws -> free_of "^" ws.
Proof.
  unfold blank, free_of. rewrite !forallb_forall. intros H c Hc.
  specialize (H c Hc). apply not_char_spec. intros ->. done.
Qed.

Lemma free_of_app (c : ascii) (a b : text) :
  free_of c (a ++ b) <-> free_of c a /\ free_of c b.
Proof. unfold free_of. rewrite forallb_app. apply andb_true_iff. Qed.

Lemma sponsor_segment_matches (s body : text) :
  sponsor_segment s body -> exists g rest, matches_at sponsor_re s g rest.
Proof.
  intros (ws & label & rest & -> & Hws & Hlabel & Hne & Hbody).
  exists ([] ++ [] ++ [] ++ [] ++ ((1%nat, body) :: []) ++ []), rest.
  exists ("^"%char :: ws ++ label ++ body ++ ["^"%char]). split.
  - simpl. by rewrite <- !app_assoc.
  - unfold sponsor_re. cbn [seqs].
    change ("^"%char :: ws ++ label ++ body ++ ["^"%char])
      with (["^"%char] ++ ws ++ label ++ [] ++ body ++ ["^"%char]).
    constructor; [by constructor|].
    constructor; [by apply rmatch_star|].
    constructor; [by apply rmatch_lit_ci|].
    constructor; [by apply rmatch_star|].
    constructor; [|by constructor].
    constructor. by apply rmatch_plus.
Qed.

(** What a match of the sponsor pattern gives: a segment, and the trimmed
    group is the trimmed body of the segment. *)
Lemma sponsor_match_segment (s : text) (g : groups) (rest : text) :
  matches_at sponsor_re s g rest ->
  exists body, sponsor_segment s body /\ strip (group 1 g) = strip body.
Proof.
  intros H. apply sponsor_re_inv in H
    as (ws & label & ws2 & content & -> & Hws & Hlabel & Hws2 & Hne & Hc & Hg).
  exists (ws2 ++ content). split.
  - exists ws, label, rest. split_and!; try done.
    + by rewrite <- !app_assoc.
    + intros [-> ->]%app_eq_nil. done.
    + apply free_of_app. split; [by apply blank_free_of_caret|done].
  - rewrite Hg. by rewrite strip_blank_prefix.
Qed.

(** The sponsor extractor returns the trimmed body of the leftmost sponsor
    segment, and the empty text when there is none. *)
Lemma extract_sponsor_spec (s : text) :
  (exists body, first_sponsor s body /\ extract_sponsor (Some s) = strip body)
  \/ (no_sponsor s /\ extract_sponsor (Some s) = []).
Proof.
  unfold extract_sponsor. destruct (search sponsor_re s) as [[g rest]|] eqn:E.
  - left. apply search_Some in E as (pre & suf & -> & Hm & Hearly).
    apply match_here_Some in Hm.
    apply sponsor_match_segment in Hm as (body & Hseg & Hstrip).
    exists body. split; [|done]. exists pre, suf. split_and!; try done.
    intros p1 p2 b Hp Hne Hseg'.
    apply sponsor_segment_matches in Hseg' as (g' & rest' & Hm').
    specialize (Hearly p1 p2 Hp Hne). rewrite match_here_None in Hearly.
    by apply Hearly in Hm'.
  - right. split; [|done]. intros pre suf body -> Hseg.
    rewrite search_None in E. specialize (E pre suf eq_refl).
    rewrite match_here_None in E.
    apply sponsor_segment_matches in Hseg as (g' & rest' & Hm'). by apply E in Hm'.
Qed.

(** ** Splitting a text in one way only *)

Lemma run_unique (p : ascii -> bool) (a x a' x' : text) :
  a ++ x = a' ++ x' ->
  forallb p a = true -> forallb p a' = true -> stops p x -> stops p x' ->
  a = a' /\ x = x'.
Proof.
  revert a'. induction a as [|c a IH]; intros [|c' a'] Heq Ha Ha' Hx Hx'; simpl in *.
  - done.
  - subst x. simpl in Hx. apply andb_prop in Ha' as [Hc _]. congruence.
  - subst x'. simpl in Hx'. apply andb_prop in Ha as [Hc _]. congruence.
  - injection Heq as -> Heq.
    apply andb_prop in Ha as [_ Ha]. apply andb_prop in Ha' as [_ Ha'].
    destruct (IH a' Heq Ha Ha' Hx Hx') as [-> ->]. done.
Qed.

Lemma until_unique (c : ascii) (a r a' r' : text) :
  a ++ c :: r = a' ++ c :: r' -> free_of c a -> free_of c a' -> a = a' /\ r = r'.
Proof.
  intros Heq Ha Ha'.
  destruct (run_unique (not_char c) a (c :: r) a' (c :: r') Heq Ha Ha') as [-> Hr].
  - simpl. unfold not_char. by rewrite Ascii.eqb_refl.
  - simpl. unfold not_char. by rewrite Ascii.eqb_refl.
  - by injection Hr as ->.
Qed.

Lemma length_unique {A} (a x a' x' : list A) :
  a ++ x = a' ++ x' -> length a = length a' -> a = a' /\ x = x'.
Proof. intros Heq Hlen. by apply app_inj_1. Qed.

Lemma lower_S_not_space (d : ascii) : lower d = lower "S" -> is_space d = false.
Proof.
  destruct d as [[] [] [] [] [] [] [] []]; vm_compute; intros; congruence.
Qed.

(** A text starts with at most one sponsor segment. *)
Lemma sponsor_segment_unique (s b b' : text) :
  sponsor_segment s b -> sponsor_segment s b' -> b = b'.
Proof.
  intros (ws & label & rest & -> & Hws & Hlabel & Hne & Hb)
         (ws' & label' & rest' & Heq & Hws' & Hlabel' & Hne' & Hb').
  injection Heq as Heq.
  assert (Hstop : forall l x, same_ci l (txt "Sponsor:") -> stops is_space (l ++ x)).
  { intros l x Hl. destruct l as [|d l]; [done|].
    unfold same_ci in Hl. simpl in Hl. injection Hl as Hd _. simpl.
    by apply lower_S_not_space. }
  destruct (run_unique is_space _ _ _ _ Heq Hws Hws') as [-> Heq2]; [by apply Hstop..|].
  destruct (length_unique _ _ _ _ Heq2) as [-> Heq3].
  { by rewrite (same_ci_length _ _ Hlabel), (same_ci_length _ _ Hlabel'). }
  by destruct (until_unique _ _ _ _ _ Heq3 Hb Hb') as [-> _].
Qed.

Lemma prefix_cases {A} (pre suf pre' suf' : list A) :
  pre ++ suf = pre' ++ suf' ->
  pre = pre'
  \/ (exists p2, p2 <> [] /\ pre' = pre ++ p2 /\ suf = p2 ++ suf')
  \/ (exists p2, p2 <> [] /\ pre = pre' ++ p2 /\ suf' = p2 ++ suf).
Proof.
  revert pre'. induction pre as [|x pre IH]; intros [|x' pre'] Heq; simpl in *.
  - by left.
  - right; left. exists (x' :: pre'). by subst.
  - right; right. exists (x :: pre). by subst.
  - injection Heq as -> Heq. destruct (IH pre' Heq) as [->|[(p2 & ? & -> & ->)|(p2 & ? & -> & ->)]].
    + by left.
    + right; left. by exists p2.
    + right; right. by exists p2.
Qed.

(** The leftmost sponsor segment has one body. *)
Lemma first_sponsor_unique (s b b' : text) :
  first_sponsor s b -> first_sponsor s b' -> b = b'.
Proof.
  intros (pre & suf & -> & Hseg & Hearly) (pre' & suf' & Heq & Hseg' & Hearly').
  destruct (prefix_cases _ _ _ _ Heq) as [->|[(p2 & Hne & -> & ->)|(p2 & Hne & -> & ->)]].
  - apply app_inv_head in Heq as ->. by eapply sponsor_segment_unique.
  - exfalso. by apply (Hearly' pre p2 b).
  - exfalso. by apply (Hearly pre' p2 b').
Qed.

(** ** The sponsor cell of a processed row *)

Lemma setdefault_lookup (r : row) (k k' : string) (v : option text) :
  r !! k = Some v -> setdefault r k' !! k = Some v.
Proof.
  intros H. unfold setdefault. destruct (r !! k') eqn:E; [done|].
  rewrite lookup_insert_ne; [done|]. intros ->. congruence.
Qed.

Lemma fold_setdefault_lookup (fields : list string) (r : row) (k : string) (v : option text) :
  r !! k = Some v -> fold_left setdefault fields r !! k = Some v.
Proof.
  revert r. induction fields as [|k' fields IH]; intros r H; simpl; [done|].
  apply IH. by apply setdefault_lookup.
Qed.

Lemma process_row_sponsor (fields : list string) (r : row) :
  process_row fields r !! "Sponsor"%string
  = Some (Some (extract_sponsor (get r "Pollster"))).
Proof.
  unfold process_row. apply fold_setdefault_lookup.
  destruct (has_key r "Pollster").
  - rewrite lookup_insert_ne by done. apply lookup_insert_eq.
  - apply lookup_insert_eq.
Qed.

(** C6. The "Sponsor" cell of an output row is the sponsor
    extracted from the raw "Pollster" cell of the input row. The extractor
    returns the trimmed body of the leftmost sponsor segment of the text: a
    caret, optional whitespace, the label "Sponsor:" in any case with its
    colon directly behind it, and a non-empty body up to the next caret
    (whitespace after the colon is part of the body and is trimmed). It
    returns the empty text when there is no such segment and for an absent
    cell. The body of the leftmost segment is unique. *)
Theorem sponsor_from_raw_pollster (fields : list string) (r : row) :
  process_row fields r !! "Sponsor"%string
  = Some (Some (extract_sponsor (get r "Pollster")))
  /\ extract_sponsor None = []
  /\ (forall s,
        (exists body, first_sponsor s body /\ extract_sponsor (Some s) = strip body)
        \/ (no_sponsor s /\ extract_sponsor (Some s) = []))
  /\ (forall s b b', first_sponsor s b -> first_sponsor s b' -> b = b').
Proof.
  split_and!.
  - apply process_row_sponsor.
  - done.
  - apply extract_sponsor_spec.
  - apply first_sponsor_unique.
Qed.

(** C6, counterexample. With whitespace between the label and the colon
    the extractor finds no sponsor. *)
Lemma sponsor_counterexample :
  loose_sponsor_segment (txt "^Sponsor : ABC^") (txt "ABC")
  /\ extract_sponsor (Some (txt "^Sponsor : ABC^")) = [].
Proof.
  split.
  - exists [], (txt "Sponsor"), [" "%char], [" "%char], [].
    split_and!; by vm_compute.
  - vm_compute. reflexivity.
Qed.

(** ** Heads of lists of matches *)

Lemma hd_error_map {A B} (f : A -> B) (l : list A) :
  hd_error (map f l) = option_map f (hd_error l).
Proof. by destruct l. Qed.

Lemma flat_map_nil {A B} (f : A -> list B) (l : list A) :
  (forall x, In x l -> f x = []) -> flat_map f l = [].
Proof.
  induction l as [|x l IH]; simpl; [done|]. intros H.
  rewrite (H x) by by left. apply IH. intros y Hy. apply H. by right.
Qed.

Lemma flat_map_ext_in {A B} (f g : A -> list B) (l : list A) :
  (forall x, In x l -> f x = g x) -> flat_map f l = flat_map g l.
Proof.
  induction l as [|x l IH]; simpl; [done|]. intros H.
  rewrite (H x) by by left. rewrite IH; [done|]. intros y Hy. apply H. by right.
Qed.

Lemma map_groups_id (l : list (groups * text)) :
  map (fun '(g2, s2) => (g2, s2)) l = l.
Proof. induction l as [|[g x] l IH]; simpl; [done|]. by rewrite IH. Qed.

(** A character and then a pattern. *)
Lemma matches_chr_seq (p : ascii -> bool) (r : regex) (s : text) :
  matches (Seq (Chr p) r) s
  = match s with
    | c :: s' => if p c then matches r s' else []
    | [] => []
    end.
Proof.
  simpl. destruct s as [|c s']; [done|]. destruct (p c); [|done].
  simpl. by rewrite map_groups_id, app_nil_r.
Qed.

Lemma skipn_run (p : ascii -> bool) (s : text) : skipn (run p s) s = drop_while p s.
Proof. induction s as [|c s IH]; simpl; [done|]. by destruct (p c). Qed.

Lemma skipn_before_run (p : ascii -> bool) (s : text) (n : nat) :
  (n < run p s)%nat -> exists c s', skipn n s = c :: s' /\ p c = true.
Proof.
  revert n. induction s as [|c s IH]; intros n Hn; simpl in Hn; [lia|].
  destruct (p c) eqn:Hc; [|lia]. destruct n as [|n].
  - by exists c, s.
  - simpl. apply IH. lia.
Qed.

(** A repetition and then a pattern: the matches of the pattern behind each
    count of repetitions, in the order the counts are tried. *)
Lemma matches_rep_seq (greedy : bool) (lo : nat) (hi : option nat) (p : ascii -> bool)
    (r : regex) (s : text) :
  matches (Seq (Rep greedy lo hi p) r) s
  = flat_map (fun n => matches r (skipn n s)) (counts greedy lo hi (run p s)).
Proof.
  cbn [matches]. rewrite flat_map_concat_map, map_map, <- flat_map_concat_map.
  apply flat_map_ext. intros n. cbn [app]. apply map_groups_id.
Qed.

(** A greedy star and then a pattern that cannot start with a character of
    the class of the star: the star takes the whole run. *)
Lemma matches_star_seq (p : ascii -> bool) (r : regex) (s : text) :
  (forall c s', p c = true -> matches r (c :: s') = []) ->
  matches (Seq (star p) r) s = matches r (drop_while p s).
Proof.
  intros Hr. unfold star. rewrite matches_rep_seq. unfold counts, upto.
  rewrite Nat.sub_0_r, seq_S, rev_app_distr. cbn [rev app flat_map Nat.add].
  rewrite skipn_run.
  rewrite flat_map_nil; [by rewrite app_nil_r|].
  intros n Hn. apply in_rev, in_seq in Hn.
  destruct (skipn_before_run p s n) as (c & s' & -> & Hc); [lia|].
  by rewrite Hr.
Qed.

(** A group around a lazy star of any character and then a pattern: the
    matches of the pattern at each position, from left to right. *)
Lemma matches_lazy_seq (g : nat) (r : regex) (s : text) :
  matches (Seq (Grp g (lazy_star any_char)) r) s
  = flat_map (fun n => map (fun '(g2, s2) => ((g, firstn n s) :: g2, s2))
                           (matches r (skipn n s)))
             (seq 0 (S (length s))).
Proof.
  assert (Hrun : run any_char s = length s).
  { induction s as [|c s IH]; simpl; [done|]. by rewrite IH. }
  unfold lazy_star. cbn [matches]. unfold counts, upto. rewrite Hrun, Nat.sub_0_r.
  rewrite !map_map. rewrite flat_map_concat_map, map_map, <- flat_map_concat_map.
  apply flat_map_ext_in. intros n Hn. apply in_seq in Hn.
  rewrite length_skipn.
  replace (length s - (length s - n))%nat with n by lia. done.
Qed.

Lemma hd_flat_map_seq {B} (F : nat -> list B) (a k : nat) (x : B) :
  hd_error (flat_map F (seq a k)) = Some x ->
  exists n, (a <= n < a + k)%nat /\ hd_error (F n) = Some x
            /\ forall m, (a <= m < n)%nat -> F m = [].
Proof.
  revert a. induction k as [|k IH]; intros a; simpl; [done|].
  destruct (F a) as [|y l] eqn:E; simpl.
  - intros H. destruct (IH _ H) as (n & Hn & Hx & Hm).
    exists n. split; [lia|]. split; [done|].
    intros m Hm'. destruct (decide (m = a)) as [->|]; [done|]. apply Hm. lia.
  - intros [= ->]. exists a. split; [lia|]. split; [by rewrite E|]. intros m Hm. lia.
Qed.

(** Brings both sides of an equation between concatenations to the
    right-nested form. *)
Ltac norm_app := repeat (progress (simpl; rewrite <- ?app_assoc)); try done.

(** ** The anchor pattern *)

Lemma lower_a (a : ascii) : is_char_ci "a" a = true <-> lower a = "a"%char.
Proof. apply is_char_ci_spec. Qed.

Lemma anchor_re_inv (s : text) (g : groups) (rest : text) :
  matches_at anchor_re s g rest ->
  exists a attrs inner close,
    s = "<"%char :: a :: attrs ++ ">"%char :: inner ++ close ++ rest
    /\ lower a = "a"%char /\ free_of ">" attrs /\ same_ci close (txt "</a>")
    /\ group 1 g = inner.
Proof.
  intros (w & -> & H). unfold anchor_re in H. cbn [seqs] in H.
  apply rmatch_seq_inv in H as (w1 & wa & g1 & ga & -> & -> & H1 & H).
  apply rmatch_chr_inv in H1 as (c & -> & -> & Hc). apply is_char_spec in Hc as ->.
  apply rmatch_seq_inv in H as (w2 & wb & g2 & gb & -> & -> & H2 & H).
  apply rmatch_chr_inv in H2 as (a & -> & -> & Ha). apply lower_a in Ha.
  apply rmatch_seq_inv in H as (attrs & wc & g3 & gc & -> & -> & H3 & H).
  apply rmatch_rep_inv in H3 as (-> & Hattrs & _).
  apply rmatch_seq_inv in H as (w4 & wd & g4 & gd & -> & -> & H4 & H).
  apply rmatch_chr_inv in H4 as (c & -> & -> & Hc). apply is_char_spec in Hc as ->.
  apply rmatch_seq_inv in H as (inner & close & g5 & ge & -> & -> & H5 & H).
  apply rmatch_grp_inv in H5 as (g5' & -> & H5).
  apply rmatch_rep_inv in H5 as (-> & _).
  apply rmatch_lit_ci_inv in H as (-> & Hclose).
  exists a, attrs, inner, close. split_and!; try done. norm_app.
Qed.

Lemma forallb_any (s : text) : forallb any_char s = true.
Proof. by induction s. Qed.

Lemma anchor_span_matches (s inner : text) :
  anchor_span s inner ->
  exists g rest, matches_at anchor_re s g rest /\ group 1 g = inner.
Proof.
  intros (a & attrs & close & rest & -> & Ha & Hattrs & Hclose).
  exists ([] ++ [] ++ [] ++ [] ++ ((1%nat, inner) :: []) ++ []), rest.
  split; [|done].
  exists ("<"%char :: a :: attrs ++ ">"%char :: inner ++ close). split.
  - norm_app.
  - unfold anchor_re. cbn [seqs].
    change ("<"%char :: a :: attrs ++ ">"%char :: inner ++ close)
      with (["<"%char] ++ [a] ++ attrs ++ [">"%char] ++ inner ++ close).
    constructor; [by constructor|].
    constructor; [constructor; by apply lower_a|].
    constructor; [by apply rmatch_star|].
    constructor; [by constructor|].
    constructor; [|by apply rmatch_lit_ci].
    constructor. constructor; [apply forallb_any|lia|done].
Qed.

Lemma anchor_re_unfold (s : text) :
  matches anchor_re s
  = match s with
    | "<"%char :: a :: t =>
        if is_char_ci "a" a then
          match drop_while (not_char ">") t with
          | ">"%char :: u => matches anchor_tail u
          | _ => []
          end
        else []
    | _ => []
    end.
Proof.
  unfold anchor_re. cbn [seqs]. rewrite matches_chr_seq.
  destruct s as [|c s]; [done|]. unfold is_char at 1.
  destruct (Ascii.eqb_spec c "<") as [->|Hc]; [|by destruct c as [[] [] [] [] [] [] [] []]].
  rewrite matches_chr_seq. destruct s as [|a t]; [done|].
  destruct (is_char_ci "a" a); [|done].
  rewrite matches_star_seq.
  - rewrite matches_chr_seq. destruct (drop_while _ t) as [|c u]; [done|].
    unfold is_char. destruct (Ascii.eqb_spec c ">") as [->|Hc]; [done|].
    by destruct c as [[] [] [] [] [] [] [] []].
  - intros c s' Hc. rewrite matches_chr_seq. unfold not_char in Hc. unfold is_char.
    by destruct (Ascii.eqb c ">").
Qed.

(** The first match behind the opening tag ends at the first closing tag. *)
Lemma anchor_tail_head (u : text) (g : groups) (rest : text) :
  hd_error (matches anchor_tail u) = Some (g, rest) ->
  exists n,
    (n <= length u)%nat /\ group 1 g = firstn n u
    /\ forall m close rest', (m < n)%nat -> skipn m u = close ++ rest' ->
                             ~ same_ci close (txt "</a>").
Proof.
  unfold anchor_tail. rewrite matches_lazy_seq. intros H.
  apply hd_flat_map_seq in H as (n & Hn & Hhd & Hmin).
  exists n. split; [lia|]. split.
  - rewrite hd_error_map in Hhd. revert Hhd.
    match goal with
    | |- context [@hd_error ?A ?l] => destruct (@hd_error A l) as [[g2 s2]|]
    end; simpl; [|done].
    by intros [= <- <-].
  - intros m close rest' Hm Hsplit Hci.
    specialize (Hmin m ltac:(lia)).
    apply (rmatch_lit_ci _ _ rest') in Hci. apply matches_complete in Hci.
    rewrite <- Hsplit in Hci. revert Hmin Hci.
    match goal with
    | |- context [map _ ?l] => destruct l; [done|discriminate]
    end.
Qed.

Lemma drop_while_until (c : ascii) (a r : text) :
  free_of c a -> drop_while (not_char c) (a ++ c :: r) = c :: r.
Proof.
  intros Ha. unfold free_of in Ha. rewrite drop_while_app_all by done.
  simpl. unfold not_char. by rewrite Ascii.eqb_refl.
Qed.

(** The first match of the anchor pattern has the shortest inner text. *)
Lemma anchor_first_close (s : text) (g : groups) (rest : text) (i : text) :
  match_here anchor_re s = Some (g, rest) -> anchor_span s i ->
  (length (group 1 g) <= length i)%nat.
Proof.
  unfold match_here. rewrite anchor_re_unfold.
  intros Hm (a & attrs & close & rest' & -> & Ha & Hattrs & Hclose).
  apply lower_a in Ha. rewrite Ha in Hm. rewrite drop_while_until in Hm by done.
  apply anchor_tail_head in Hm as (n & Hn & -> & Hmin).
  rewrite length_firstn.
  destruct (le_lt_dec n (length i)) as [|Hlt]; [lia|].
  exfalso. apply (Hmin (length i) close rest' Hlt); [|done].
  by rewrite skipn_app, skipn_all, Nat.sub_diag.
Qed.

(** The pollster extractor on a text with an anchor span. *)
Lemma search_anchor_Some (s : text) (g : groups) (rest : text) :
  search anchor_re s = Some (g, rest) -> first_anchor s (group 1 g).
Proof.
  intros E. apply search_Some in E as (pre & suf & -> & Hm & Hearly).
  pose proof (match_here_Some _ _ _ _ Hm) as Hat.
  apply anchor_re_inv in Hat as (a & attrs & inner & close & Hsuf & Ha & Hattrs & Hclose & Hg).
  exists pre, suf. split_and!; try done.
  - rewrite Hg. by exists a, attrs, close, rest.
  - intros p1 p2 i Hp Hne Hspan.
    apply anchor_span_matches in Hspan as (g' & rest' & Hm' & _).
    specialize (Hearly p1 p2 Hp Hne). rewrite match_here_None in Hearly.
    by apply Hearly in Hm'.
  - intros i Hi. by eapply anchor_first_close.
Qed.

Lemma search_anchor_None (s : text) : search anchor_re s = None -> no_anchor s.
Proof.
  intros E pre suf inner -> Hspan.
  rewrite search_None in E. specialize (E pre suf eq_refl).
  rewrite match_here_None in E.
  apply anchor_span_matches in Hspan as (g' & rest' & Hm' & _). by apply E in Hm'.
Qed.

(** ** The text before the first caret *)

Lemma contains_split (c : ascii) (s : text) :
  contains c s = true ->
  exists h t, s = h ++ c :: t /\ free_of c h /\ take_while (not_char c) s = h.
Proof.
  induction s as [|x s IH]; simpl; [done|].
  destruct (Ascii.eqb_spec c x) as [->|Hne]; simpl.
  - intros _. exists [], s. unfold not_char. by rewrite Ascii.eqb_refl.
  - intros H. destruct (IH H) as (h & t & -> & Hh & Ht).
    assert (Hx : not_char c x = true) by (apply not_char_spec; congruence).
    exists (x :: h), t. rewrite Hx. split_and!; [done| |by rewrite Ht].
    unfold free_of. simpl. by rewrite Hx.
Qed.

Lemma contains_false (c : ascii) (s : text) : contains c s = false -> free_of c s.
Proof.
  unfold free_of. induction s as [|x s IH]; simpl; [done|].
  intros [Hx Hs]%orb_false_elim. rewrite (IH Hs), andb_true_r.
  apply not_char_spec. intros ->. by rewrite Ascii.eqb_refl in Hx.
Qed.

(** ** Removing the angle-bracket spans *)

Lemma tag_re_inv (s : text) (g : groups) (rest : text) :
  matches_at tag_re s g rest -> tag_span s rest.
Proof.
  intros (w & -> & H). unfold tag_re in H. cbn [seqs] in H.
  apply rmatch_seq_inv in H as (w1 & wa & g1 & ga & -> & -> & H1 & H).
  apply rmatch_chr_inv in H1 as (c & -> & -> & Hc). apply is_char_spec in Hc as ->.
  apply rmatch_seq_inv in H as (body & wb & g2 & gb & -> & -> & H2 & H).
  apply rmatch_rep_inv in H2 as (-> & Hbody & Hlen & _).
  apply rmatch_chr_inv in H as (c & -> & -> & Hc). apply is_char_spec in Hc as ->.
  exists body. split_and!; try done; [norm_app|].
  intros ->. simpl in Hlen. lia.
Qed.

Lemma tag_span_matches (s rest : text) :
  tag_span s rest -> exists g, matches_at tag_re s g rest.
Proof.
  intros (body & -> & Hne & Hbody).
  exists ([] ++ [] ++ []), ("<"%char :: body ++ [">"%char]). split; [norm_app|].
  unfold tag_re. cbn [seqs].
  change ("<"%char :: body ++ [">"%char]) with (["<"%char] ++ body ++ [">"%char]).
  constructor; [by constructor|].
  constructor; [by apply rmatch_plus|by constructor].
Qed.

Lemma sub_empty_skip (r : regex) (k : nat) (s : text) :
  sub_empty_from r k s = sub_empty_from r 0 (skipn k s).
Proof.
  revert k. induction s as [|c s IH]; intros [|k]; simpl; done.
Qed.

Lemma tag_span_length (s rest : text) : tag_span s rest -> (length rest < length s)%nat.
Proof. intros (body & -> & _). simpl. rewrite length_app. simpl. lia. Qed.

Lemma sub_empty_tag_step (c : ascii) (s : text) :
  (exists rest, tag_span (c :: s) rest
                /\ sub_empty tag_re (c :: s) = sub_empty tag_re rest)
  \/ ((forall rest, ~ tag_span (c :: s) rest)
      /\ sub_empty tag_re (c :: s) = c :: sub_empty tag_re s).
Proof.
  unfold sub_empty. simpl. destruct (match_here tag_re (c :: s)) as [[g rest]|] eqn:E.
  - left. apply match_here_Some in E. apply tag_re_inv in E.
    exists rest. split; [done|]. rewrite sub_empty_skip. f_equal.
    destruct E as (body & Heq & _). injection Heq as -> ->.
    rewrite length_app. simpl.
    replace (length body + S (length rest) - length rest)%nat with (length (body ++ [">"%char]))
      by (rewrite length_app; simpl; lia).
    rewrite (cons_middle ">"%char body rest), app_assoc.
    by rewrite skipn_app, skipn_all, Nat.sub_diag.
  - right. split; [|done]. intros rest Hspan.
    rewrite match_here_None in E.
    apply tag_span_matches in Hspan as (g & Hm). by apply E in Hm.
Qed.

(** [re.sub] with the tag pattern removes the angle-bracket spans. *)
Lemma sub_empty_tag (s : text) : spans_removed s (sub_empty tag_re s).
Proof.
  induction s as [s IH] using (induction_ltof1 _ (@length ascii)).
  unfold ltof in IH. destruct s as [|c s].
  - constructor.
  - destruct (sub_empty_tag_step c s) as [(rest & Hspan & ->)|(Hno & ->)].
    + eapply sr_span; [exact Hspan|]. apply IH. by apply tag_span_length.
    + apply sr_keep; [done|]. apply IH. simpl. lia.
Qed.

(** The specification of the pollster extractor determines its result. *)
Lemma first_anchor_unique (s i i' : text) :
  first_anchor s i -> first_anchor s i' -> i = i'.
Proof.
  intros (pre & suf & -> & Hspan & Hearly & Hmin) (pre' & suf' & Heq & Hspan' & Hearly' & Hmin').
  destruct (prefix_cases _ _ _ _ Heq) as [->|[(p2 & Hne & -> & ->)|(p2 & Hne & -> & ->)]].
  - apply app_inv_head in Heq as ->.
    pose proof (Hmin _ Hspan') as H1. pose proof (Hmin' _ Hspan) as H2.
    destruct Hspan as (a & attrs & close & rest & -> & _ & Hattrs & _).
    destruct Hspan' as (a' & attrs' & close' & rest' & Heq' & _ & Hattrs' & _).
    injection Heq' as _ Heq'.
    destruct (until_unique _ _ _ _ _ Heq' Hattrs Hattrs') as [_ Heq2].
    apply length_unique in Heq2 as [? _]; [done|lia].
  - exfalso. by apply (Hearly' pre p2 i).
  - exfalso. by apply (Hearly pre' p2 i').
Qed.

Lemma tag_span_unique (s rest rest' : text) :
  tag_span s rest -> tag_span s rest' -> rest = rest'.
Proof.
  intros (body & -> & _ & Hb) (body' & Heq & _ & Hb'). injection Heq as Heq.
  by destruct (until_unique _ _ _ _ _ Heq Hb Hb') as [_ ->].
Qed.

Lemma spans_removed_unique (s out out' : text) :
  spans_removed s out -> spans_removed s out' -> out = out'.
Proof.
  intros H. revert out'. induction H as [|s rest out Hspan _ IH|c s out Hno _ IH]; intros out' H'.
  - inversion H' as [|s' rest' o' Hspan'|]; subst; [done|].
    by destruct Hspan' as (body & ? & _).
  - inversion H' as [|s' rest' o' Hspan' Hrest'|c' s' o' Hno' Hrest']; subst.
    + by destruct Hspan as (body & ? & _).
    + rewrite <- (tag_span_unique _ _ _ Hspan Hspan') in Hrest'. by apply IH.
    + by apply Hno' in Hspan.
  - inversion H' as [|s' rest' o' Hspan' Hrest'|c' s' o' Hno' Hrest']; subst.
    + by apply Hno in Hspan'.
    + f_equal. by apply IH.
Qed.

(** C7. The pollster extractor returns a text: the empty text for an absent
    cell; the trimmed inner text of the first anchor span if the text has
    one; else, if the text has a caret, the trimmed text before the first
    caret; else the trimmed text without its angle-bracket spans. The
    inner text of the first anchor span and the text without its spans are
    unique. The cell "<a href='x'>Quinnipiac</a>^Sponsor: ABC^" gives the
    pollster "Quinnipiac" and the sponsor "ABC". *)
Theorem extract_pollster_spec :
  extract_pollster None = []
  /\ (forall s,
        (exists inner, first_anchor s inner /\ extract_pollster (Some s) = strip inner)
        \/ (no_anchor s
            /\ exists h t, s = h ++ "^"%char :: t /\ free_of "^" h
                           /\ extract_pollster (Some s) = strip h)
        \/ (no_anchor s /\ free_of "^" s
            /\ exists out, spans_removed s out /\ extract_pollster (Some s) = strip out))
  /\ (forall s i i', first_anchor s i -> first_anchor s i' -> i = i')
  /\ (forall s out out', spans_removed s out -> spans_removed s out' -> out = out')
  /\ extract_pollster (Some (txt "<a href='x'>Quinnipiac</a>^Sponsor: ABC^"))
     = txt "Quinnipiac"
  /\ extract_sponsor (Some (txt "<a href='x'>Quinnipiac</a>^Sponsor: ABC^")) = txt "ABC".
Proof.
  split_and!; [done| |apply first_anchor_unique|apply spans_removed_unique
              |vm_compute; reflexivity|vm_compute; reflexivity].
  intros s. unfold extract_pollster.
  destruct (search anchor_re s) as [[g rest]|] eqn:E.
  - left. exists (group 1 g). split; [|done]. by eapply search_anchor_Some.
  - apply search_anchor_None in E. right.
    destruct (contains "^" s) eqn:Ec.
    + left. split; [done|].
      apply contains_split in Ec as (h & t & Hs & Hh & Ht).
      exists h, t. unfold split1_head. by rewrite Ht.
    + right. split_and!; [done|by apply contains_false|].
      exists (sub_empty tag_re s). split; [apply sub_empty_tag|done].
Qed.

(** ** The calendar *)

Lemma is_leap_spec (y : Z) :
  is_leap y = true <-> y mod 4 = 0 /\ (y mod 100 <> 0 \/ y mod 400 = 0).
Proof.
  unfold is_leap. rewrite andb_true_iff, orb_true_iff, negb_true_iff, !Z.eqb_eq, Z.eqb_neq.
  done.
Qed.

Lemma days_before_year_succ (y : Z) :
  days_before_year (y + 1) = days_before_year y + 365 + (if is_leap y then 1 else 0).
Proof.
  unfold days_before_year.
  replace (y + 1 - 1) with y by lia.
  destruct (is_leap y) eqn:E.
  - apply is_leap_spec in E. Z.to_euclidean_division_equations. lia.
  - assert (Hn : ~ (y mod 4 = 0 /\ (y mod 100 <> 0 \/ y mod 400 = 0))).
    { rewrite <- is_leap_spec. congruence. }
    Z.to_euclidean_division_equations. lia.
Qed.

Lemma month_day_ok_spec (leapyear : bool) (n : nat) (r : Z) :
  month_day_ok leapyear n = true -> 0 <= r < Z.of_nat n ->
  let '(m, d) := month_day leapyear r in
  1 <= m <= 12
  /\ 1 <= d <= (if (m =? 2) && leapyear then 29 else nth (Z.to_nat m) DAYS_IN_MONTH 0)
  /\ nth (Z.to_nat m) DAYS_BEFORE_MONTH 0 + (if (2 <? m) && leapyear then 1 else 0) + d
     = r + 1.
Proof.
  induction n as [|n IH]; [lia|]. cbn [month_day_ok]. intros Hok Hr.
  destruct (decide (r = Z.of_nat n)) as [->|Hne].
  - destruct (month_day leapyear (Z.of_nat n)) as [m d].
    repeat (apply andb_prop in Hok as [Hok ?]). lia.
  - destruct (month_day leapyear (Z.of_nat n)) as [m d].
    apply andb_prop in Hok as [_ Hok]. apply IH; [done|lia].
Qed.

Lemma month_day_year (leapyear : bool) :
  month_day_ok leapyear 365 = true.
Proof. destruct leapyear; vm_compute; reflexivity. Qed.

(** The leap flag that [date.fromordinal] computes is the leap year rule. *)
Lemma leap_flag (a b c e : Z) :
  0 <= b <= 3 -> 0 <= c <= 24 -> 0 <= e <= 3 ->
  is_leap (a * 400 + 1 + b * 100 + c * 4 + e)
  = (e =? 3) && (negb (c =? 24) || (b =? 3)).
Proof.
  intros Hb Hc He. apply eq_true_iff_eq.
  rewrite is_leap_spec, andb_true_iff, orb_true_iff, negb_true_iff, !Z.eqb_eq, Z.eqb_neq.
  Z.to_euclidean_division_equations. lia.
Qed.

Lemma days_before_year_cycles (a b c e : Z) :
  0 <= b <= 3 -> 0 <= c <= 24 -> 0 <= e <= 3 ->
  days_before_year (a * 400 + 1 + b * 100 + c * 4 + e)
  = a * DI400Y + b * DI100Y + c * DI4Y + e * 365.
Proof.
  intros Hb Hc He. unfold days_before_year, DI400Y, DI100Y, DI4Y.
  Z.to_euclidean_division_equations. lia.
Qed.

(** [date.fromordinal] gives a date of the calendar, and the date with the
    given ordinal. *)
Lemma ord2ymd_toordinal (k : Z) :
  1 <= k <= MAXORDINAL ->
  valid_date (ord2ymd k) /\ toordinal (ord2ymd k) = k.
Proof.
  intros Hk. unfold ord2ymd, MAXORDINAL in *.
  set (n := k - 1).
  set (n400 := n / DI400Y). set (r400 := n mod DI400Y).
  set (n100 := r400 / DI100Y). set (r100 := r400 mod DI100Y).
  set (n4 := r100 / DI4Y). set (r4 := r100 mod DI4Y).
  set (n1 := r4 / 365). set (r1 := r4 mod 365).
  assert (Hn : n = n400 * DI400Y + n100 * DI100Y + n4 * DI4Y + n1 * 365 + r1
               /\ 0 <= n400 <= 24 /\ 0 <= n100 <= 4 /\ 0 <= n4 <= 24 /\ 0 <= n1 <= 4
               /\ 0 <= r1 < 365
               /\ (n100 = 4 -> n4 = 0 /\ n1 = 0 /\ r1 = 0)
               /\ (n1 = 4 -> r1 = 0 /\ n4 <= 23)).
  { subst n400 r400 n100 r100 n4 r4 n1 r1. unfold DI400Y, DI100Y, DI4Y.
    Z.to_euclidean_division_equations. lia. }
  destruct Hn as (Hn & H400 & H100 & H4 & H1 & Hr1 & Hc100 & Hc1).
  assert (Hkn : k = n + 1) by (subst n; lia).
  clearbody n n400 r400 n100 r100 n4 r4 n1 r1.
  destruct ((n1 =? 4) || (n100 =? 4)) eqn:Elast.
  - apply orb_prop in Elast. rewrite !Z.eqb_eq in Elast.
    assert (Hleap : is_leap (n400 * 400 + 1 + n100 * 100 + n4 * 4 + n1 - 1) = true).
    { apply is_leap_spec. Z.to_euclidean_division_equations. lia. }
    unfold valid_date, toordinal, ymd2ord, days_in_month, days_before_month. simpl year. simpl month. simpl day.
    rewrite Hleap. simpl.
    unfold days_before_year, DI400Y, DI100Y, DI4Y in *.
    Z.to_euclidean_division_equations. lia.
  - apply orb_false_elim in Elast as [E1 E100]. rewrite Z.eqb_neq in E1, E100.
    rewrite <- (leap_flag n400 n100 n4 n1) by lia.
    set (y := n400 * 400 + 1 + n100 * 100 + n4 * 4 + n1).
    pose proof (month_day_ok_spec (is_leap y) 365 r1 (month_day_year _) ltac:(lia)) as Hmd.
    pose proof (days_before_year_cycles n400 n100 n4 n1 ltac:(lia) ltac:(lia) ltac:(lia)) as Hdby.
    fold y in Hdby. unfold month_day in Hmd. revert Hmd.
    match goal with
    | |- context [if ?c then _ else _] =>
        match c with (r1 <? _) => destruct c end
    end; intros Hmd.
    + unfold valid_date, toordinal, ymd2ord, days_in_month, days_before_month.
      cbn [year month day]. unfold DI400Y, DI100Y, DI4Y in *. lia.
    + unfold valid_date, toordinal, ymd2ord, days_in_month, days_before_month.
      cbn [year month day]. unfold DI400Y, DI100Y, DI4Y in *. lia.
Qed.

(** Case analysis on a month. *)
Ltac months m :=
  let H := fresh in
  assert (H : m = 1 \/ m = 2 \/ m = 3 \/ m = 4 \/ m = 5 \/ m = 6
              \/ m = 7 \/ m = 8 \/ m = 9 \/ m = 10 \/ m = 11 \/ m = 12) by lia;
  repeat destruct H as [H|H]; subst m.

Lemma month_follows (y m : Z) :
  1 <= m < 12 ->
  days_before_month y (m + 1) = days_before_month y m + days_in_month y m.
Proof.
  intros Hm. unfold days_before_month, days_in_month.
  months m; try lia; destruct (is_leap y); reflexivity.
Qed.

Lemma month_length (y m : Z) : 1 <= m <= 12 -> 28 <= days_in_month y m <= 31.
Proof.
  intros Hm. unfold days_in_month. months m; destruct (is_leap y); simpl; lia.
Qed.

Lemma day_of_year (y m d : Z) :
  1 <= m <= 12 -> 1 <= d <= days_in_month y m ->
  1 <= days_before_month y m + d <= 365 + (if is_leap y then 1 else 0).
Proof.
  intros Hm. unfold days_before_month, days_in_month.
  months m; destruct (is_leap y); simpl; lia.
Qed.

Lemma month_before (y m1 m2 : Z) :
  1 <= m1 -> m1 < m2 -> m2 <= 12 ->
  days_before_month y m1 + days_in_month y m1 <= days_before_month y m2.
Proof.
  intros H1 H12 H2. unfold days_before_month, days_in_month.
  months m1; months m2; try lia; destruct (is_leap y); simpl; lia.
Qed.

Lemma days_before_year_mono (y1 y2 : Z) :
  y1 <= y2 -> days_before_year y1 <= days_before_year y2.
Proof. intros H. unfold days_before_year. Z.to_euclidean_division_equations. lia. Qed.

Lemma toordinal_year (d1 d2 : date) :
  valid_date d1 -> valid_date d2 -> year d1 < year d2 -> toordinal d1 < toordinal d2.
Proof.
  intros (_ & Hm1 & Hd1) (_ & Hm2 & Hd2) Hy. unfold toordinal, ymd2ord.
  pose proof (day_of_year _ _ _ Hm1 Hd1). pose proof (day_of_year _ _ _ Hm2 Hd2).
  pose proof (days_before_year_succ (year d1)).
  pose proof (days_before_year_mono (year d1 + 1) (year d2) ltac:(lia)). lia.
Qed.

(** Two dates of the calendar with the same ordinal are the same date. *)
Lemma toordinal_inj (d1 d2 : date) :
  valid_date d1 -> valid_date d2 -> toordinal d1 = toordinal d2 -> d1 = d2.
Proof.
  intros V1 V2 Heq.
  assert (Hy : year d1 = year d2).
  { destruct (Z.lt_trichotomy (year d1) (year d2)) as [H|[H|H]]; [|done|].
    - pose proof (toordinal_year _ _ V1 V2 H). lia.
    - pose proof (toordinal_year _ _ V2 V1 H). lia. }
  destruct d1 as [y1 m1 dd1], d2 as [y2 m2 dd2]. simpl in Hy. subst y2.
  destruct V1 as (_ & Hm1 & Hd1), V2 as (_ & Hm2 & Hd2).
  unfold toordinal, ymd2ord in Heq. simpl in *.
  assert (Hm : m1 = m2).
  { destruct (Z.lt_trichotomy m1 m2) as [H|[H|H]]; [|done|].
    - pose proof (month_before y1 m1 m2 ltac:(lia) H ltac:(lia)). lia.
    - pose proof (month_before y1 m2 m1 ltac:(lia) H ltac:(lia)). lia. }
  subst m2. f_equal. lia.
Qed.

Lemma toordinal_tomorrow (d : date) :
  valid_date d -> toordinal (tomorrow d) = toordinal d + 1.
Proof.
  intros (Hy & Hm & Hd). unfold tomorrow, toordinal, ymd2ord.
  destruct (day d <? _) eqn:E1; cbn [year month day]; [lia|].
  apply Z.ltb_ge in E1.
  destruct (month d <? 12) eqn:E2; cbn [year month day].
  - apply Z.ltb_lt in E2. rewrite month_follows by lia. lia.
  - apply Z.ltb_ge in E2. assert (Hm12 : month d = 12) by lia.
    rewrite days_before_year_succ. rewrite Hm12 in *.
    unfold days_before_month, days_in_month in *. simpl in *.
    destruct (is_leap (year d)); simpl; lia.
Qed.

Lemma toordinal_max (d : date) : valid_date d -> toordinal d <= MAXORDINAL.
Proof.
  intros (Hy & Hm & Hd). unfold toordinal, ymd2ord.
  pose proof (day_of_year _ _ _ Hm Hd).
  pose proof (days_before_year_succ (year d)).
  pose proof (days_before_year_mono (year d + 1) 10000 ltac:(lia)) as Hmax.
  change (days_before_year 10000) with MAXORDINAL in Hmax. lia.
Qed.

Lemma tomorrow_valid (d : date) :
  valid_date d -> toordinal d < MAXORDINAL -> valid_date (tomorrow d).
Proof.
  intros (Hy & Hm & Hd) Hlt. unfold tomorrow, valid_date.
  destruct (day d <? _) eqn:E1; cbn [year month day].
  - apply Z.ltb_lt in E1. lia.
  - apply Z.ltb_ge in E1. destruct (month d <? 12) eqn:E2; cbn [year month day].
    + apply Z.ltb_lt in E2. pose proof (month_length (year d) (month d + 1)). lia.
    + apply Z.ltb_ge in E2. pose proof (month_length (year d + 1) 1).
      assert (year d <> 9999); [|lia]. intros E.
      unfold toordinal, ymd2ord in Hlt. rewrite E in *.
      assert (Hm12 : month d = 12) by lia. rewrite Hm12 in *.
      change (days_in_month 9999 12) with 31 in *.
      change (days_before_year 9999 + days_before_month 9999 12) with 3652028 in Hlt.
      unfold MAXORDINAL in Hlt. lia.
Qed.

(** The day after the date with ordinal [k] is the date with ordinal
    [k + 1]. *)
Lemma ord2ymd_succ (k : Z) :
  1 <= k < MAXORDINAL -> ord2ymd (k + 1) = tomorrow (ord2ymd k).
Proof.
  intros Hk.
  destruct (ord2ymd_toordinal k) as [V Hord]; [lia|].
  destruct (ord2ymd_toordinal (k + 1)) as [V' Hord']; [lia|].
  apply toordinal_inj; [done| |].
  - apply tomorrow_valid; [done|lia].
  - rewrite toordinal_tomorrow by done. lia.
Qed.

(** Adding days to a date with [date.fromordinal] gives the date that many
    days after it. *)
Lemma ord2ymd_days_after (d : date) (n : nat) :
  valid_date d -> toordinal d + Z.of_nat n <= MAXORDINAL ->
  ord2ymd (toordinal d + Z.of_nat n) = days_after n d
  /\ valid_date (days_after n d).
Proof.
  intros V. induction n as [|n IH]; intros Hmax.
  - simpl. rewrite Z.add_0_r. split; [|done].
    apply toordinal_inj; [|done|].
    + apply ord2ymd_toordinal. pose proof (toordinal_max d V).
      destruct V as (Hy & Hm & Hd). unfold toordinal, ymd2ord in *.
      pose proof (day_of_year _ _ _ Hm Hd).
      pose proof (days_before_year_mono 1 (year d) ltac:(lia)) as H1.
      change (days_before_year 1) with 0 in H1. lia.
    + apply ord2ymd_toordinal. pose proof (toordinal_max d V).
      destruct V as (Hy & Hm & Hd). unfold toordinal, ymd2ord in *.
      pose proof (day_of_year _ _ _ Hm Hd).
      pose proof (days_before_year_mono 1 (year d) ltac:(lia)) as H1.
      change (days_before_year 1) with 0 in H1. lia.
  - destruct IH as [IH IHv]; [lia|].
    replace (toordinal d + Z.of_nat (S n)) with (toordinal d + Z.of_nat n + 1) by lia.
    assert (Hlow : 1 <= toordinal d).
    { destruct V as (Hy & Hm & Hd). unfold toordinal, ymd2ord in *.
      pose proof (day_of_year _ _ _ Hm Hd).
      pose proof (days_before_year_mono 1 (year d) ltac:(lia)) as H1.
      change (days_before_year 1) with 0 in H1. lia. }
    rewrite ord2ymd_succ by lia. rewrite IH. split; [done|].
    change (days_after (S n) d) with (tomorrow (days_after n d)).
    apply tomorrow_valid; [done|].
    rewrite <- IH. destruct (ord2ymd_toordinal (toordinal d + Z.of_nat n)) as [_ ->]; lia.
Qed.

(** ** Numbers and their digits *)

Lemma is_digit_not_space (c : ascii) : is_digit c = true -> is_space c = false.
Proof. destruct c as [[] [] [] [] [] [] [] []]; vm_compute; congruence. Qed.

Lemma drop_while_stops {A} (p : A -> bool) (l : list A) :
  match l with [] => True | x :: _ => p x = false end -> drop_while p l = l.
Proof. destruct l as [|x l]; simpl; [done|]. by intros ->. Qed.

Lemma is_digit_not_num_space (c : ascii) : is_digit c = true -> is_num_space c = false.
Proof. destruct c as [[] [] [] [] [] [] [] []]; vm_compute; congruence. Qed.

(** A text without whitespace at its ends is its own trimmed form. *)
Lemma strip_id (s : text) :
  stops is_space s -> stops is_space (rev s) -> strip s = s.
Proof.
  intros H1 H2. unfold strip, lstrip, rstrip.
  rewrite (drop_while_stops is_space s) by done.
  rewrite (drop_while_stops is_space (rev s)) by done. apply rev_involutive.
Qed.

Lemma num_strip_id (s : text) :
  stops is_num_space s -> stops is_num_space (rev s) -> num_strip s = s.
Proof.
  intros H1 H2. unfold num_strip.
  rewrite (drop_while_stops is_num_space s) by done.
  rewrite (drop_while_stops is_num_space (rev s)) by done. apply rev_involutive.
Qed.

Lemma digits_stops_num_space (ds x : text) :
  digits ds -> ds <> [] -> stops is_num_space (ds ++ x).
Proof.
  destruct ds as [|c ds]; [done|]. intros [Hc _]%andb_prop _. simpl.
  by apply is_digit_not_num_space.
Qed.

Lemma digits_stops_space (ds x : text) : digits ds -> ds <> [] -> stops is_space (ds ++ x).
Proof.
  destruct ds as [|c ds]; [done|]. intros [Hc _]%andb_prop _. simpl.
  by apply is_digit_not_space.
Qed.

Lemma digits_rev (ds : text) : digits ds -> digits (rev ds).
Proof.
  unfold digits. rewrite !forallb_forall. intros H c Hc. apply H. by apply in_rev.
Qed.

Lemma digits_app (a b : text) : digits (a ++ b) <-> digits a /\ digits b.
Proof. unfold digits. rewrite forallb_app. apply andb_true_iff. Qed.

Lemma int_body_digits (ds : text) :
  digits ds -> int_body ds true = Some ds.
Proof.
  induction ds as [|c ds IH]; simpl; [done|].
  intros [Hc Hds]%andb_prop. rewrite Hc, IH by done. done.
Qed.

(** The separators FS..US are removed by [str.strip] and not skipped by
    [int] and [float]; NBSP is skipped by the three. *)
Lemma separators_not_skipped :
  strip [ascii_of_N 31; "4"%char] = ["4"%char]
  /\ py_int [ascii_of_N 31; "4"%char] = None
  /\ float_of_text [ascii_of_N 31; "4"%char] = None
  /\ py_int [ascii_of_N 160; "4"%char] = Some 4
  /\ float_of_text [ascii_of_N 160; "4"%char; ascii_of_N 133]
     = Some (S754_finite false 4503599627370496 (-50)).
Proof. split_and!; vm_compute; reflexivity. Qed.

(** [int] of a run of digits. *)
Lemma py_int_digits (ds : text) :
  digits ds -> ds <> [] ->
  py_int ds
  = if (length ds <=? int_max_str_digits)%nat then Some (decimal ds) else None.
Proof.
  intros Hds Hne. unfold py_int.
  rewrite num_strip_id.
  - destruct ds as [|c ds]; [done|]. pose proof Hds as Hds'.
    apply andb_prop in Hds' as [Hc Hrest].
    assert (Hbody : int_body (c :: ds) false = Some (c :: ds)).
    { simpl. rewrite Hc. by rewrite int_body_digits. }
    destruct c as [[] [] [] [] [] [] [] []]; try discriminate Hc; by rewrite Hbody.
  - rewrite <- (app_nil_r ds). by apply digits_stops_num_space.
  - rewrite <- (app_nil_r (rev ds)). apply digits_stops_num_space; [by apply digits_rev|].
    intros H. apply (f_equal (@rev ascii)) in H. rewrite rev_involutive in H. done.
Qed.

Lemma digit_val_range (c : ascii) : is_digit c = true -> 0 <= digit_val c <= 9.
Proof.
  unfold is_digit, digit_val. intros [H1 H2]%andb_prop.
  apply N.leb_le in H1, H2. lia.
Qed.

Lemma decimal_from_nonneg (ds : text) (a : Z) :
  digits ds -> 0 <= a -> 0 <= fold_left (fun x c => 10 * x + digit_val c) ds a.
Proof.
  revert a. induction ds as [|c ds IH]; intros a Hds Ha; simpl; [done|].
  apply andb_prop in Hds as [Hc Hds]. pose proof (digit_val_range c Hc).
  apply IH; [done|lia].
Qed.

Lemma decimal_nonneg (ds : text) : digits ds -> 0 <= decimal ds.
Proof. intros H. by apply decimal_from_nonneg. Qed.

(** ** The text of a date *)

Lemma digit_char_spec (n : Z) :
  is_digit (digit_char n) = true /\ digit_val (digit_char n) = n mod 10.
Proof.
  unfold digit_char. pose proof (Z.mod_pos_bound n 10 ltac:(lia)) as Hr.
  set (r := n mod 10) in *.
  assert (H : r = 0 \/ r = 1 \/ r = 2 \/ r = 3 \/ r = 4 \/ r = 5 \/ r = 6 \/ r = 7
              \/ r = 8 \/ r = 9) by lia.
  repeat destruct H as [H|H]; rewrite H; by vm_compute.
Qed.

Lemma decimal_2 (a b : ascii) : decimal [a; b] = 10 * digit_val a + digit_val b.
Proof. unfold decimal. simpl. lia. Qed.

Lemma decimal_4 (a b c d : ascii) :
  decimal [a; b; c; d] = 1000 * digit_val a + 100 * digit_val b + 10 * digit_val c + digit_val d.
Proof. unfold decimal. simpl. lia. Qed.

(** ** The digits of a number *)

Lemma uint_chars_acc (d : Decimal.uint) (acc : positive) :
  fold_left (fun a c => 10 * a + digit_val c)
    (list_ascii_of_string (NilEmpty.string_of_uint d)) (Zpos acc)
  = Zpos (Pos.of_uint_acc d acc).
Proof.
  revert acc. induction d as [|d IH|d IH|d IH|d IH|d IH|d IH|d IH|d IH|d IH|d IH];
    intros acc; cbn [NilEmpty.string_of_uint list_ascii_of_string fold_left Pos.of_uint_acc];
    [done|rewrite <- IH; f_equal; vm_compute digit_val; lia..].
Qed.

Lemma uint_chars_val (d : Decimal.uint) :
  decimal (list_ascii_of_string (NilEmpty.string_of_uint d)) = Z.of_N (Pos.of_uint d).
Proof.
  unfold decimal.
  induction d as [|d IH|d IH|d IH|d IH|d IH|d IH|d IH|d IH|d IH|d IH];
    cbn [NilEmpty.string_of_uint list_ascii_of_string fold_left Pos.of_uint];
    [done|exact IH|(simpl Z.of_N; rewrite <- uint_chars_acc; f_equal)..].
Qed.

Lemma uint_chars_digits (d : Decimal.uint) :
  digits (list_ascii_of_string (NilEmpty.string_of_uint d)).
Proof.
  unfold digits.
  induction d as [|d IH|d IH|d IH|d IH|d IH|d IH|d IH|d IH|d IH|d IH];
    cbn [NilEmpty.string_of_uint list_ascii_of_string forallb]; [done|by rewrite IH..].
Qed.

(** The digits of a natural number spell the number. *)
Lemma digits_of_spec (n : Z) :
  0 <= n -> digits (digits_of n) /\ digits_of n <> [] /\ decimal (digits_of n) = n.
Proof.
  intros Hn. unfold digits_of.
  assert (Hnil : N.to_uint (Z.to_N n) <> Decimal.Nil).
  { destruct (Z.to_N n); simpl; [done|apply DecimalPos.Unsigned.to_uint_nonnil ]. }
  assert (Hs : NilZero.string_of_uint (N.to_uint (Z.to_N n))
               = NilEmpty.string_of_uint (N.to_uint (Z.to_N n))).
  { by destruct (N.to_uint (Z.to_N n)). }
  rewrite Hs. split_and!.
  - apply uint_chars_digits.
  - by destruct (N.to_uint (Z.to_N n)).
  - rewrite uint_chars_val.
    change (Pos.of_uint (N.to_uint (Z.to_N n))) with (N.of_uint (N.to_uint (Z.to_N n))).
    rewrite DecimalN.Unsigned.of_to. by apply Z2N.id.
Qed.

Lemma decimal_app (a b : text) :
  decimal (a ++ b) = decimal a * 10 ^ Z.of_nat (length b) + decimal b.
Proof.
  unfold decimal. rewrite fold_left_app. generalize (fold_left (fun a c => 10 * a + digit_val c) a 0).
  induction b as [|c b IH]; intros x.
  - simpl. lia.
  - cbn [fold_left length]. rewrite IH, (IH (10 * 0 + digit_val c)).
    rewrite Nat2Z.inj_succ, Z.pow_succ_r by lia. lia.
Qed.

Lemma nzhead_head (d : Decimal.uint) :
  match Decimal.nzhead d with Decimal.D0 _ => False | _ => True end.
Proof. induction d; simpl; done. Qed.

(** The digits of a positive number do not start with a zero. *)
Lemma digits_of_leading (n : Z) : 1 <= n -> no_leading_zero (digits_of n).
Proof.
  intros Hn. unfold digits_of, no_leading_zero.
  assert (Hpos : Z.to_N n <> 0%N) by lia.
  pose proof (DecimalN.Unsigned.to_of (N.to_uint (Z.to_N n))) as Hnorm.
  rewrite DecimalN.Unsigned.of_to in Hnorm.
  pose proof (DecimalN.Unsigned.of_to (Z.to_N n)) as Hback.
  pose proof (nzhead_head (N.to_uint (Z.to_N n))) as Hhead.
  unfold Decimal.unorm in Hnorm.
  destruct (Decimal.nzhead (N.to_uint (Z.to_N n))) eqn:E; try done;
    rewrite Hnorm in *; done.
Qed.

(** A run of digits without a leading zero spells a number of that many
    digits. *)
Lemma decimal_lower (c : ascii) (ds : text) :
  digits (c :: ds) -> c <> "0"%char -> 10 ^ Z.of_nat (length ds) <= decimal (c :: ds).
Proof.
  intros Hd Hc. apply (digits_app [c] ds) in Hd as [Hc' Hds].
  change (c :: ds) with ([c] ++ ds). rewrite decimal_app.
  pose proof (decimal_nonneg ds Hds).
  assert (Hv : 1 <= decimal [c]).
  { unfold decimal. simpl. unfold digits in Hc'. simpl in Hc'.
    rewrite andb_true_r in Hc'.
    destruct c as [[] [] [] [] [] [] [] []]; try discriminate Hc'; try done; vm_compute;
      discriminate. }
  assert (0 < 10 ^ Z.of_nat (length ds)) by (apply Z.pow_pos_nonneg; lia). nia.
Qed.

Lemma digits_of_length (n : Z) : 1 <= n <= 9999 -> (1 <= length (digits_of n) <= 4)%nat.
Proof.
  intros Hn. destruct (digits_of_spec n ltac:(lia)) as (Hd & Hne & Hv).
  pose proof (digits_of_leading n ltac:(lia)) as Hl.
  destruct (digits_of n) as [|c ds]; [done|]. simpl. split; [lia|].
  assert (Hc : c <> "0"%char).
  { intros ->. vm_compute in Hl. discriminate Hl. }
  pose proof (decimal_lower c ds Hd Hc) as Hlow.
  destruct (le_lt_dec (length ds) 3) as [|Hbig]; [lia|]. exfalso.
  assert (10 ^ 4 <= 10 ^ Z.of_nat (length ds)) by (apply Z.pow_le_mono_r; lia).
  lia.
Qed.

(** [strftime] writes a date of the calendar as its year without padding,
    its month and its day. *)
Lemma strftime_ymd_text (d : date) : valid_date d -> ymd_text d (strftime_ymd d).
Proof.
  intros (Hy & Hm & Hd). pose proof (month_length (year d) (month d) Hm) as Hlen.
  unfold strftime_ymd.
  destruct (digits_of_spec (year d) ltac:(lia)) as (Hdy & _ & Hvy).
  exists (digits_of (year d)),
         [digit_char (month d / 10); digit_char (month d)],
         [digit_char (day d / 10); digit_char (day d)].
  split; [done|]. split; [done|].
  split; [apply digits_of_length; lia|].
  split; [apply digits_of_leading; lia|].
  split; [|split; [done|]; split; [|split; [done|]; split; [done|]]].
  - unfold digits. cbn [forallb].
    destruct (digit_char_spec (month d / 10)) as [-> _].
    by destruct (digit_char_spec (month d)) as [-> _].
  - unfold digits. cbn [forallb].
    destruct (digit_char_spec (day d / 10)) as [-> _].
    by destruct (digit_char_spec (day d)) as [-> _].
  - rewrite !decimal_2.
    destruct (digit_char_spec (month d / 10)) as [_ ->].
    destruct (digit_char_spec (month d)) as [_ ->].
    destruct (digit_char_spec (day d / 10)) as [_ ->].
    destruct (digit_char_spec (day d)) as [_ ->].
    split; Z.to_euclidean_division_equations; lia.
Qed.

(** ** The text behind the last "@" *)

Lemma rsplit1_spec (c : ascii) (s : text) :
  match rsplit1 c s with
  | (h, Some tail) => s = h ++ c :: tail /\ free_of c tail
  | (h, None) => h = s /\ free_of c s
  end.
Proof.
  induction s as [|x s IH]; simpl; [done|].
  destruct (rsplit1 c s) as [h [tail|]].
  - destruct IH as [-> Hfree]. done.
  - destruct IH as [-> Hfree]. destruct (Ascii.eqb_spec x c) as [->|Hne].
    + done.
    + split; [done|]. unfold free_of. simpl. rewrite Hfree, andb_true_r.
      by apply not_char_spec.
Qed.

Lemma free_of_rev (c : ascii) (s : text) : free_of c s -> free_of c (rev s).
Proof.
  unfold free_of. rewrite !forallb_forall. intros H x Hx. apply H. by apply in_rev.
Qed.

Lemma after_last_at_unique (s t t' : text) :
  after_last_at s t -> after_last_at s t' -> t = t'.
Proof.
  intros (h & -> & Ht) (h' & Heq & Ht').
  apply (f_equal (@rev ascii)) in Heq. rewrite !rev_app_distr in Heq. simpl in Heq.
  rewrite <- !app_assoc in Heq. simpl in Heq.
  apply until_unique in Heq as [Heq _]; [|by apply free_of_rev..].
  apply (f_equal (@rev ascii)) in Heq. by rewrite !rev_involutive in Heq.
Qed.

Lemma free_of_not_in (c : ascii) (h t : text) : free_of c (h ++ c :: t) -> False.
Proof.
  intros H. apply free_of_app in H as [_ H]. unfold free_of in H. simpl in H.
  unfold not_char in H. by rewrite Ascii.eqb_refl in H.
Qed.

(** What [rsplit] finds when the text contains an "@". *)
Lemma rsplit1_at (s : text) :
  if contains "@" s then
    exists h tail, rsplit1 "@" s = (h, Some tail) /\ after_last_at s tail
  else forall tail, ~ after_last_at s tail.
Proof.
  pose proof (rsplit1_spec "@" s) as H.
  destruct (contains "@" s) eqn:Ec.
  - destruct (rsplit1 "@" s) as [h [tail|]].
    + destruct H as [-> Hfree]. exists h, tail. split; [done|]. by exists h.
    + destruct H as [_ Hfree]. apply contains_split in Ec as (h' & t' & -> & _).
      by apply free_of_not_in in Hfree.
  - apply contains_false in Ec. intros tail (h & -> & _). by apply free_of_not_in in Ec.
Qed.

(** ** The digits at the end of a text *)

Lemma stops_drop_while {A} (p : A -> bool) (l : list A) :
  match drop_while p l with [] => True | x :: _ => p x = false end.
Proof. induction l as [|x l IH]; simpl; [done|]. by destruct (p x) eqn:E. Qed.

(** A trimmed text does not end in whitespace. *)
Lemma strip_stops (s : text) : stops is_space (rev (strip s)).
Proof.
  unfold strip, rstrip. rewrite rev_involutive. apply stops_drop_while.
Qed.

Lemma trailing_digits_unique (t ds ds' : text) :
  trailing_digits t ds -> trailing_digits t ds' -> ds = ds'.
Proof.
  intros (body & -> & Hds & Hb) (body' & Heq & Hds' & Hb').
  apply (f_equal (@rev ascii)) in Heq. rewrite !rev_app_distr in Heq.
  apply run_unique with (p := is_digit) in Heq as [Heq _];
    try done; try by apply digits_rev.
  apply (f_equal (@rev ascii)) in Heq. by rewrite !rev_involutive in Heq.
Qed.

Lemma id_re_inv (s : text) (g : groups) (rest : text) :
  matches_at id_re s g rest ->
  exists w, s = w ++ rest /\ digits w /\ w <> [] /\ group 1 g = w
            /\ (rest = [] \/ rest = ["010"%char]).
Proof.
  intros (w & -> & H). unfold id_re in H.
  apply rmatch_seq_inv in H as (w1 & w2 & g1 & g2 & -> & -> & H1 & H2).
  apply rmatch_grp_inv in H1 as (g1' & -> & H1).
  apply rmatch_rep_inv in H1 as (-> & Hw & Hlen & _).
  apply rmatch_eos_inv in H2 as (-> & -> & Hrest).
  exists w1. rewrite app_nil_r. split_and!; try done.
  intros ->. simpl in Hlen. lia.
Qed.

Lemma id_re_matches (w : text) :
  digits w -> w <> [] -> matches_at id_re w ([(1%nat, w)] ++ []) [].
Proof.
  intros Hw Hne. exists w. split; [by rewrite app_nil_r|].
  unfold id_re.
  assert (H : rmatch (Seq (Grp 1 (plus is_digit)) Eos) (w ++ []) [] ([(1%nat, w)] ++ [])).
  { constructor; [|constructor; by left]. constructor. by apply rmatch_plus. }
  by rewrite app_nil_r in H.
Qed.

Lemma rev_cases {A} (l : list A) : l = [] \/ exists l' x, l = l' ++ [x].
Proof.
  destruct (rev l) as [|x l'] eqn:E.
  - left. apply (f_equal (@rev A)) in E. by rewrite rev_involutive in E.
  - right. exists (rev l'), x. apply (f_equal (@rev A)) in E.
    by rewrite rev_involutive in E.
Qed.

Lemma stops_rev_intro (p : ascii -> bool) (s : text) :
  (forall s' c, s = s' ++ [c] -> p c = false) -> stops p (rev s).
Proof.
  intros H. destruct (rev_cases s) as [->|(s' & c & ->)]; [done|].
  rewrite rev_app_distr. simpl. by eapply H.
Qed.

(** The id pattern finds the run of digits at the end of a text that does
    not end in whitespace. *)
Lemma search_id_re (t : text) :
  stops is_space (rev t) ->
  match search id_re t with
  | Some (g, _) => trailing_digits t (group 1 g) /\ group 1 g <> []
  | None => trailing_digits t []
  end.
Proof.
  intros Hend. destruct (search id_re t) as [[g rest]|] eqn:E.
  - apply search_Some in E as (pre & suf & -> & Hm & Hearly).
    apply match_here_Some in Hm.
    apply id_re_inv in Hm as (w & -> & Hw & Hne & -> & Hrest).
    assert (rest = []) as ->.
    { destruct Hrest as [->| ->]; [done|]. exfalso.
      rewrite !rev_app_distr in Hend. simpl in Hend. discriminate. }
    rewrite app_nil_r in *. split; [|done]. exists pre. split_and!; try done.
    apply stops_rev_intro. intros p c -> .
    destruct (is_digit c) eqn:Hc; [exfalso|done].
    specialize (Hearly p [c] eq_refl ltac:(done)).
    rewrite match_here_None in Hearly.
    assert (Hcw : digits ([c] ++ w)).
    { apply digits_app. split; [|done]. unfold digits. simpl. by rewrite Hc. }
    apply (Hearly _ _ (id_re_matches ([c] ++ w) Hcw ltac:(done))).
  - rewrite search_None in E. exists t. rewrite app_nil_r. split_and!; try done.
    apply stops_rev_intro. intros p c ->.
    destruct (is_digit c) eqn:Hc; [exfalso|done].
    specialize (E p [c] eq_refl). rewrite match_here_None in E.
    assert (Hcw : digits [c]) by (unfold digits; simpl; by rewrite Hc).
    apply (E _ _ (id_re_matches [c] Hcw ltac:(done))).
Qed.

(** ** The id branch of the date extractor *)

Lemma toordinal_ORIGIN : toordinal ORIGIN = 715510.
Proof. reflexivity. Qed.

Lemma valid_ORIGIN : valid_date ORIGIN.
Proof. unfold valid_date. by vm_compute. Qed.

(** Adding a day offset to 1960-01-01. *)
Lemma add_days_origin (n : Z) :
  0 <= n ->
  add_days ORIGIN n
  = if n <=? max_offset then Some (days_after (Z.to_nat n) ORIGIN) else None.
Proof.
  intros Hn. unfold add_days, max_offset, MAX_DELTA_DAYS. rewrite toordinal_ORIGIN.
  unfold MAXORDINAL.
  destruct (n <=? 3652059 - 715510) eqn:E.
  - apply Z.leb_le in E.
    replace (Z.abs n <=? 999999999) with true by (symmetry; apply Z.leb_le; lia).
    replace ((0 <? 715510 + n) && (715510 + n <=? 3652059)) with true
      by (symmetry; apply andb_true_iff; rewrite Z.ltb_lt, Z.leb_le; lia).
    f_equal.
    destruct (ord2ymd_days_after ORIGIN (Z.to_nat n) valid_ORIGIN) as [H _].
    + rewrite toordinal_ORIGIN. unfold MAXORDINAL. lia.
    + rewrite toordinal_ORIGIN, Z2Nat.id in H by lia. done.
  - apply Z.leb_gt in E.
    destruct (Z.abs n <=? 999999999); [|done].
    replace ((0 <? 715510 + n) && (715510 + n <=? 3652059)) with false; [done|].
    symmetry. apply andb_false_iff. right. apply Z.leb_gt. lia.
Qed.

Lemma days_after_origin_valid (n : Z) :
  0 <= n <= max_offset -> valid_date (days_after (Z.to_nat n) ORIGIN).
Proof.
  intros Hn. apply (ord2ymd_days_after ORIGIN (Z.to_nat n) valid_ORIGIN).
  rewrite toordinal_ORIGIN. unfold max_offset, MAXORDINAL in *.
  rewrite toordinal_ORIGIN in Hn. lia.
Qed.

(** The id branch gives the date of the id when there is one, and falls
    through otherwise. *)
Lemma id_branch_spec (s : text) :
  match id_branch s with
  | Some r => exists d, id_date s d /\ valid_date d /\ r = strftime_ymd d
  | None => ~ exists d, id_date s d
  end.
Proof.
  unfold id_branch. pose proof (rsplit1_at s) as Hat.
  destruct (contains "@" s).
  - destruct Hat as (h & tail & -> & Htail).
    pose proof (search_id_re (strip tail) (strip_stops tail)) as Hs.
    destruct (search id_re (strip tail)) as [[g rest]|].
    + destruct Hs as [Htd Hne]. set (ds := group 1 g) in *.
      assert (Hds : digits ds) by (by destruct Htd as (? & _ & ? & _)).
      rewrite (py_int_digits ds Hds Hne).
      destruct (length ds <=? int_max_str_digits)%nat eqn:Elen; simpl.
      * apply Nat.leb_le in Elen.
        rewrite add_days_origin by by apply decimal_nonneg.
        destruct (decimal ds <=? max_offset) eqn:Emax; simpl.
        -- apply Z.leb_le in Emax. eexists. split_and!; [|
             apply days_after_origin_valid; split; [by apply decimal_nonneg|done] |done].
           exists tail, ds. split_and!; done.
        -- apply Z.leb_gt in Emax. intros (d & tail' & ds' & Ht' & Htd' & _ & _ & Hmax & _).
           rewrite <- (after_last_at_unique _ _ _ Htail Ht') in Htd'.
           rewrite <- (trailing_digits_unique _ _ _ Htd Htd') in Hmax. lia.
      * apply Nat.leb_gt in Elen. intros (d & tail' & ds' & Ht' & Htd' & _ & Hlen & _).
        rewrite <- (after_last_at_unique _ _ _ Htail Ht') in Htd'.
        rewrite <- (trailing_digits_unique _ _ _ Htd Htd') in Hlen. lia.
    + intros (d & tail' & ds' & Ht' & Htd' & Hne & _).
      rewrite <- (after_last_at_unique _ _ _ Htail Ht') in Htd'.
      by rewrite <- (trailing_digits_unique _ _ _ Hs Htd') in Hne.
  - intros (d & tail & ds & Ht & _). by apply Hat in Ht.
Qed.

(** ** The range pattern and the single-date pattern *)

Lemma rmatch_between_inv (lo hi : nat) (p : ascii -> bool) (w rest : text) (g : groups) :
  rmatch (between lo hi p) w rest g ->
  g = [] /\ forallb p w = true /\ (lo <= length w <= hi)%nat.
Proof.
  intros H. apply rmatch_rep_inv in H as (-> & Hw & Hlo & Hhi).
  specialize (Hhi hi eq_refl). done.
Qed.

Lemma rmatch_between (lo hi : nat) (p : ascii -> bool) (w rest : text) :
  forallb p w = true -> (lo <= length w <= hi)%nat -> rmatch (between lo hi p) w rest [].
Proof. intros Hw [Hlo Hhi]. constructor; [done|done|]. by intros h [= <-]. Qed.

Lemma rmatch_short (n : nat) (w rest : text) (g : groups) :
  rmatch (Grp n (between 1 2 is_digit)) w rest g -> g = [(n, w)] /\ short_number w.
Proof.
  intros H. apply rmatch_grp_inv in H as (g' & -> & H).
  by apply rmatch_between_inv in H as (-> & Hw & Hlen).
Qed.

Lemma rmatch_year (n : nat) (w rest : text) (g : groups) :
  rmatch (Grp n (between 4 4 is_digit)) w rest g -> g = [(n, w)] /\ year_number w.
Proof.
  intros H. apply rmatch_grp_inv in H as (g' & -> & H).
  apply rmatch_between_inv in H as (-> & Hw & Hlen). split; [done|]. split; [done|lia].
Qed.

Lemma short_rmatch (n : nat) (w rest : text) :
  short_number w -> rmatch (Grp n (between 1 2 is_digit)) w rest [(n, w)].
Proof. intros [Hw Hlen]. constructor. by apply rmatch_between. Qed.

Lemma year_rmatch (n : nat) (w rest : text) :
  year_number w -> rmatch (Grp n (between 4 4 is_digit)) w rest [(n, w)].
Proof. intros [Hw Hlen]. constructor. apply rmatch_between; [done|lia]. Qed.

Lemma rmatch_is_char_inv (a : ascii) (w rest : text) (g : groups) :
  rmatch (Chr (is_char a)) w rest g -> w = [a] /\ g = [].
Proof.
  intros H. apply rmatch_chr_inv in H as (c & -> & -> & Hc).
  by apply is_char_spec in Hc as ->.
Qed.

Lemma rmatch_is_char (a : ascii) (rest : text) : rmatch (Chr (is_char a)) [a] rest [].
Proof. constructor. by apply is_char_spec. Qed.

Lemma rmatch_star_inv (p : ascii -> bool) (w rest : text) (g : groups) :
  rmatch (star p) w rest g -> g = [] /\ forallb p w = true.
Proof. intros H. by apply rmatch_rep_inv in H as (-> & Hw & _). Qed.

Lemma range_re_inv (s : text) (g : groups) (rest : text) :
  matches_at range_re s g rest ->
  range_at s (group 3 g) (group 4 g) (group 5 g).
Proof.
  intros (w & -> & H). unfold range_re in H. cbn [seqs] in H.
  apply rmatch_seq_inv in H as (m1 & wa & g1 & ga & -> & -> & H1 & H).
  apply rmatch_short in H1 as [-> Hm1].
  apply rmatch_seq_inv in H as (c1 & wb & g2 & gb & -> & -> & H2 & H).
  apply rmatch_is_char_inv in H2 as [-> ->].
  apply rmatch_seq_inv in H as (d1 & wc & g3 & gc & -> & -> & H3 & H).
  apply rmatch_short in H3 as [-> Hd1].
  apply rmatch_seq_inv in H as (ws1 & wd & g4 & gd & -> & -> & H4 & H).
  apply rmatch_star_inv in H4 as [-> Hws1].
  apply rmatch_seq_inv in H as (c2 & we & g5 & ge & -> & -> & H5 & H).
  apply rmatch_is_char_inv in H5 as [-> ->].
  apply rmatch_seq_inv in H as (ws2 & wf & g6 & gf & -> & -> & H6 & H).
  apply rmatch_star_inv in H6 as [-> Hws2].
  apply rmatch_seq_inv in H as (m2 & wg & g7 & gg & -> & -> & H7 & H).
  apply rmatch_short in H7 as [-> Hm2].
  apply rmatch_seq_inv in H as (c3 & wh & g8 & gh & -> & -> & H8 & H).
  apply rmatch_is_char_inv in H8 as [-> ->].
  apply rmatch_seq_inv in H as (d2 & wi & g9 & gi & -> & -> & H9 & H).
  apply rmatch_short in H9 as [-> Hd2].
  apply rmatch_seq_inv in H as (c4 & wj & g10 & gj & -> & -> & H10 & H).
  apply rmatch_is_char_inv in H10 as [-> ->].
  apply rmatch_seq_inv in H as (ws3 & y & g11 & gk & -> & -> & H11 & H).
  apply rmatch_star_inv in H11 as [-> Hws3].
  apply rmatch_year in H as [-> Hy].
  exists m1, d1, ws1, ws2, ws3, rest. split_and!; try done. norm_app.
Qed.

Lemma range_at_matches (s m2 d2 y : text) :
  range_at s m2 d2 y -> exists g rest, matches_at range_re s g rest.
Proof.
  intros (m1 & d1 & ws1 & ws2 & ws3 & rest & -> & Hm1 & Hd1 & Hws1 & Hws2
          & Hm2 & Hd2 & Hws3 & Hy).
  eexists _, rest.
  exists (m1 ++ ["/"%char] ++ d1 ++ ws1 ++ ["-"%char] ++ ws2 ++ m2 ++ ["/"%char]
          ++ d2 ++ [","%char] ++ ws3 ++ y).
  split; [norm_app|].
  unfold range_re. cbn [seqs].
  constructor; [by apply short_rmatch|].
  constructor; [apply rmatch_is_char|].
  constructor; [by apply short_rmatch|].
  constructor; [by apply rmatch_star|].
  constructor; [apply rmatch_is_char|].
  constructor; [by apply rmatch_star|].
  constructor; [by apply short_rmatch|].
  constructor; [apply rmatch_is_char|].
  constructor; [by apply short_rmatch|].
  constructor; [apply rmatch_is_char|].
  constructor; [by apply rmatch_star|].
  by apply year_rmatch.
Qed.

Lemma single_re_inv (s : text) (g : groups) (rest : text) :
  matches_at single_re s g rest ->
  single_at s (group 1 g) (group 2 g) (group 3 g).
Proof.
  intros (w & -> & H). unfold single_re in H. cbn [seqs] in H.
  apply rmatch_seq_inv in H as (m & wa & g1 & ga & -> & -> & H1 & H).
  apply rmatch_short in H1 as [-> Hm].
  apply rmatch_seq_inv in H as (c1 & wb & g2 & gb & -> & -> & H2 & H).
  apply rmatch_is_char_inv in H2 as [-> ->].
  apply rmatch_seq_inv in H as (d & wc & g3 & gc & -> & -> & H3 & H).
  apply rmatch_short in H3 as [-> Hd].
  apply rmatch_seq_inv in H as (c2 & y & g4 & gd & -> & -> & H4 & H).
  apply rmatch_is_char_inv in H4 as [-> ->].
  apply rmatch_year in H as [-> Hy].
  exists rest. split_and!; try done. norm_app.
Qed.

Lemma single_at_matches (s m d y : text) :
  single_at s m d y -> exists g rest, matches_at single_re s g rest.
Proof.
  intros (rest & -> & Hm & Hd & Hy).
  eexists _, rest. exists (m ++ ["/"%char] ++ d ++ ["/"%char] ++ y).
  split; [norm_app|].
  unfold single_re. cbn [seqs].
  constructor; [by apply short_rmatch|].
  constructor; [apply rmatch_is_char|].
  constructor; [by apply short_rmatch|].
  constructor; [apply rmatch_is_char|].
  by apply year_rmatch.
Qed.

(** ** Only one range and only one single date at a place *)

Lemma short_stops_space (w x : text) : short_number w -> stops is_space (w ++ x).
Proof.
  intros [Hw Hlen]. apply digits_stops_space; [done|]. intros ->. simpl in Hlen. lia.
Qed.

Lemma year_stops_space (w x : text) : year_number w -> stops is_space (w ++ x).
Proof.
  intros [Hw Hlen]. apply digits_stops_space; [done|]. intros ->. simpl in Hlen. lia.
Qed.

Lemma blank_stops_digit (ws : text) (c : ascii) (x : text) :
  blank ws -> is_digit c = false -> stops is_digit (ws ++ c :: x).
Proof.
  intros Hws Hc. destruct ws as [|w ws]; [done|]. simpl.
  apply andb_prop in Hws as [Hw _].
  destruct (is_digit w) eqn:E; [|done]. apply is_digit_not_space in E. congruence.
Qed.

Lemma range_at_unique (s a b c a' b' c' : text) :
  range_at s a b c -> range_at s a' b' c' -> a = a' /\ b = b' /\ c = c'.
Proof.
  intros (m1 & d1 & ws1 & ws2 & ws3 & rest & -> & [Hm1 _] & [Hd1 _] & Hws1 & Hws2
          & Hm2 & Hd2 & Hws3 & Hy)
         (m1' & d1' & ws1' & ws2' & ws3' & rest' & Heq & [Hm1' _] & [Hd1' _] & Hws1' & Hws2'
          & Hm2' & Hd2' & Hws3' & Hy').
  apply (run_unique is_digit) in Heq as [-> Heq]; [|done..].
  injection Heq as Heq.
  apply (run_unique is_digit) in Heq as [-> Heq];
    [|done|done|by apply blank_stops_digit..].
  apply (run_unique is_space) in Heq as [-> Heq]; [|done..].
  injection Heq as Heq.
  apply (run_unique is_space) in Heq as [-> Heq];
    [|done|done|by apply short_stops_space..].
  apply (run_unique is_digit) in Heq as [-> Heq];
    [|by destruct Hm2|by destruct Hm2'|done..].
  injection Heq as Heq.
  apply (run_unique is_digit) in Heq as [-> Heq];
    [|by destruct Hd2|by destruct Hd2'|done..].
  injection Heq as Heq.
  apply (run_unique is_space) in Heq as [-> Heq];
    [|done|done|by apply year_stops_space..].
  apply length_unique in Heq as [-> _]; [done|].
  destruct Hy as [_ ->]. by destruct Hy' as [_ ->].
Qed.

Lemma single_at_unique (s a b c a' b' c' : text) :
  single_at s a b c -> single_at s a' b' c' -> a = a' /\ b = b' /\ c = c'.
Proof.
  intros (rest & -> & [Hm _] & [Hd _] & Hy) (rest' & Heq & [Hm' _] & [Hd' _] & Hy').
  apply (run_unique is_digit) in Heq as [-> Heq]; [|done..].
  injection Heq as Heq.
  apply (run_unique is_digit) in Heq as [-> Heq]; [|done..].
  injection Heq as Heq.
  apply length_unique in Heq as [-> _]; [done|].
  destruct Hy as [_ ->]. by destruct Hy' as [_ ->].
Qed.

Lemma first_range_unique (s a b c a' b' c' : text) :
  first_range s a b c -> first_range s a' b' c' -> a = a' /\ b = b' /\ c = c'.
Proof.
  intros (pre & suf & -> & Hat & Hearly) (pre' & suf' & Heq & Hat' & Hearly').
  destruct (prefix_cases _ _ _ _ Heq) as [->|[(p2 & Hne & -> & ->)|(p2 & Hne & -> & ->)]].
  - apply app_inv_head in Heq as ->. by eapply range_at_unique.
  - exfalso. by apply (Hearly' pre p2 a b c).
  - exfalso. by apply (Hearly pre' p2 a' b' c').
Qed.

Lemma first_single_unique (s a b c a' b' c' : text) :
  first_single s a b c -> first_single s a' b' c' -> a = a' /\ b = b' /\ c = c'.
Proof.
  intros (pre & suf & -> & Hat & Hearly) (pre' & suf' & Heq & Hat' & Hearly').
  destruct (prefix_cases _ _ _ _ Heq) as [->|[(p2 & Hne & -> & ->)|(p2 & Hne & -> & ->)]].
  - apply app_inv_head in Heq as ->. by eapply single_at_unique.
  - exfalso. by apply (Hearly' pre p2 a b c).
  - exfalso. by apply (Hearly pre' p2 a' b' c').
Qed.

(** ** The range branch and the single-date branch *)

Lemma short_py_int (w : text) : short_number w -> py_int w = Some (decimal w).
Proof.
  intros [Hw Hlen]. rewrite py_int_digits; [|done|by intros ->; simpl in Hlen; lia].
  replace (length w <=? int_max_str_digits)%nat with true; [done|].
  symmetry. apply Nat.leb_le. unfold int_max_str_digits. lia.
Qed.

Lemma year_py_int (w : text) : year_number w -> py_int w = Some (decimal w).
Proof.
  intros [Hw Hlen]. rewrite py_int_digits; [|done|by intros ->; simpl in Hlen; lia].
  replace (length w <=? int_max_str_digits)%nat with true; [done|].
  symmetry. apply Nat.leb_le. unfold int_max_str_digits. lia.
Qed.

(** [date(y, m, d)] succeeds for the dates of the calendar. *)
Lemma make_date_spec (y m d : Z) :
  match make_date y m d with
  | Some dt => dt = Date y m d /\ valid_date dt
  | None => ~ valid_date (Date y m d)
  end.
Proof.
  unfold make_date, valid_date, MINYEAR, MAXYEAR.
  destruct (_ && _) eqn:E.
  - repeat (apply andb_prop in E as [E ?]). cbn [year month day]. split; [done|lia].
  - cbn [year month day]. intros H. apply not_true_iff_false in E. apply E.
    repeat (apply andb_true_iff; split); lia.
Qed.

Lemma search_range (s : text) :
  match search range_re s with
  | Some (g, _) => first_range s (group 3 g) (group 4 g) (group 5 g)
  | None => forall a b c, ~ first_range s a b c
  end.
Proof.
  destruct (search range_re s) as [[g rest]|] eqn:E.
  - apply search_Some in E as (pre & suf & -> & Hm & Hearly).
    apply match_here_Some, range_re_inv in Hm.
    exists pre, suf. split_and!; try done.
    intros p1 p2 a b c Hp Hne Hat. apply range_at_matches in Hat as (g' & rest' & Hm').
    specialize (Hearly p1 p2 Hp Hne). rewrite match_here_None in Hearly.
    by apply Hearly in Hm'.
  - intros a b c (pre & suf & -> & Hat & _).
    rewrite search_None in E. specialize (E pre suf eq_refl).
    rewrite match_here_None in E.
    apply range_at_matches in Hat as (g' & rest' & Hm'). by apply E in Hm'.
Qed.

Lemma search_single (s : text) :
  match search single_re s with
  | Some (g, _) => first_single s (group 1 g) (group 2 g) (group 3 g)
  | None => forall a b c, ~ first_single s a b c
  end.
Proof.
  destruct (search single_re s) as [[g rest]|] eqn:E.
  - apply search_Some in E as (pre & suf & -> & Hm & Hearly).
    apply match_here_Some, single_re_inv in Hm.
    exists pre, suf. split_and!; try done.
    intros p1 p2 a b c Hp Hne Hat. apply single_at_matches in Hat as (g' & rest' & Hm').
    specialize (Hearly p1 p2 Hp Hne). rewrite match_here_None in Hearly.
    by apply Hearly in Hm'.
  - intros a b c (pre & suf & -> & Hat & _).
    rewrite search_None in E. specialize (E pre suf eq_refl).
    rewrite match_here_None in E.
    apply single_at_matches in Hat as (g' & rest' & Hm'). by apply E in Hm'.
Qed.

Lemma first_range_numbers (s a b c : text) :
  first_range s a b c -> short_number a /\ short_number b /\ year_number c.
Proof.
  intros (pre & suf & _ & (m1 & d1 & ws1 & ws2 & ws3 & rest & _ & _ & _ & _ & _
                           & Ha & Hb & _ & Hc) & _). done.
Qed.

Lemma first_single_numbers (s a b c : text) :
  first_single s a b c -> short_number a /\ short_number b /\ year_number c.
Proof. intros (pre & suf & _ & (rest & _ & Ha & Hb & Hc) & _). done. Qed.

(** The range branch gives the end date of the leftmost range when it is a
    date of the calendar, and falls through otherwise. *)
Lemma range_branch_spec (s : text) :
  match range_branch s with
  | Some r => exists d, range_date s d /\ valid_date d /\ r = strftime_ymd d
  | None => ~ exists d, range_date s d
  end.
Proof.
  unfold range_branch. pose proof (search_range s) as Hs.
  destruct (search range_re s) as [[g rest]|].
  - destruct (first_range_numbers _ _ _ _ Hs) as (Ha & Hb & Hc).
    rewrite (short_py_int _ Ha), (short_py_int _ Hb), (year_py_int _ Hc). simpl.
    pose proof (make_date_spec (decimal (group 5 g)) (decimal (group 3 g))
                  (decimal (group 4 g))) as Hd.
    destruct (make_date _ _ _) as [dt|]; simpl.
    + destruct Hd as [-> Hv]. eexists. split_and!; [|done|done].
      by exists (group 3 g), (group 4 g), (group 5 g).
    + intros (d & a & b & c & Hf & -> & Hv).
      destruct (first_range_unique _ _ _ _ _ _ _ Hs Hf) as (<- & <- & <-). done.
  - intros (d & a & b & c & Hf & _). by apply Hs in Hf.
Qed.

(** The single-date branch gives the leftmost single date when it is a date
    of the calendar, and falls through otherwise. *)
Lemma single_branch_spec (s : text) :
  match single_branch s with
  | Some r => exists d, single_date s d /\ valid_date d /\ r = strftime_ymd d
  | None => ~ exists d, single_date s d
  end.
Proof.
  unfold single_branch. pose proof (search_single s) as Hs.
  destruct (search single_re s) as [[g rest]|].
  - destruct (first_single_numbers _ _ _ _ Hs) as (Ha & Hb & Hc).
    rewrite (short_py_int _ Ha), (short_py_int _ Hb), (year_py_int _ Hc). simpl.
    pose proof (make_date_spec (decimal (group 3 g)) (decimal (group 1 g))
                  (decimal (group 2 g))) as Hd.
    destruct (make_date _ _ _) as [dt|]; simpl.
    + destruct Hd as [-> Hv]. eexists. split_and!; [|done|done].
      by exists (group 1 g), (group 2 g), (group 3 g).
    + intros (d & a & b & c & Hf & -> & Hv).
      destruct (first_single_unique _ _ _ _ _ _ _ Hs Hf) as (<- & <- & <-). done.
  - intros (d & a & b & c & Hf & _). by apply Hs in Hf.
Qed.

(** ** The dates of the three branches are unique *)

Lemma id_date_unique (s : text) (d d' : date) : id_date s d -> id_date s d' -> d = d'.
Proof.
  intros (tail & ds & Ht & Htd & _ & _ & _ & ->) (tail' & ds' & Ht' & Htd' & _ & _ & _ & ->).
  rewrite <- (after_last_at_unique _ _ _ Ht Ht') in Htd'.
  by rewrite (trailing_digits_unique _ _ _ Htd Htd').
Qed.

Lemma range_date_unique (s : text) (d d' : date) :
  range_date s d -> range_date s d' -> d = d'.
Proof.
  intros (a & b & c & Hf & -> & _) (a' & b' & c' & Hf' & -> & _).
  by destruct (first_range_unique _ _ _ _ _ _ _ Hf Hf') as (-> & -> & ->).
Qed.

Lemma single_date_unique (s : text) (d d' : date) :
  single_date s d -> single_date s d' -> d = d'.
Proof.
  intros (a & b & c & Hf & -> & _) (a' & b' & c' & Hf' & -> & _).
  by destruct (first_single_unique _ _ _ _ _ _ _ Hf Hf') as (-> & -> & ->).
Qed.

(** X24. The date extractor returns an absent cell as it is. For a text it
    returns, in this order of priority: the date that lies as many days
    after 1960-01-01 as the run of digits says that ends the trimmed text
    behind the last "@" (when that number has at most 4300 digits and the
    date is not after 9999-12-31); else the end date of the leftmost range
    "MM/DD - MM/DD, YYYY" (when it is a date of the calendar); else the
    leftmost single date "MM/DD/YYYY" (when it is a date of the calendar);
    else the text itself. A date is written as its year without leading
    zeros (four digits from the year 1000 on), its month and its day, two
    digits each, with hyphens between them. A branch whose number or date
    cannot be built falls through to the next one. The date of each branch
    is unique. The four examples of the specification hold, and a month 13
    falls through. *)
Theorem extract_date_spec :
  extract_date None = None
  /\ (forall s, exists r,
        extract_date (Some s) = Some r
        /\ ((exists d, id_date s d /\ ymd_text d r)
            \/ (~ (exists d, id_date s d)
                /\ exists d, range_date s d /\ ymd_text d r)
            \/ (~ (exists d, id_date s d) /\ ~ (exists d, range_date s d)
                /\ exists d, single_date s d /\ ymd_text d r)
            \/ (~ (exists d, id_date s d) /\ ~ (exists d, range_date s d)
                /\ ~ (exists d, single_date s d) /\ r = s)))
  /\ (forall s d d', id_date s d -> id_date s d' -> d = d')
  /\ (forall s d d', range_date s d -> range_date s d' -> d = d')
  /\ (forall s d d', single_date s d -> single_date s d' -> d = d')
  /\ extract_date (Some (txt "...@12345")) = Some (txt "1993-10-19")
  /\ days_after (Z.to_nat 12345) ORIGIN = Date 1993 10 19
  /\ extract_date (Some (txt "Field Poll 06/01 - 06/10, 2016")) = Some (txt "2016-06-10")
  /\ extract_date (Some (txt "03/04/2021")) = Some (txt "2021-03-04")
  /\ extract_date (Some (txt "unparseable text")) = Some (txt "unparseable text")
  /\ extract_date (Some (txt "13/04/2021")) = Some (txt "13/04/2021").
Proof.
  split_and!; [done| |apply id_date_unique|apply range_date_unique
              |apply single_date_unique|vm_compute; reflexivity..].
  intros s. unfold extract_date, or_else.
  pose proof (id_branch_spec s) as H1.
  destruct (id_branch s) as [r|].
  { destruct H1 as (d & Hd & Hv & ->). eexists. split; [done|]. left.
    exists d. split; [done|]. by apply strftime_ymd_text. }
  pose proof (range_branch_spec s) as H2.
  destruct (range_branch s) as [r|].
  { destruct H2 as (d & Hd & Hv & ->). eexists. split; [done|]. right; left.
    split; [done|]. exists d. split; [done|]. by apply strftime_ymd_text. }
  pose proof (single_branch_spec s) as H3.
  destruct (single_branch s) as [r|].
  { destruct H3 as (d & Hd & Hv & ->). eexists. split; [done|]. right; right; left.
    split_and!; try done. exists d. split; [done|]. by apply strftime_ymd_text. }
  exists s. split; [done|]. right; right; right. done.
Qed.

(** C1. Years below 1000 are not written as YYYY. For the text
    "02/03/0999" the date extractor finds the single date of the year 999
    and returns "999-02-03"; for "01/01/0001" it returns "1-01-01"; for a
    range that ends in the year 999 it returns "999-02-03" too. The year is
    written without leading zeros, so these results do not have the form
    YYYY-MM-DD that the docstring of the extractor names. The priority of
    the branches and the fall-through are as the claim says. *)
Theorem extract_date_small_year :
  extract_date (Some (txt "02/03/0999")) = Some (txt "999-02-03")
  /\ extract_date (Some (txt "01/01/0001")) = Some (txt "1-01-01")
  /\ extract_date (Some (txt "Field Poll 01/01 - 02/03, 0999")) = Some (txt "999-02-03")
  /\ single_date (txt "02/03/0999") (Date 999 2 3)
  /\ ~ (exists d, id_date (txt "02/03/0999") d)
  /\ ~ (exists d, range_date (txt "02/03/0999") d).
Proof.
  split; [vm_compute; reflexivity|].
  split; [vm_compute; reflexivity|].
  split; [vm_compute; reflexivity|].
  split; [|split].
  - exists (txt "02"), (txt "03"), (txt "0999"). split; [|split].
    + exists [], (txt "02/03/0999"). split; [done|]. split.
      * exists []. repeat split; simpl; lia.
      * intros p1 p2 a b c Hp Hne. by destruct p1, p2.
    + reflexivity.
    + unfold valid_date. cbn [year month day]. split; [lia|]. split; [lia|].
      split; [lia|]. by vm_compute.
  - pose proof (id_branch_spec (txt "02/03/0999")) as H.
    by change (id_branch (txt "02/03/0999")) with (@None text) in H.
  - pose proof (range_branch_spec (txt "02/03/0999")) as H.
    by change (range_branch (txt "02/03/0999")) with (@None text) in H.
Qed.

(** * Further properties of the program *)

(** ** More on the schema rewriter *)

Lemma remove_first_elem_of (x c : string) (l : list string) :
  c ∈ remove_first x l -> c ∈ l.
Proof.
  induction l as [|y l IH]; simpl; [done|].
  destruct (decide (x = y)).
  - intros H. by apply elem_of_cons; right.
  - intros [->|H]%elem_of_cons; apply elem_of_cons; [by left|right; by apply IH].
Qed.

Lemma remove_first_other (x c : string) (l : list string) :
  c ∈ l -> c <> x -> c ∈ remove_first x l.
Proof.
  induction l as [|y l IH]; simpl; [done|].
  intros [->|H]%elem_of_cons Hne.
  - destruct (decide (x = y)); [congruence|]. apply elem_of_cons. by left.
  - destruct (decide (x = y)); [done|]. apply elem_of_cons. right. by apply IH.
Qed.

Lemma remove_first_sublist (x : string) (l : list string) : sublist (remove_first x l) l.
Proof.
  induction l as [|y l IH]; simpl; [done|].
  destruct (decide (x = y)).
  - by apply sublist_cons.
  - by apply sublist_skip.
Qed.

Lemma drop_column_elem_of (x c : string) (l : list string) :
  c ∈ drop_column l x -> c ∈ l.
Proof.
  unfold drop_column. destruct (decide (x ∈ l)); [apply remove_first_elem_of|done].
Qed.

Lemma drop_column_other (x c : string) (l : list string) :
  c ∈ l -> c <> x -> c ∈ drop_column l x.
Proof.
  unfold drop_column. destruct (decide (x ∈ l)); [apply remove_first_other|done].
Qed.

Lemma drop_column_sublist (x : string) (l : list string) : sublist (drop_column l x) l.
Proof.
  unfold drop_column. destruct (decide (x ∈ l)); [apply remove_first_sublist|done].
Qed.

Lemma drop_column_absent (x : string) (l : list string) : x ∉ l -> drop_column l x = l.
Proof. unfold drop_column. by destruct (decide (x ∈ l)). Qed.

Lemma add_after_present (anchor new : string) (l : list string) :
  new ∈ l -> add_after anchor new l = l.
Proof.
  intros Hin. unfold add_after.
  destruct (decide (anchor ∈ l /\ new ∉ l)) as [[_ Hn]|_]; [done|].
  by destruct (decide (new ∉ l)).
Qed.

Lemma add_after_elem_of (anchor new c : string) (l : list string) :
  c ∈ add_after anchor new l <-> c ∈ l \/ c = new.
Proof. apply placed_elem_of with anchor. apply add_after_placed. Qed.

(** The input columns of [add_after], in their order, are what is left of
    its output when the new column is taken out again. *)
Lemma add_after_filter (anchor new : string) (l : list string) (P : string -> Prop)
    `{!forall c, Decision (P c)} :
  (new ∈ l \/ ~ P new) ->
  filter P (add_after anchor new l) = filter P l.
Proof.
  intros Hnew.
  destruct (add_after_placed anchor new l) as [Hin|pre post Hn -> Hpre|Hn Ha]; [done| |].
  - destruct Hnew as [Hin|HP]; [done|].
    rewrite !filter_app, !filter_cons. by rewrite (decide_False (P:=P new)).
  - destruct Hnew as [Hin|HP]; [done|].
    rewrite filter_app, filter_cons, (decide_False (P:=P new)) by done.
    by rewrite filter_nil, app_nil_r.
Qed.

(** X1. The output schema always has the columns "Sponsor" and
    "RollingWeightedApprove"; it keeps every input column other than
    "Disapprove" and "Net"; and it has no column that is neither an input
    column nor one of the two new ones. *)
Theorem compute_fieldnames_members (orig_fields : list string) :
  "Sponsor"%string ∈ compute_fieldnames orig_fields
  /\ "RollingWeightedApprove"%string ∈ compute_fieldnames orig_fields
  /\ (forall c, c ∈ orig_fields -> ~ unwanted c -> c ∈ compute_fieldnames orig_fields)
  /\ (forall c, c ∈ compute_fieldnames orig_fields ->
        c ∈ orig_fields \/ c = "Sponsor"%string \/ c = "RollingWeightedApprove"%string).
Proof.
  rewrite compute_fieldnames_unfold. split_and!.
  - apply add_after_elem_of. left. apply add_after_elem_of. by right.
  - apply add_after_elem_of. by right.
  - intros c Hc Hun. apply add_after_elem_of. left. apply add_after_elem_of. left.
    apply drop_column_other; [apply drop_column_other; [done|]|];
      intros ->; apply Hun; unfold unwanted; tauto.
  - intros c [[Hc| ->]%add_after_elem_of| ->]%add_after_elem_of; [|tauto..].
    left. by do 2 apply drop_column_elem_of in Hc.
Qed.

(** X2. The rewriter never reorders columns: the output columns that are
    input columns stand in the order they have in the input. *)
Theorem compute_fieldnames_order (orig_fields : list string) :
  sublist (filter (fun c => c ∈ orig_fields) (compute_fieldnames orig_fields)) orig_fields.
Proof.
  rewrite compute_fieldnames_unfold.
  set (base := drop_column (drop_column orig_fields "Disapprove") "Net").
  assert (Hsub : sublist base orig_fields).
  { subst base. etrans; apply drop_column_sublist. }
  assert (Hkeep : forall c, c ∈ orig_fields -> ~ unwanted c -> c ∈ base).
  { intros c Hc Hun. subst base.
    apply drop_column_other; [apply drop_column_other; [done|]|];
      intros ->; apply Hun; unfold unwanted; tauto. }
  rewrite add_after_filter; cycle 1.
  { destruct (decide ("RollingWeightedApprove"%string ∈ orig_fields)) as [Hin|Hn]; [|by right].
    left. apply add_after_elem_of. left. apply Hkeep; [done|].
    unfold unwanted. intros [?|?]; discriminate. }
  rewrite add_after_filter; cycle 1.
  { destruct (decide ("Sponsor"%string ∈ orig_fields)) as [Hin|Hn]; [|by right].
    left. apply Hkeep; [done|]. unfold unwanted. intros [?|?]; discriminate. }
  etrans; [apply sublist_filter|done].
Qed.

(** X3. For pairwise distinct column names the rewriter is idempotent: the
    schema of an output file is kept when the program runs on that file. *)
Theorem compute_fieldnames_idempotent (orig_fields : list string) :
  NoDup orig_fields ->
  compute_fieldnames (compute_fieldnames orig_fields) = compute_fieldnames orig_fields.
Proof.
  intros Hnd.
  set (out := compute_fieldnames orig_fields).
  assert (Hout : forall c, c ∈ out <->
            c ∈ drop_column (drop_column orig_fields "Disapprove") "Net"
            \/ c = "Sponsor"%string \/ c = "RollingWeightedApprove"%string).
  { intros c. subst out. rewrite compute_fieldnames_unfold, !add_after_elem_of. tauto. }
  assert (Hdrop : forall c, c ∈ drop_column (drop_column orig_fields "Disapprove") "Net" ->
            ~ unwanted c).
  { intros c. rewrite dropped_filter by done. intros Hc%list_elem_of_filter. tauto. }
  assert (Hno : forall c, unwanted c -> c ∉ out).
  { intros c Hun [Hc|[->| ->]]%Hout.
    - by apply Hdrop in Hc.
    - destruct Hun; discriminate.
    - destruct Hun; discriminate. }
  rewrite (compute_fieldnames_unfold out).
  rewrite (drop_column_absent "Disapprove") by (apply Hno; by left).
  rewrite (drop_column_absent "Net") by (apply Hno; by right).
  rewrite (add_after_present "Pollster" "Sponsor") by (apply Hout; tauto).
  rewrite (add_after_present "Approve") by (apply Hout; tauto).
  done.
Qed.

Lemma compute_fieldnames_idempotent_witness :
  compute_fieldnames
    (compute_fieldnames ["Dates"; "Pollster"; "Approve"; "Disapprove"; "Net"]%string)
  = compute_fieldnames ["Dates"; "Pollster"; "Approve"; "Disapprove"; "Net"]%string.
Proof.
  apply (compute_fieldnames_idempotent
           ["Dates"; "Pollster"; "Approve"; "Disapprove"; "Net"]%string).
  apply (bool_decide_unpack _). vm_compute. exact I.
Defined.

(** ** The cells of a processed row *)

Lemma setdefault_lookup_full (r : row) (k k' : string) :
  setdefault r k' !! k
  = match r !! k with
    | Some v => Some v
    | None => if decide (k = k') then Some (Some []) else None
    end.
Proof.
  unfold setdefault. destruct (r !! k') eqn:E'.
  - destruct (r !! k) eqn:E; [done|]. destruct (decide (k = k')) as [->|]; congruence.
  - destruct (decide (k = k')) as [->|Hne].
    + by rewrite lookup_insert_eq, E'.
    + rewrite lookup_insert_ne by done. by destruct (r !! k).
Qed.

Lemma fold_setdefault_lookup_full (fields : list string) (r : row) (k : string) :
  fold_left setdefault fields r !! k
  = match r !! k with
    | Some v => Some v
    | None => if decide (k ∈ fields) then Some (Some []) else None
    end.
Proof.
  revert r. induction fields as [|k' fields IH]; intros r; simpl.
  - destruct (r !! k); [done|].
    destruct (decide (k ∈ [])) as [H|]; [by apply elem_of_nil in H|done].
  - rewrite IH, setdefault_lookup_full. destruct (r !! k) eqn:E; [done|].
    assert (Hc : k ∈ k' :: fields <-> k = k' \/ k ∈ fields) by apply elem_of_cons.
    destruct (decide (k = k')); destruct (decide (k ∈ fields));
      destruct (decide (k ∈ k' :: fields)); try done; tauto.
Qed.

Lemma has_key_lookup (r : row) (k : string) :
  has_key r k = match r !! k with Some _ => true | None => false end.
Proof.
  unfold has_key. destruct (r !! k) eqn:E.
  - apply bool_decide_eq_true. by eexists.
  - apply bool_decide_eq_false. by intros [? ?].
Qed.

(** The cell of every column of a processed row. *)
Lemma process_row_lookup (fieldnames : list string) (r : row) (k : string) :
  process_row fieldnames r !! k
  = if decide (k = "Sponsor"%string) then Some (Some (extract_sponsor (get r "Pollster")))
    else match r !! k with
         | Some v =>
             Some (if decide (k = "Dates"%string) then extract_date v
                   else if decide (k = "Pollster"%string) then Some (extract_pollster v)
                   else v)
         | None => if decide (k ∈ fieldnames) then Some (Some []) else None
         end.
Proof.
  destruct (decide (k = "Sponsor"%string)) as [->|Hs]; [apply process_row_sponsor|].
  unfold process_row. rewrite fold_setdefault_lookup_full, !has_key_lookup.
  unfold get.
  destruct (decide (k = "Dates"%string)) as [->|Hd].
  - destruct (r !! "Dates"%string) as [v|] eqn:Ed; simpl.
    + destruct (r !! "Pollster"%string);
        rewrite ?(lookup_insert_ne _ "Pollster"%string) by done;
        rewrite (lookup_insert_ne _ "Sponsor"%string) by done;
        by rewrite lookup_insert_eq.
    + destruct (r !! "Pollster"%string);
        rewrite ?(lookup_insert_ne _ "Pollster"%string) by done;
        rewrite (lookup_insert_ne _ "Sponsor"%string) by done;
        by rewrite Ed.
  - destruct (decide (k = "Pollster"%string)) as [->|Hp].
    + destruct (r !! "Pollster"%string) as [v|] eqn:Ep; simpl.
      * by rewrite lookup_insert_eq.
      * rewrite (lookup_insert_ne _ "Sponsor"%string) by done.
        destruct (r !! "Dates"%string); rewrite ?lookup_insert_ne by done; by rewrite Ep.
    + destruct (r !! "Pollster"%string); destruct (r !! "Dates"%string); simpl;
        rewrite ?lookup_insert_ne by done; done.
Qed.

(** X4. A processed row has the keys of the input row, the key "Sponsor"
    and every column of the schema, and no other key: the writer finds a
    cell for every column. *)
Theorem process_row_keys (fieldnames : list string) (r : row) (k : string) :
  is_Some (process_row fieldnames r !! k)
  <-> is_Some (r !! k) \/ k = "Sponsor"%string \/ k ∈ fieldnames.
Proof.
  rewrite process_row_lookup.
  destruct (decide (k = "Sponsor"%string)) as [->|Hs].
  - split; [tauto|]. by eexists.
  - destruct (r !! k) as [v|].
    + split; [intros _; left|]; by eexists.
    + destruct (decide (k ∈ fieldnames)).
      * split; [tauto|]. by eexists.
      * split; [by intros [? ?]|]. intros [[? ?]|[?|?]]; done.
Qed.

(** ** The cells of the CSV file *)

(** The cell that the writer finds in a row of the rolling pass, for a
    column of the schema other than "RollingWeightedApprove". *)
Lemma written_cell (fieldnames : list string) (r : row) (t : option text) (j : nat) (k : string) :
  fieldnames !! j = Some k ->
  k <> "RollingWeightedApprove"%string ->
  write_row fieldnames (<["RollingWeightedApprove"%string := t]> (process_row fieldnames r)) !! j
  = Some (cell_text (process_row fieldnames r !! k)).
Proof.
  intros Hj Hk. unfold write_row. rewrite list_lookup_fmap, Hj. simpl.
  by rewrite lookup_insert_ne.
Qed.

(** X5. The header of the CSV file is the output schema. The rows of the
    file stand for the input rows, one for one, in some order. Each has a
    cell for every column of the header. The
    "Dates" cell is the date extracted from the input cell, the "Pollster"
    cell the pollster extracted from the input cell, and the cell of a
    column other than "Dates", "Pollster", "Sponsor" and
    "RollingWeightedApprove" is the input cell, unchanged; a cell that the
    input row does not have is written as the empty text. *)
Theorem main_written_cells (header : list string) (rows : list row) :
  exists out rows',
    main header rows = Ok out
    /\ csv_header out = compute_fieldnames header
    /\ rows' ≡ₚ rows
    /\ Forall2 (fun cells r =>
         length cells = length (csv_header out)
         /\ forall j k, csv_header out !! j = Some k ->
              (k = "Dates"%string ->
                 cells !! j = Some (cell_text (extract_date <$> r !! k)))
              /\ (k = "Pollster"%string ->
                    cells !! j
                    = Some (cell_text ((fun v => Some (extract_pollster v)) <$> r !! k)))
              /\ (k ∉ ["Dates"; "Pollster"; "Sponsor"; "RollingWeightedApprove"]%string ->
                    cells !! j = Some (cell_text (r !! k))))
         (csv_rows out) rows'.
Proof.
  destruct (main_ok header rows) as (w & rs & _ & Hrs & Hlen & ->).
  destruct (rolling_from [] (sorted_rows header rows)) as (rs2 & Hrs2 & _ & Hget).
  simpl in Hrs2. rewrite Hrs in Hrs2. injection Hrs2 as <-.
  set (fn := compute_fieldnames header) in *.
  destruct (Permutation_map_inv (process_row fn) rows
              (sort_desc_perm date_key (map (process_row fn) rows)))
    as (rows' & Hsorted & Hperm).
  change (sorted_rows header rows = map (process_row fn) rows') in Hsorted.
  eexists _, rows'. split; [done|]. split; [done|]. split; [done|]. simpl.
  apply Forall2_same_length_lookup. split.
  { rewrite length_map, Hlen, Hsorted. apply length_map. }
  intros i cells r Hcells Hr.
  rewrite list_lookup_fmap in Hcells.
  assert (Hs : sorted_rows header rows !! i = Some (process_row fn r)).
  { by rewrite Hsorted, list_lookup_fmap, Hr. }
  rewrite (Hget _ _ Hs) in Hcells. simpl in Hcells. injection Hcells as <-.
  split; [apply length_map|].
  intros j k Hj.
  assert (Hin : k ∈ fn) by (by eapply list_elem_of_lookup_2).
  split_and!.
  - intros ->. rewrite (written_cell _ _ _ _ _ Hj) by done. f_equal.
    rewrite process_row_lookup. simpl.
    destruct (r !! "Dates"%string); simpl; [done|]. by rewrite decide_True.
  - intros ->. rewrite (written_cell _ _ _ _ _ Hj) by done. f_equal.
    rewrite process_row_lookup. simpl.
    destruct (r !! "Pollster"%string); simpl; [done|]. by rewrite decide_True.
  - intros Hk. rewrite !not_elem_of_cons in Hk. destruct Hk as (Hd & Hp & Hs' & Hr' & _).
    rewrite (written_cell _ _ _ _ _ Hj) by done. f_equal.
    rewrite process_row_lookup.
    rewrite (decide_False (P := k = "Sponsor"%string)) by done.
    destruct (r !! k); simpl.
    + rewrite (decide_False (P := k = "Dates"%string)) by done.
      by rewrite (decide_False (P := k = "Pollster"%string)).
    + by rewrite decide_True.
Qed.

(** ** The sort key of an extracted date *)

Lemma split_on_free (c : ascii) (a : text) : free_of c a -> split_on c a = [a].
Proof.
  unfold free_of. induction a as [|x a IH]; simpl; [done|].
  intros [Hx Ha]%andb_prop. apply not_char_spec in Hx.
  rewrite (proj2 (Ascii.eqb_neq x c)) by done. by rewrite IH.
Qed.

Lemma split_on_app (c : ascii) (a rest : text) :
  free_of c a -> split_on c (a ++ c :: rest) = a :: split_on c rest.
Proof.
  unfold free_of. induction a as [|x a IH]; simpl.
  - intros _. by rewrite Ascii.eqb_refl.
  - intros [Hx Ha]%andb_prop. apply not_char_spec in Hx.
    rewrite (proj2 (Ascii.eqb_neq x c)) by done. by rewrite IH.
Qed.

Lemma digits_free_of (c : ascii) (ds : text) :
  is_digit c = false -> digits ds -> free_of c ds.
Proof.
  intros Hc. unfold digits, free_of. induction ds as [|x ds IH]; simpl; [done|].
  intros [Hx Hds]%andb_prop. rewrite IH by done. rewrite andb_true_r.
  apply not_char_spec. intros ->. congruence.
Qed.

Lemma ymd_text_free_of (c : ascii) (d : date) (t : text) :
  is_digit c = false -> c <> "-"%char -> ymd_text d t -> free_of c t.
Proof.
  intros Hc Hne (yy & mm & dd & -> & Hy & _ & _ & Hm & _ & Hd & _).
  unfold free_of. rewrite forallb_app. simpl. rewrite forallb_app. simpl.
  rewrite (digits_free_of c yy), (digits_free_of c mm), (digits_free_of c dd) by done.
  assert (Hn : not_char c "-" = true) by (apply not_char_spec; congruence).
  by rewrite Hn.
Qed.

(** The text of a date of the calendar parses back to the date. *)
Lemma parse_ymd_text (d : date) (t : text) :
  valid_date d -> ymd_text d t -> parse_ymd (Some t) = Some d.
Proof.
  intros Hv (yy & mm & dd & -> & Hy & Hly & _ & Hm & Hlm & Hd & Hld & Ey & Em & Ed).
  unfold parse_ymd, py_str.
  rewrite split_on_app by (by apply digits_free_of).
  rewrite split_on_app by (by apply digits_free_of).
  rewrite split_on_free by (by apply digits_free_of).
  rewrite (py_int_digits yy), (py_int_digits mm), (py_int_digits dd);
    try done; try (intros ->; simpl in *; first [discriminate | lia]).
  rewrite Hlm, Hld.
  rewrite (proj2 (Nat.leb_le (length yy) int_max_str_digits))
    by (unfold int_max_str_digits; lia).
  simpl. rewrite Ey, Em, Ed.
  pose proof (make_date_spec (year d) (month d) (day d)) as Hmk.
  destruct (make_date _ _ _) as [dt|].
  - destruct Hmk as [-> _]. by destruct d.
  - exfalso. apply Hmk. by destruct d.
Qed.

Lemma date_leb_toordinal (d1 d2 : date) :
  valid_date d1 -> valid_date d2 ->
  date_leb d1 d2 = true <-> toordinal d1 <= toordinal d2.
Proof.
  intros V1 V2.
  assert (Hle : forall a b, valid_date a -> valid_date b ->
                  date_leb a b = true -> toordinal a <= toordinal b).
  { intros a b Va Vb [Hy|[Hy [Hm|[Hm Hd]]]]%date_leb_spec.
    - pose proof (toordinal_year _ _ Va Vb Hy). lia.
    - destruct Va as (_ & Hma & Hda), Vb as (_ & Hmb & Hdb).
      unfold toordinal, ymd2ord. rewrite Hy.
      pose proof (month_before (year b) (month a) (month b)
                    ltac:(lia) Hm ltac:(lia)). rewrite Hy in Hda. lia.
    - unfold toordinal, ymd2ord. rewrite Hy, Hm. lia. }
  split; [by apply Hle|].
  intros H. destruct (date_leb d1 d2) eqn:E; [done|].
  pose proof (Hle _ _ V2 V1 (date_leb_total _ _ E)).
  assert (d1 = d2) as -> by (apply toordinal_inj; [done|done|lia]).
  by rewrite date_leb_refl in E.
Qed.

Lemma contains_free_of (c : ascii) (s : text) : free_of c s -> contains c s = false.
Proof.
  unfold free_of, contains. induction s as [|x s IH]; simpl; [done|].
  intros [Hx Hs]%andb_prop. rewrite IH by done.
  apply not_char_spec in Hx. rewrite orb_false_r.
  apply Ascii.eqb_neq. congruence.
Qed.

Lemma id_branch_free (s : text) : free_of "@" s -> id_branch s = None.
Proof. intros H. unfold id_branch. by rewrite contains_free_of. Qed.

Lemma range_branch_free (s : text) : free_of "/" s -> range_branch s = None.
Proof.
  intros H. pose proof (range_branch_spec s) as Hs.
  destruct (range_branch s) as [r|]; [|done]. exfalso.
  destruct Hs as (d & (m2 & d2 & y & (pre & suf & -> & Hat & _) & _) & _).
  apply free_of_app in H as [_ H].
  destruct Hat as (m1 & d1 & ws1 & ws2 & ws3 & rest & -> & _).
  by apply free_of_not_in in H.
Qed.

Lemma single_branch_free (s : text) : free_of "/" s -> single_branch s = None.
Proof.
  intros H. pose proof (single_branch_spec s) as Hs.
  destruct (single_branch s) as [r|]; [|done]. exfalso.
  destruct Hs as (d & (m & dd & y & (pre & suf & -> & Hat & _) & _) & _).
  apply free_of_app in H as [_ H].
  destruct Hat as (rest & -> & _).
  by apply free_of_not_in in H.
Qed.

(** What the extractor returns is the text itself or the text of a date
    of the calendar. *)
Lemma extract_date_result (s : text) :
  extract_date (Some s) = Some s
  \/ exists d, valid_date d /\ extract_date (Some s) = Some (strftime_ymd d).
Proof.
  unfold extract_date, or_else.
  pose proof (id_branch_spec s) as H1. destruct (id_branch s) as [r|].
  { right. destruct H1 as (d & _ & Hv & ->). by exists d. }
  pose proof (range_branch_spec s) as H2. destruct (range_branch s) as [r|].
  { right. destruct H2 as (d & _ & Hv & ->). by exists d. }
  pose proof (single_branch_spec s) as H3. destruct (single_branch s) as [r|].
  { right. destruct H3 as (d & _ & Hv & ->). by exists d. }
  by left.
Qed.

Lemma extract_date_strftime (d : date) :
  valid_date d -> extract_date (Some (strftime_ymd d)) = Some (strftime_ymd d).
Proof.
  intros Hv. pose proof (strftime_ymd_text d Hv) as Ht.
  unfold extract_date.
  rewrite id_branch_free, range_branch_free, single_branch_free; [done|..];
    apply (ymd_text_free_of _ d); first [reflexivity | discriminate | exact Ht].
Qed.

(** X6. The date extractor is idempotent: what it returns, it returns
    unchanged when it is applied again, as when the program runs on a file
    that it has written. *)
Theorem extract_date_idempotent (value : option text) :
  extract_date (extract_date value) = extract_date value.
Proof.
  destruct value as [s|]; [|done].
  destruct (extract_date_result s) as [H|(d & Hv & ->)].
  - by rewrite H.
  - by apply extract_date_strftime.
Qed.

(** X7. A text with neither "@" nor "/" is returned as it is; so is the
    text of a date written as YYYY-MM-DD. *)
Theorem extract_date_unmarked (s : text) :
  free_of "@" s -> free_of "/" s -> extract_date (Some s) = Some s.
Proof.
  intros Ha Hs. unfold extract_date.
  by rewrite id_branch_free, range_branch_free, single_branch_free.
Qed.

Lemma extract_date_unmarked_witness :
  extract_date (Some (txt "2021-03-04")) = Some (txt "2021-03-04").
Proof. apply (extract_date_unmarked (txt "2021-03-04")); reflexivity. Defined.

(** X8. The date that the extractor writes is the date that the sort stage
    reads: the text of a date of the calendar, as [strftime] writes it,
    parses back to that date. *)
Theorem to_date_or_min_strftime (d : date) :
  valid_date d -> to_date_or_min (Some (strftime_ymd d)) = d.
Proof.
  intros Hv. unfold to_date_or_min.
  by rewrite (parse_ymd_text d _ Hv (strftime_ymd_text d Hv)).
Qed.

Lemma to_date_or_min_strftime_witness :
  to_date_or_min (Some (strftime_ymd (Date 999 2 3))) = Date 999 2 3.
Proof.
  apply (to_date_or_min_strftime (Date 999 2 3)).
  unfold valid_date. simpl. vm_compute. intuition discriminate.
Defined.

Lemma date_key_process_row (fieldnames : list string) (r : row) (v : option text) :
  r !! "Dates"%string = Some v ->
  date_key (process_row fieldnames r) = to_date_or_min (extract_date v).
Proof.
  intros Hr. unfold date_key, get. rewrite process_row_lookup, Hr. done.
Qed.

(** X9. The sort key of an output row is the date that the extractor found
    in the "Dates" cell of the input row: the date of the id, else the end
    date of the range, else the single date. When the text has none of the
    three, the key is read from the text itself. *)
Theorem date_key_extracted (fieldnames : list string) (r : row) (s : text) :
  r !! "Dates"%string = Some (Some s) ->
  (forall d, id_date s d -> date_key (process_row fieldnames r) = d)
  /\ (forall d, ~ (exists d', id_date s d') -> range_date s d ->
        date_key (process_row fieldnames r) = d)
  /\ (forall d, ~ (exists d', id_date s d') -> ~ (exists d', range_date s d') ->
        single_date s d -> date_key (process_row fieldnames r) = d)
  /\ (~ (exists d', id_date s d') -> ~ (exists d', range_date s d') ->
      ~ (exists d', single_date s d') ->
      date_key (process_row fieldnames r) = to_date_or_min (Some s)).
Proof.
  intros Hr. rewrite (date_key_process_row _ _ _ Hr).
  unfold extract_date, or_else.
  pose proof (id_branch_spec s) as H1. destruct (id_branch s) as [t|].
  { destruct H1 as (d0 & Hd0 & Hv & ->). unfold to_date_or_min.
    rewrite (parse_ymd_text d0 _ Hv (strftime_ymd_text d0 Hv)).
    split_and!.
    - intros d Hd. by apply (id_date_unique s).
    - intros d Hn. exfalso. apply Hn. by exists d0.
    - intros d Hn. exfalso. apply Hn. by exists d0.
    - intros Hn. exfalso. apply Hn. by exists d0. }
  pose proof (range_branch_spec s) as H2. destruct (range_branch s) as [t|].
  { destruct H2 as (d0 & Hd0 & Hv & ->). unfold to_date_or_min.
    rewrite (parse_ymd_text d0 _ Hv (strftime_ymd_text d0 Hv)).
    split_and!.
    - intros d Hd. exfalso. apply H1. by exists d.
    - intros d _ Hd. by apply (range_date_unique s).
    - intros d _ Hn. exfalso. apply Hn. by exists d0.
    - intros _ Hn. exfalso. apply Hn. by exists d0. }
  pose proof (single_branch_spec s) as H3. destruct (single_branch s) as [t|].
  { destruct H3 as (d0 & Hd0 & Hv & ->). unfold to_date_or_min.
    rewrite (parse_ymd_text d0 _ Hv (strftime_ymd_text d0 Hv)).
    split_and!.
    - intros d Hd. exfalso. apply H1. by exists d.
    - intros d _ Hd. exfalso. apply H2. by exists d.
    - intros d _ _ Hd. by apply (single_date_unique s).
    - intros _ _ Hn. exfalso. apply Hn. by exists d0. }
  split_and!.
  - intros d Hd. exfalso. apply H1. by exists d.
  - intros d _ Hd. exfalso. apply H2. by exists d.
  - intros d _ _ Hd. exfalso. apply H3. by exists d.
  - done.
Qed.

Lemma date_key_extracted_witness :
  (forall d, id_date (txt "06/01 - 06/10, 2016") d ->
     date_key (process_row ["Dates"]%string (dated_row "06/01 - 06/10, 2016")) = d)
  /\ (forall d, ~ (exists d', id_date (txt "06/01 - 06/10, 2016") d') ->
        range_date (txt "06/01 - 06/10, 2016") d ->
        date_key (process_row ["Dates"]%string (dated_row "06/01 - 06/10, 2016")) = d)
  /\ (forall d, ~ (exists d', id_date (txt "06/01 - 06/10, 2016") d') ->
        ~ (exists d', range_date (txt "06/01 - 06/10, 2016") d') ->
        single_date (txt "06/01 - 06/10, 2016") d ->
        date_key (process_row ["Dates"]%string (dated_row "06/01 - 06/10, 2016")) = d)
  /\ (~ (exists d', id_date (txt "06/01 - 06/10, 2016") d') ->
      ~ (exists d', range_date (txt "06/01 - 06/10, 2016") d') ->
      ~ (exists d', single_date (txt "06/01 - 06/10, 2016") d') ->
      date_key (process_row ["Dates"]%string (dated_row "06/01 - 06/10, 2016"))
      = to_date_or_min (Some (txt "06/01 - 06/10, 2016"))).
Proof.
  apply (date_key_extracted ["Dates"]%string (dated_row "06/01 - 06/10, 2016")
           (txt "06/01 - 06/10, 2016")).
  reflexivity.
Defined.

Lemma parse_ymd_valid (s : option text) (d : date) : parse_ymd s = Some d -> valid_date d.
Proof.
  unfold parse_ymd.
  destruct (split_on "-" (py_str s)) as [|a [|b [|c [|? ?]]]]; try done.
  destruct (py_int a) as [y|]; [|done]. destruct (py_int b) as [m|]; [|done].
  destruct (py_int c) as [dd|]; [|done]. simpl.
  pose proof (make_date_spec y m dd) as H. intros E. rewrite E in H. tauto.
Qed.

Lemma valid_date_min : valid_date date_min.
Proof. unfold valid_date. simpl. vm_compute. intuition discriminate. Qed.

(** The number of pieces of [s.split(c)]. *)
Lemma split_on_length (c : ascii) (s : text) :
  length (split_on c s) = S (length (filter (fun x => x = c) s)).
Proof.
  induction s as [|x s IH]; simpl; [done|].
  destruct (Ascii.eqb_spec x c) as [->|Hne].
  - rewrite filter_cons_True by done. simpl. by rewrite IH.
  - rewrite filter_cons_False by done.
    destruct (split_on c s) as [|h t]; [simpl in IH; lia|]. simpl in *. lia.
Qed.

(** X10. The sort key of every row is a date of the calendar, in the years
    1 to 9999. An absent "Dates" cell and a "Dates" text that does not have
    exactly two hyphens give the least date, 0001-01-01. *)
Theorem date_key_valid (r : row) :
  valid_date (date_key r)
  /\ (get r "Dates" = None -> date_key r = date_min)
  /\ (forall s, get r "Dates" = Some s ->
        length (filter (fun x => x = "-"%char) s) <> 2%nat ->
        date_key r = date_min).
Proof.
  unfold date_key, to_date_or_min. split_and!.
  - destruct (parse_ymd _) as [d|] eqn:E; [by eapply parse_ymd_valid|apply valid_date_min].
  - by intros ->.
  - intros s -> Hn. unfold parse_ymd, py_str.
    pose proof (split_on_length "-" s) as Hl.
    destruct (split_on "-" s) as [|a [|b [|c [|? ?]]]]; try done.
    simpl in Hl. lia.
Qed.

(** X11. Adding days to a date of the calendar gives the date that many
    days later: its ordinal is greater by the number of days. So a greater
    id gives a later date, and two ids give the same date only when they
    are equal. *)
Theorem add_days_order (d : date) (n m : Z) (a b : date) :
  valid_date d ->
  add_days d n = Some a -> add_days d m = Some b ->
  valid_date a /\ toordinal a = toordinal d + n
  /\ (date_leb a b = true <-> n <= m)
  /\ (a = b <-> n = m).
Proof.
  intros Hv Ha Hb.
  assert (Hadd : forall k x, add_days d k = Some x ->
            valid_date x /\ toordinal x = toordinal d + k).
  { intros k x. unfold add_days.
    destruct (Z.abs k <=? MAX_DELTA_DAYS); [|done].
    destruct ((0 <? toordinal d + k) && (toordinal d + k <=? MAXORDINAL)) eqn:E; [|done].
    apply andb_prop in E as [E1%Z.ltb_lt E2%Z.leb_le].
    intros [= <-]. apply ord2ymd_toordinal. lia. }
  destruct (Hadd _ _ Ha) as [Va Oa], (Hadd _ _ Hb) as [Vb Ob].
  split_and!; [done|done| |].
  - rewrite date_leb_toordinal by done. lia.
  - split; [intros ->; lia|]. intros ->. apply toordinal_inj; [done|done|lia].
Qed.

Lemma add_days_order_witness :
  valid_date (Date 1960 1 31) /\ toordinal (Date 1960 1 31) = toordinal ORIGIN + 30
  /\ (date_leb (Date 1960 1 31) (Date 1960 3 1) = true <-> 30 <= 60)
  /\ (Date 1960 1 31 = Date 1960 3 1 <-> 30 = 60).
Proof.
  apply (add_days_order ORIGIN 30 60 (Date 1960 1 31) (Date 1960 3 1)).
  - unfold valid_date. simpl. vm_compute. intuition discriminate.
  - vm_compute. reflexivity.
  - vm_compute. reflexivity.
Defined.

Lemma py_int_number (ds : text) : number ds -> py_int ds = Some (decimal ds).
Proof.
  intros (Hd & Hne & Hl). rewrite py_int_digits by done.
  by rewrite (proj2 (Nat.leb_le _ _) Hl).
Qed.

(** X12. The sort stage reads a text of three runs of digits with hyphens
    between them as year, month and day, whatever the number of digits of
    each: the key is that date when it is a date of the calendar, and the
    least date otherwise. *)
Theorem to_date_or_min_numbers (a b c : text) :
  number a -> number b -> number c ->
  let d := Date (decimal a) (decimal b) (decimal c) in
  (valid_date d -> to_date_or_min (Some (a ++ "-"%char :: b ++ "-"%char :: c)) = d)
  /\ (~ valid_date d ->
      to_date_or_min (Some (a ++ "-"%char :: b ++ "-"%char :: c)) = date_min).
Proof.
  intros Ha Hb Hc d. unfold to_date_or_min, parse_ymd, py_str.
  rewrite split_on_app by (apply digits_free_of; [done|apply Ha]).
  rewrite split_on_app by (apply digits_free_of; [done|apply Hb]).
  rewrite split_on_free by (apply digits_free_of; [done|apply Hc]).
  rewrite !py_int_number by done. simpl.
  pose proof (make_date_spec (decimal a) (decimal b) (decimal c)) as Hmk.
  destruct (make_date _ _ _) as [dt|]; [destruct Hmk as [-> Hv]|]; by split.
Qed.

Lemma to_date_or_min_numbers_witness :
  (valid_date (Date (decimal (txt "2021")) (decimal (txt "3")) (decimal (txt "04"))) ->
   to_date_or_min (Some (txt "2021" ++ "-"%char :: txt "3" ++ "-"%char :: txt "04"))
   = Date (decimal (txt "2021")) (decimal (txt "3")) (decimal (txt "04")))
  /\ (~ valid_date (Date (decimal (txt "2021")) (decimal (txt "3")) (decimal (txt "04"))) ->
      to_date_or_min (Some (txt "2021" ++ "-"%char :: txt "3" ++ "-"%char :: txt "04"))
      = date_min).
Proof.
  apply (to_date_or_min_numbers (txt "2021") (txt "3") (txt "04"));
    (split_and!; [reflexivity|discriminate|vm_compute; lia]).
Defined.

(** ** What the extractors return *)

Lemma stops_rstrip (s : text) : stops is_space s -> stops is_space (rstrip s).
Proof.
  unfold rstrip. destruct s as [|c s]; [done|]. simpl. intros Hc.
  assert (H : exists x, drop_while is_space (rev s ++ [c]) = x ++ [c]).
  { generalize (rev s). intros l. induction l as [|y l [x IH]]; simpl.
    - rewrite Hc. by exists [].
    - destruct (is_space y); [by exists x|]. by exists (y :: l). }
  destruct H as [x ->]. rewrite rev_app_distr. done.
Qed.

Lemma strip_stops_front (s : text) : stops is_space (strip s).
Proof.
  unfold strip. apply stops_rstrip. unfold lstrip.
  induction s as [|c s IH]; simpl; [done|].
  destruct (is_space c) eqn:E; [done|]. done.
Qed.

Lemma forallb_drop_while {A} (p q : A -> bool) (l : list A) :
  forallb q l = true -> forallb q (drop_while p l) = true.
Proof.
  induction l as [|x l IH]; simpl; [done|].
  intros [Hx Hl]%andb_prop. destruct (p x); [by apply IH|].
  simpl. by rewrite Hx, Hl.
Qed.

Lemma forallb_rev {A} (q : A -> bool) (l : list A) :
  forallb q l = true -> forallb q (rev l) = true.
Proof.
  rewrite !forallb_forall. intros H x Hx. apply H. by apply in_rev.
Qed.

Lemma free_of_strip (c : ascii) (s : text) : free_of c s -> free_of c (strip s).
Proof.
  unfold free_of, strip, rstrip, lstrip. intros H.
  apply forallb_rev, forallb_drop_while, forallb_rev, forallb_drop_while, H.
Qed.

(** X13. The pollster that the extractor returns has no whitespace at its
    start and none at its end. *)
Theorem extract_pollster_trimmed (value : option text) :
  stops is_space (extract_pollster value)
  /\ stops is_space (rev (extract_pollster value)).
Proof.
  destruct value as [s|]; [|done]. unfold extract_pollster.
  destruct (search anchor_re s) as [[m ?]|]; [|destruct (contains "^" s)];
    split; first [apply strip_stops_front | apply strip_stops].
Qed.

(** X14. The sponsor that the extractor returns has no whitespace at its
    start and none at its end, and no caret. *)
Theorem extract_sponsor_trimmed (value : option text) :
  stops is_space (extract_sponsor value)
  /\ stops is_space (rev (extract_sponsor value))
  /\ free_of "^" (extract_sponsor value).
Proof.
  destruct value as [s|]; [|done].
  destruct (extract_sponsor_spec s) as [(body & Hf & ->)|[_ ->]]; [|done].
  split_and!; [apply strip_stops_front|apply strip_stops|].
  apply free_of_strip.
  destruct Hf as (pre & suf & _ & (ws & label & rest & _ & _ & _ & _ & Hfree) & _).
  done.
Qed.

Lemma search_anchor_free (s : text) : free_of "<" s -> search anchor_re s = None.
Proof.
  intros H. apply search_None. intros pre suf ->.
  apply free_of_app in H as [_ H].
  apply match_here_None. intros g rest Hm.
  apply anchor_re_inv in Hm as (a & attrs & inner & close & -> & _).
  by apply (free_of_not_in "<" []) in H.
Qed.

Lemma spans_removed_free (s : text) : free_of "<" s -> spans_removed s s.
Proof.
  induction s as [|c s IH]; intros H; [constructor|].
  apply (free_of_app "<" [c] s) in H as [Hc Hs].
  apply sr_keep; [|by apply IH].
  intros rest (body & Heq & _). injection Heq as -> _. done.
Qed.

Lemma take_while_until (c : ascii) (a r : text) :
  free_of c a -> take_while (not_char c) (a ++ c :: r) = a.
Proof.
  unfold free_of. induction a as [|x a IH]; simpl.
  - intros _. destruct (not_char c c) eqn:E; [|done]. by apply not_char_spec in E.
  - intros [Hx Ha]%andb_prop. by rewrite Hx, IH.
Qed.

Lemma contains_middle (c : ascii) (a r : text) : contains c (a ++ c :: r) = true.
Proof.
  unfold contains. rewrite existsb_app. simpl. rewrite Ascii.eqb_refl.
  by rewrite orb_true_r.
Qed.

Lemma extract_sponsor_free (s : text) : free_of "^" s -> extract_sponsor (Some s) = [].
Proof.
  intros H.
  destruct (extract_sponsor_spec s) as [(body & Hf & _)|[_ ->]]; [|done]. exfalso.
  destruct Hf as (pre & suf & -> & (ws & label & rest & -> & _) & _).
  apply free_of_app in H as [_ H]. by apply (free_of_not_in "^" []) in H.
Qed.

(** X15. A cell without markup: when the text has no "<", the pollster is
    the trimmed text before the first caret, or the whole trimmed text when
    there is no caret; and without a caret there is no sponsor. *)
Theorem plain_pollster_cell (s : text) :
  free_of "<" s ->
  (free_of "^" s -> extract_pollster (Some s) = strip s /\ extract_sponsor (Some s) = [])
  /\ (forall h t, s = h ++ "^"%char :: t -> free_of "^" h ->
        extract_pollster (Some s) = strip h).
Proof.
  intros Hlt. unfold extract_pollster. rewrite search_anchor_free by done. split.
  - intros Hc. rewrite contains_free_of by done. split; [|by apply extract_sponsor_free].
    f_equal. eapply spans_removed_unique; [apply sub_empty_tag|by apply spans_removed_free].
  - intros h t -> Hh. rewrite contains_middle. unfold split1_head.
    by rewrite take_while_until.
Qed.

Lemma plain_pollster_cell_witness :
  (free_of "^" (txt " Gallup ") ->
   extract_pollster (Some (txt " Gallup ")) = strip (txt " Gallup ")
   /\ extract_sponsor (Some (txt " Gallup ")) = [])
  /\ (forall h t, txt " Gallup " = h ++ "^"%char :: t -> free_of "^" h ->
        extract_pollster (Some (txt " Gallup ")) = strip h).
Proof. apply (plain_pollster_cell (txt " Gallup ")). reflexivity. Defined.

(** ** A cell of the usual form *)

Lemma free_of_head (c : ascii) (p x t : text) :
  p <> [] -> free_of c p -> p ++ x = c :: t -> False.
Proof.
  destruct p as [|y p]; [done|]. intros _ H [= -> _].
  by apply (free_of_not_in c [] p) in H.
Qed.

Lemma free_of_cons (c x : ascii) (l : text) :
  free_of c (x :: l) <-> x <> c /\ free_of c l.
Proof.
  unfold free_of. simpl. rewrite andb_true_iff, not_char_spec. done.
Qed.

Lemma lower_lt (c : ascii) : lower c = "<"%char -> c = "<"%char.
Proof. destruct c as [[] [] [] [] [] [] [] []]; vm_compute; congruence. Qed.

Lemma same_ci_close_head (close : text) :
  same_ci close (txt "</a>") -> exists t, close = "<"%char :: t.
Proof.
  destruct close as [|c t]; [done|]. intros [= H _]. apply lower_lt in H as ->. by exists t.
Qed.

Lemma same_ci_free_of_caret (x t : text) :
  same_ci x t -> free_of "^" t -> free_of "^" x.
Proof.
  unfold same_ci, free_of. revert t. induction x as [|c x IH]; intros [|d t]; try done.
  simpl. intros [= Hc Hx] [Hd Ht]%andb_prop. rewrite (IH t) by done.
  rewrite andb_true_r. apply not_char_spec. intros ->.
  apply not_char_spec in Hd. apply Hd.
  destruct d as [[] [] [] [] [] [] [] []]; vm_compute in Hc; congruence.
Qed.

(** X16. A cell of the usual form: an anchor with the pollster as its
    inner text, then the sponsor segment. When there is no "<" before the
    anchor and none in the inner text, the pollster is the trimmed inner
    text; when there is no caret before the segment, the sponsor is the
    trimmed body of the segment. *)
Theorem usual_cell (pre attrs name close label body rest : text) (a : ascii) :
  let s := pre ++ "<"%char :: a :: attrs ++ ">"%char :: name ++ close
               ++ "^"%char :: label ++ body ++ "^"%char :: rest in
  lower a = "a"%char -> same_ci close (txt "</a>") -> same_ci label (txt "Sponsor:") ->
  free_of "<" pre -> free_of ">" attrs -> free_of "<" name ->
  free_of "^" pre -> free_of "^" attrs -> free_of "^" name ->
  body <> [] -> free_of "^" body ->
  extract_pollster (Some s) = strip name /\ extract_sponsor (Some s) = strip body.
Proof.
  intros s Ha Hclose Hlabel Hpre Hattrs Hname Hpre' Hattrs' Hname' Hbody Hbody'.
  set (suf := "<"%char :: a :: attrs ++ ">"%char :: name ++ close
               ++ "^"%char :: label ++ body ++ "^"%char :: rest).
  assert (Hspan : anchor_span suf name).
  { exists a, attrs, close, ("^"%char :: label ++ body ++ "^"%char :: rest). done. }
  split.
  - assert (Hfirst : first_anchor s name).
    { exists pre, suf. split_and!; [done|done| |].
      - intros p1 p2 i -> Hne (a' & attrs' & close' & rest' & Heq & _).
        apply free_of_app in Hpre as [_ Hp2].
        by eapply free_of_head.
      - intros i (a' & attrs' & close' & rest' & Heq & _ & Hattrs2 & Hclose').
        injection Heq as _ Heq.
        destruct (until_unique _ _ _ _ _ Heq Hattrs Hattrs2) as [_ Heq2].
        destruct (prefix_cases _ _ _ _ Heq2) as [->|[(p2 & _ & -> & _)|(p2 & Hne & -> & Hz)]].
        + done.
        + rewrite length_app. lia.
        + exfalso. apply same_ci_close_head in Hclose' as [t ->].
          apply free_of_app in Hname as [_ Hp2]. simpl in Hz. symmetry in Hz.
          by eapply free_of_head. }
    unfold extract_pollster. destruct (search anchor_re s) as [[g r]|] eqn:E.
    + apply search_anchor_Some in E. by rewrite (first_anchor_unique _ _ _ E Hfirst).
    + apply search_anchor_None in E. exfalso. apply (E pre suf name); [reflexivity|exact Hspan].
  - set (front := pre ++ "<"%char :: a :: attrs ++ ">"%char :: name ++ close).
    assert (Hs : s = front ++ "^"%char :: label ++ body ++ "^"%char :: rest).
    { subst s front. norm_app. }
    assert (Hfront : free_of "^" front).
    { subst front. repeat (rewrite free_of_app || rewrite free_of_cons).
      split_and!; try done.
      - intros ->. vm_compute in Ha. discriminate.
      - apply (same_ci_free_of_caret _ _ Hclose). reflexivity. }
    assert (Hfirst : first_sponsor s body).
    { exists front, ("^"%char :: label ++ body ++ "^"%char :: rest). split_and!; [done| |].
      - exists [], label, rest. done.
      - intros p1 p2 b -> Hne (ws & label' & rest' & Heq & _).
        apply free_of_app in Hfront as [_ Hp2]. by eapply free_of_head. }
    destruct (extract_sponsor_spec s) as [(body' & Hf & ->)|[Hno _]].
    + by rewrite (first_sponsor_unique _ _ _ Hf Hfirst).
    + exfalso. destruct Hfirst as (p & q & Hpq & Hseg & _). by apply (Hno p q body).
Qed.

Lemma usual_cell_witness :
  extract_pollster
    (Some ([] ++ "<"%char :: "a"%char :: txt " href='x'" ++ ">"%char :: txt "Quinnipiac"
              ++ txt "</a>" ++ "^"%char :: txt "Sponsor:" ++ txt " ABC" ++ "^"%char :: []))
  = strip (txt "Quinnipiac")
  /\ extract_sponsor
       (Some ([] ++ "<"%char :: "a"%char :: txt " href='x'" ++ ">"%char :: txt "Quinnipiac"
                 ++ txt "</a>" ++ "^"%char :: txt "Sponsor:" ++ txt " ABC" ++ "^"%char :: []))
     = strip (txt " ABC").
Proof.
  apply (usual_cell [] (txt " href='x'") (txt "Quinnipiac") (txt "</a>") (txt "Sponsor:")
           (txt " ABC") [] "a"%char); try reflexivity. discriminate.
Defined.

(** ** Rows that do not count *)

Lemma blank_num_strip (t : text) : blank t -> blank (num_strip t).
Proof.
  unfold blank, num_strip. intros H.
  apply forallb_rev, forallb_drop_while, forallb_rev, forallb_drop_while, H.
Qed.

Lemma blank_drop_underscores (u : text) (prev : option ascii) :
  blank u -> (forall p, prev = Some p -> is_space p = true) ->
  drop_underscores prev u = Some u.
Proof.
  unfold blank. revert prev. induction u as [|c u IH]; intros prev Hu Hprev.
  - destruct prev as [p|]; [|done]. specialize (Hprev p eq_refl).
    destruct p as [[] [] [] [] [] [] [] []]; try done; vm_compute in Hprev; discriminate.
  - simpl in Hu. apply andb_prop in Hu as [Hc Hu].
    assert (IHc : drop_underscores (Some c) u = Some u).
    { apply IH; [done|]. by intros p [= <-]. }
    cbn [drop_underscores].
    assert (Hne : Ascii.eqb c "_" = false).
    { destruct c as [[] [] [] [] [] [] [] []]; try done; vm_compute in Hc; discriminate. }
    rewrite Hne.
    destruct prev as [p|]; [|by rewrite IHc]. specialize (Hprev p eq_refl).
    destruct p as [[] [] [] [] [] [] [] []]; try (by rewrite IHc);
      vm_compute in Hprev; discriminate.
Qed.

(** A text of whitespace only is not a number. *)
Lemma blank_no_float (t : text) : blank t -> float_of_text t = None.
Proof.
  intros Hb. apply blank_num_strip in Hb. unfold float_of_text.
  rewrite blank_drop_underscores by done.
  destruct (num_strip t) as [|c u]; [by vm_compute|].
  unfold blank in Hb. simpl in Hb. apply andb_prop in Hb as [Hc _].
  destruct c as [[] [] [] [] [] [] [] []]; try (vm_compute in Hc; discriminate Hc);
    by vm_compute.
Qed.

Lemma empty_cell_no_float (r : row) (k : string) :
  empty_cell r k -> py_float (get_or_empty r k) = None.
Proof.
  unfold empty_cell, get_or_empty. destruct (r !! k) as [[t|]|]; simpl; try done.
  apply blank_no_float.
Qed.

Lemma empty_cell_qualifying (r : row) :
  empty_cell r "Influence" \/ empty_cell r "Approve" -> qualifying r = None.
Proof.
  unfold qualifying. intros [H|H]; rewrite (empty_cell_no_float _ _ H); [done|].
  by destruct (py_float _).
Qed.

Lemma fixed5_not_nil (neg : bool) (n : Z) : fixed5 neg n <> [].
Proof.
  unfold fixed5. intros H. apply app_eq_nil in H as [_ H].
  by apply app_eq_nil in H as [_ H].
Qed.

Lemma format_5f_not_nil (x : float) : format_5f x <> [].
Proof.
  destruct x as [s|[]| |s m e]; simpl; try done; apply fixed5_not_nil.
Qed.

(** The average of some rows is the empty text exactly when none of them
    counts. *)
Lemma average_text_nil (rows : list row) :
  average_text rows = [] <-> Forall (fun r => qualifying r = None) rows.
Proof.
  rewrite average_text_sums, <- weights_nil.
  destruct (weights rows) as [|w ws]; [done|].
  split; [|done]. intros H. by apply format_5f_not_nil in H.
Qed.

(** X17. The rolling cell of a row is the empty text exactly when no row
    up to and including it counts for the average: the cells are empty up
    to the first row that counts, and not empty from there on. *)
Theorem rolling_empty_iff (rows : list row) :
  exists rs,
    rolling (fzero, fzero) rows = Ok rs
    /\ forall i r', rs !! i = Some r' ->
         rolling_value r' = Some (Some [])
         <-> Forall (fun r => qualifying r = None) (take (S i) rows).
Proof.
  destruct (rolling_from [] rows) as (rs & Hrs & Hlen & Hget). simpl in Hrs, Hget.
  exists rs. split; [done|]. intros i r' Hi.
  destruct (lookup_lt_is_Some_2 rows i) as [r Hr].
  { rewrite <- Hlen. by eapply lookup_lt_Some. }
  rewrite (Hget _ _ Hr) in Hi. injection Hi as <-.
  unfold rolling_value. rewrite lookup_insert_eq, <- average_text_nil.
  split; [by intros [= ->]|by intros ->].
Qed.

(** X18. The rolling values of the rows do not depend on the rows behind
    them: with more rows behind, the rolling pass returns the same rows,
    followed by the rows it makes of the new ones. This holds from any
    state of the running sums. *)
Theorem rolling_prefix (acc : accum) (rows more : list row) :
  exists rs rs',
    rolling acc rows = Ok rs
    /\ rolling acc (rows ++ more) = Ok (rs ++ rs')
    /\ length rs = length rows.
Proof.
  revert acc. induction rows as [|r rows IH]; intros acc.
  - destruct (rolling_ok acc more) as (rs' & Hrs' & _). by exists [], rs'.
  - cbn [rolling app]. unfold rolling_step. rewrite rolling_text_ok. cbn [rbind fst snd].
    destruct (IH (rolling_acc acc r)) as (rs & rs' & -> & -> & Hlen). cbn [rbind].
    eexists (_ :: rs), rs'. split_and!; [done|done|]. simpl. by rewrite Hlen.
Qed.

(** X19. When every row has a missing, absent or blank "Influence" cell or
    a missing, absent or blank "Approve" cell, as when the file has no such
    column, [main] returns: the line printed is the sentinel, and every
    rolling cell is the empty text. *)
Theorem main_without_numbers (header : list string) (rows : list row) :
  Forall (fun r => empty_cell r "Influence" \/ empty_cell r "Approve") rows ->
  exists out rs,
    main header rows = Ok out
    /\ stdout out = [report_na]
    /\ rolling (fzero, fzero) (sorted_rows header rows) = Ok rs
    /\ csv_rows out = map (write_row (compute_fieldnames header)) rs
    /\ Forall (fun r' => rolling_value r' = Some (Some [])) rs.
Proof.
  intros Hrows.
  assert (Hnone : Forall (fun r => qualifying r = None) (sorted_rows header rows)).
  { apply sorted_rows_none. eapply Forall_impl; [exact Hrows|].
    intros r. apply empty_cell_qualifying. }
  destruct (main_ok header rows) as (w & rs & Hw & Hrs & Hlen & ->).
  rewrite weighted_approve_sums, (proj2 (weights_nil _) Hnone) in Hw.
  injection Hw as <-.
  eexists _, rs. split_and!; try done.
  destruct (rolling_from [] (sorted_rows header rows)) as (rs2 & Hrs2 & _ & Hget).
  simpl in Hrs2, Hget. rewrite Hrs in Hrs2. injection Hrs2 as <-.
  apply Forall_lookup. intros i r' Hi.
  destruct (lookup_lt_is_Some_2 (sorted_rows header rows) i) as [r Hr].
  { rewrite <- Hlen. by eapply lookup_lt_Some. }
  rewrite (Hget _ _ Hr) in Hi. injection Hi as <-.
  unfold rolling_value. rewrite lookup_insert_eq. do 2 f_equal.
  apply average_text_nil. by apply Forall_take.
Qed.

Lemma main_without_numbers_witness :
  exists out rs,
    main ["Dates"; "Approve"]%string [weighted_row "" "50"; dated_row "2021-03-04"] = Ok out
    /\ stdout out = [report_na]
    /\ rolling (fzero, fzero)
         (sorted_rows ["Dates"; "Approve"]%string
            [weighted_row "" "50"; dated_row "2021-03-04"]) = Ok rs
    /\ csv_rows out = map (write_row (compute_fieldnames ["Dates"; "Approve"]%string)) rs
    /\ Forall (fun r' => rolling_value r' = Some (Some [])) rs.
Proof.
  apply (main_without_numbers ["Dates"; "Approve"]%string
           [weighted_row "" "50"; dated_row "2021-03-04"]).
  constructor; [left; vm_compute; reflexivity|].
  constructor; [left; vm_compute; exact I|].
  constructor.
Defined.

(** ** More on the stable descending sort *)

Section SortMore.
Context {A : Type} (key : A -> date).
Implicit Types (x : A) (l : list A).

Let desc (a b : A) : Prop := date_leb (key b) (key a) = true.

Lemma insert_desc_front x l :
  match l with [] => True | y :: _ => desc x y end -> insert_desc key x l = x :: l.
Proof. destruct l as [|y l]; simpl; [done|]. unfold desc. by intros ->. Qed.

Lemma insert_desc_filter_sorted (P : A -> Prop) `{!forall x, Decision (P x)} x l :
  StronglySorted desc l ->
  filter P (insert_desc key x l)
  = if decide (P x) then insert_desc key x (filter P l) else filter P l.
Proof.
  induction 1 as [|y l Hs IH Hy]; simpl.
  - rewrite filter_cons, filter_nil. by destruct (decide (P x)).
  - destruct (date_leb (key y) (key x)) eqn:E.
    + rewrite (filter_cons _ x). destruct (decide (P x)); [|done].
      symmetry. apply insert_desc_front.
      rewrite filter_cons. destruct (decide (P y)); [done|].
      destruct (filter P l) as [|z l'] eqn:Ef; [done|].
      assert (Hz : z ∈ l).
      { apply (list_elem_of_filter P). rewrite Ef. apply elem_of_cons. by left. }
      rewrite Forall_forall in Hy. unfold desc in *.
      eapply date_leb_trans; [by apply Hy|done].
    + rewrite (filter_cons _ y), IH, (filter_cons _ y).
      destruct (decide (P x)); destruct (decide (P y)); simpl; by rewrite ?E.
Qed.

(** The sort of the elements that have a property is what the sort of all
    elements has of them. *)
Lemma sort_desc_filter (P : A -> Prop) `{!forall x, Decision (P x)} l :
  filter P (sort_desc key l) = sort_desc key (filter P l).
Proof.
  induction l as [|x l IH]; simpl; [done|].
  rewrite insert_desc_filter_sorted by apply sort_desc_sorted.
  rewrite filter_cons, IH. by destruct (decide (P x)).
Qed.

(** Two lists in descending order with the same elements, whose keys are
    pairwise distinct, are the same list. *)
Lemma sorted_perm_eq l1 l2 :
  StronglySorted desc l1 -> StronglySorted desc l2 ->
  l1 ≡ₚ l2 -> NoDup (map key l1) -> l1 = l2.
Proof.
  intros H1. revert l2. induction H1 as [|x l1 Hs1 IH Hx]; intros l2 H2 Hp Hnd.
  - by apply Permutation_nil in Hp.
  - destruct H2 as [|y l2 Hs2 Hy].
    + symmetry in Hp. by apply Permutation_nil in Hp.
    + simpl in Hnd. apply NoDup_cons in Hnd as [Hnx Hnd].
      assert (Hxy : x = y).
      { assert (Hx2 : x ∈ y :: l2) by (rewrite <- Hp; apply elem_of_cons; by left).
        assert (Hy1 : y ∈ x :: l1) by (rewrite Hp; apply elem_of_cons; by left).
        apply elem_of_cons in Hx2 as [?|Hx2]; [done|].
        apply elem_of_cons in Hy1 as [?|Hy1]; [done|].
        rewrite Forall_forall in Hx, Hy.
        exfalso. apply Hnx.
        assert (Hk : key x = key y).
        { apply date_leb_antisym; [by apply Hy|by apply Hx]. }
        rewrite Hk. by apply list_elem_of_fmap_2. }
      subst y. f_equal. apply IH; [done| |done].
      by apply Permutation_cons_inv in Hp.
Qed.

Lemma sort_desc_perm_eq l1 l2 :
  l1 ≡ₚ l2 -> NoDup (map key l1) -> sort_desc key l1 = sort_desc key l2.
Proof.
  intros Hp Hnd. apply sorted_perm_eq; try apply sort_desc_sorted.
  - by rewrite !sort_desc_perm.
  - by rewrite sort_desc_perm.
Qed.
End SortMore.

(** X20. Rows that come newest first are written in the order of the
    input: when the date of each processed row is not before the date of
    the next one, the sort stage leaves the rows as they are. *)
Theorem sorted_rows_already_sorted (header : list string) (rows : list row) :
  Sorted later_or_equal (map (process_row (compute_fieldnames header)) rows) ->
  sorted_rows header rows = map (process_row (compute_fieldnames header)) rows.
Proof.
  unfold sorted_rows.
  induction 1 as [|r rs Hs IH Hhd]; simpl; [done|].
  rewrite IH. apply insert_desc_front. by destruct Hhd.
Qed.

Lemma sorted_rows_already_sorted_witness :
  sorted_rows ["Dates"]%string [dated_row "2021-03-04"; dated_row "03/04/2020"; dated_row "?"]
  = map (process_row (compute_fieldnames ["Dates"]%string))
      [dated_row "2021-03-04"; dated_row "03/04/2020"; dated_row "?"].
Proof.
  apply (sorted_rows_already_sorted ["Dates"]%string
           [dated_row "2021-03-04"; dated_row "03/04/2020"; dated_row "?"]).
  cbn [map].
  apply Sorted_cons; [apply Sorted_cons; [apply Sorted_cons; [apply Sorted_nil|apply HdRel_nil]|]|].
  - apply HdRel_cons. vm_compute. reflexivity.
  - apply HdRel_cons. vm_compute. reflexivity.
Defined.

Lemma omap_filter_is_Some {A B} (f : A -> option B) (l : list A) :
  omap f (filter (fun x => is_Some (f x)) l) = omap f l.
Proof.
  induction l as [|x l IH]; [done|].
  rewrite filter_cons. destruct (f x) as [y|] eqn:E.
  - rewrite decide_True by (by eexists). cbn. rewrite E. f_equal. exact IH.
  - rewrite decide_False by (by intros [? ?]). cbn. rewrite E. exact IH.
Qed.

Lemma filter_map_qualifying (fields : list string) (rows : list row) :
  filter (fun r => is_Some (qualifying r)) (map (process_row fields) rows)
  = map (process_row fields) (filter (fun r => is_Some (qualifying r)) rows).
Proof.
  induction rows as [|r rows IH]; [done|].
  simpl. rewrite !filter_cons, qualifying_process_row, IH.
  by destruct (decide (is_Some (qualifying r))).
Qed.

(** The rows that count, in sorted order, are the same whether the rows
    that do not count are taken out before or not. *)
Lemma omap_qualifying_sorted (header : list string) (rows : list row) :
  omap qualifying (sorted_rows header (filter (fun r => is_Some (qualifying r)) rows))
  = omap qualifying (sorted_rows header rows).
Proof.
  rewrite <- (omap_filter_is_Some qualifying (sorted_rows header rows)).
  unfold sorted_rows. by rewrite sort_desc_filter, filter_map_qualifying.
Qed.

(** X21. Rows that do not count for the average have no influence on the
    line printed: without them in the input, the same line is printed. *)
Theorem report_ignores_rows (header : list string) (rows : list row) :
  exists out out',
    main header rows = Ok out
    /\ main header (filter (fun r => is_Some (qualifying r)) rows) = Ok out'
    /\ stdout out = stdout out'.
Proof.
  set (rows' := filter _ rows).
  destruct (main_ok header rows) as (w & rs & Hw & _ & _ & ->).
  destruct (main_ok header rows') as (w' & rs' & Hw' & _ & _ & ->).
  eexists _, _. split_and!; try done. simpl. do 2 f_equal.
  rewrite weighted_approve_sums in Hw, Hw'.
  unfold weights, products in Hw'. subst rows'.
  rewrite omap_qualifying_sorted in Hw'.
  fold (weights (sorted_rows header rows)) in Hw'.
  fold (products (sorted_rows header rows)) in Hw'.
  congruence.
Qed.

(** X22. When the dates of the processed rows are pairwise distinct, the
    output does not depend on the order of the input rows: the same rows
    in another order give the same CSV file and the same line. *)
Theorem main_order_independent (header : list string) (rows1 rows2 : list row) :
  rows1 ≡ₚ rows2 ->
  NoDup (map (fun r => date_key (process_row (compute_fieldnames header) r)) rows1) ->
  main header rows1 = main header rows2.
Proof.
  intros Hp Hnd.
  assert (Hs : sorted_rows header rows1 = sorted_rows header rows2).
  { unfold sorted_rows. apply sort_desc_perm_eq.
    - by apply Permutation_map.
    - by rewrite map_map. }
  unfold main. by rewrite Hs.
Qed.

Lemma main_order_independent_witness :
  main ["Dates"]%string [dated_row "2021-03-04"; dated_row "03/04/2020"]
  = main ["Dates"]%string [dated_row "03/04/2020"; dated_row "2021-03-04"].
Proof.
  apply (main_order_independent ["Dates"]%string
           [dated_row "2021-03-04"; dated_row "03/04/2020"]
           [dated_row "03/04/2020"; dated_row "2021-03-04"]).
  - apply perm_swap.
  - apply (bool_decide_unpack _). vm_compute. exact I.
Defined.

(** ** The text of a number *)

Lemma frac5_spec (r : Z) :
  0 <= r < 100000 ->
  digits (frac5 r) /\ length (frac5 r) = 5%nat /\ decimal (frac5 r) = r.
Proof.
  intros Hr. unfold frac5, digits, decimal. cbn [forallb length fold_left].
  destruct (digit_char_spec (r / 10000)) as [-> ->].
  destruct (digit_char_spec (r / 1000)) as [-> ->].
  destruct (digit_char_spec (r / 100)) as [-> ->].
  destruct (digit_char_spec (r / 10)) as [-> ->].
  destruct (digit_char_spec r) as [-> ->].
  split_and!; [done|done|]. Z.to_euclidean_division_equations. lia.
Qed.

(** [scaled_round] rounds to the nearest integer, a tie to the even one. *)
Lemma scaled_round_spec (m : positive) (e : Z) :
  0 <= scaled_round m e 5
  /\ (0 <= e -> scaled_round m e 5 = Zpos m * 2 ^ e * 10 ^ 5)
  /\ (e < 0 ->
      2 * Z.abs (scaled_round m e 5 * 2 ^ (- e) - Zpos m * 10 ^ 5) <= 2 ^ (- e)
      /\ (2 * Z.abs (scaled_round m e 5 * 2 ^ (- e) - Zpos m * 10 ^ 5) = 2 ^ (- e) ->
          Z.even (scaled_round m e 5) = true)).
Proof.
  unfold scaled_round. destruct (0 <=? e) eqn:E.
  - apply Z.leb_le in E. split_and!; [|done|lia].
    assert (0 < 2 ^ e) by (apply Z.pow_pos_nonneg; lia). lia.
  - apply Z.leb_gt in E.
    set (num := Zpos m * 10 ^ 5). set (den := 2 ^ (- e)).
    assert (Hden : 0 < den) by (apply Z.pow_pos_nonneg; lia).
    assert (Hnum : 0 <= num) by (subst num; lia).
    pose proof (Z.div_mod num den ltac:(lia)) as Hdm.
    pose proof (Z.mod_pos_bound num den Hden) as Hr.
    assert (Hq : 0 <= num / den) by (apply Z.div_pos; lia).
    set (q := num / den) in *. set (r := num mod den) in *.
    destruct (Z.compare_spec (2 * r) den) as [Heq|Hlt|Hgt].
    + destruct (Z.even q) eqn:Ev.
      * split_and!; [lia|lia|]. intros _. split; [nia|done].
      * split_and!; [lia|lia|]. intros _. split; [nia|]. intros _.
        rewrite Z.even_add, Ev. reflexivity.
    + split_and!; [lia|lia|]. intros _. split; [nia|nia].
    + split_and!; [lia|lia|]. intros _. split; [nia|nia].
Qed.

(** X23. The text of a finite number, as the averages are written: an
    optional minus sign, the digits of the integer part, a point and five
    digits. The number that the digits spell, counted in units of 1/100000,
    is the nearest to the value of the number, a tie going to the even
    one. *)
Theorem format_5f_finite (neg : bool) (m : positive) (e : Z) :
  exists int frac,
    format_5f (S754_finite neg m e) = (if neg then ["-"%char] else []) ++ int ++ "."%char :: frac
    /\ digits int /\ int <> [] /\ digits frac /\ length frac = 5%nat
    /\ (0 <= e -> decimal (int ++ frac) = Zpos m * 2 ^ e * 10 ^ 5)
    /\ (e < 0 ->
        2 * Z.abs (decimal (int ++ frac) * 2 ^ (- e) - Zpos m * 10 ^ 5) <= 2 ^ (- e)
        /\ (2 * Z.abs (decimal (int ++ frac) * 2 ^ (- e) - Zpos m * 10 ^ 5) = 2 ^ (- e) ->
            Z.even (decimal (int ++ frac)) = true)).
Proof.
  cbn [format_5f]. unfold fixed5.
  destruct (scaled_round_spec m e) as (Hn & Hpos & Hneg).
  set (n := scaled_round m e 5) in *.
  assert (Hq : 0 <= n / 100000) by (apply Z.div_pos; lia).
  assert (Hr : 0 <= n mod 100000 < 100000) by (apply Z.mod_pos_bound; lia).
  destruct (digits_of_spec _ Hq) as (Hd1 & Hne & Hv1).
  destruct (frac5_spec _ Hr) as (Hd2 & Hl & Hv2).
  exists (digits_of (n / 100000)), (frac5 (n mod 100000)).
  assert (Hval : decimal (digits_of (n / 100000) ++ frac5 (n mod 100000)) = n).
  { rewrite decimal_app, Hl, Hv1, Hv2. change (10 ^ Z.of_nat 5) with 100000.
    pose proof (Z.div_mod n 100000 ltac:(lia)). lia. }
  rewrite Hval. split_and!; done.
Qed.
